(** * OIDC login sessions of the auth server (src/server/auth/server/oidc.go)

    A shallow embedding of [CryptoString], [handleOIDCExchange],
    [handleOIDCExchangeInternal] and [OIDCStateToEmail], with the state
    collection, the watch and the retry loop they run against, and the
    properties of the login flow proved over it. *)

From Stdlib Require Import ZArith List Lia Bool Ascii String.
From Stdlib.Strings Require Import Byte.
From stdpp Require Import gmap strings list.
Import ListNotations.

Open Scope Z_scope.

(* ===================================================================== *)
(** ** Go values *)
(* ===================================================================== *)

(** Go's [int] on the 64-bit targets the server is built for: two's
    complement, wrapping on overflow. *)
Definition int_wrap (z : Z) : Z := (z + 2 ^ 63) mod 2 ^ 64 - 2 ^ 63.

Definition int_add (a b : Z) : Z := int_wrap (a + b).
Definition int_mul (a b : Z) : Z := int_wrap (a * b).
(** Go's [/] truncates towards zero. *)
Definition int_div (a b : Z) : Z := int_wrap (Z.quot a b).

(** A call either returns or panics (with the panic's message). *)
Inductive result (A : Type) : Type :=
  | Ok (a : A)
  | Panic (msg : string).
Arguments Ok {A} a.
Arguments Panic {A} msg.

(* ===================================================================== *)
(** ** encoding/base64, RawURLEncoding *)
(* ===================================================================== *)

Module Base64.

(** [encodeURL]: the alphabet of [URLEncoding] and [RawURLEncoding]. *)
Definition encodeURL : string :=
  "ABCDEFGHIJKLMNOPQRSTUVWXYZabcdefghijklmnopqrstuvwxyz0123456789-_".

(** [enc.encode[i]]; every index the encoder uses is masked with 0x3F. *)
Definition encode_at (i : N) : ascii :=
  match String.get (N.to_nat i) encodeURL with
  | Some c => c
  | None => "A"%char
  end.

(** [RawURLEncoding.EncodedLen]: the encoding has no padding, so the
    branch taken is [(n*8 + 5) / 6]. *)
Definition EncodedLen (n : Z) : Z :=
  int_div (int_add (int_mul n 8) 5) 6.

Definition sextet (val : N) (shift : N) : ascii :=
  encode_at (N.land (N.shiftr val shift) 63).

(** [RawURLEncoding.Encode]: whole 3-byte groups give 4 characters each;
    a remainder of one byte gives 2 characters and of two bytes 3, with
    no padding character. *)
Fixpoint Encode (src : list byte) : list ascii :=
  match src with
  | [] => []
  | [b0] =>
      let val := N.shiftl (Byte.to_N b0) 16 in
      [sextet val 18; sextet val 12]
  | [b0; b1] =>
      let val := N.lor (N.shiftl (Byte.to_N b0) 16)
                       (N.shiftl (Byte.to_N b1) 8) in
      [sextet val 18; sextet val 12; sextet val 6]
  | b0 :: b1 :: b2 :: rest =>
      let val := N.lor (N.lor (N.shiftl (Byte.to_N b0) 16)
                              (N.shiftl (Byte.to_N b1) 8))
                       (Byte.to_N b2) in
      sextet val 18 :: sextet val 12 :: sextet val 6 :: sextet val 0
        :: Encode rest
  end.

Definition EncodeToString (src : list byte) : string :=
  string_of_list_ascii (Encode src).

End Base64.

(** Characters that never need percent-encoding in a URL (RFC 3986's
    unreserved set): letters, digits, [-], [.], [_] and [~]. *)
Definition url_safe (c : ascii) : bool :=
  let n := N_of_ascii c in
  ((65 <=? n) && (n <=? 90) || (97 <=? n) && (n <=? 122)
   || (48 <=? n) && (n <=? 57)
   || (n =? 45) || (n =? 46) || (n =? 95) || (n =? 126))%N.

(* ===================================================================== *)
(** ** crypto/rand *)
(* ===================================================================== *)

(** The random source as [rand.Read] sees it: whether the read fails, and
    the byte it delivers at each position of the buffer. *)
Record RandSource : Type := {
  rand_fails : bool;
  rand_byte : nat -> byte
}.

(** [rand.Read(b)] fills all of [b] or returns an error. *)
Definition rand_Read (r : RandSource) (len : nat) : option (list byte) :=
  if rand_fails r then None
  else Some (map (rand_byte r) (seq 0 len)).

(* ===================================================================== *)
(** ** CryptoString *)
(* ===================================================================== *)

(** The loop [for n >= EncodedLen(numBytes) { numBytes++ }]; [None] when
    the fuel runs out before the loop exits. *)
Fixpoint numBytes_loop (fuel : nat) (n numBytes : Z) : option Z :=
  match fuel with
  | O => None
  | S fuel' =>
      if n >=? Base64.EncodedLen numBytes
      then numBytes_loop fuel' n (int_add numBytes 1)
      else Some numBytes
  end.

(** [CryptoString(n)]. The loop is run with [n + 2] iterations of fuel,
    which [numBytes_loop_exits] shows is always enough. *)
Definition CryptoString (r : RandSource) (n : Z) : option (result string) :=
  match numBytes_loop (Z.to_nat n + 2) n 0 with
  | None => None
  | Some numBytes =>
      match rand_Read r (Z.to_nat numBytes) with
      | None =>
          Some (Panic
            "could not generate cryptographically secure random string!")
      | Some b => Some (Ok (Base64.EncodeToString b))
      end
  end.

Definition string_url_safe (s : string) : bool :=
  forallb url_safe (list_ascii_of_string s).

Definition strlen (s : string) : Z := Z.of_nat (String.length s).

(* ===================================================================== *)
(** ** Errors, formatted messages and the log *)
(* ===================================================================== *)

(** Go [error] values. The four sentinels are the package's variables
    [notConfigured], [authFailed], [watchFailed] and [tokenDeleted]; the
    code compares against them with [==], which is identity of the value.
    [Wrapf] and [Errorf] build fresh values, and [External] stands for an
    error value made by another package (oauth2, go-oidc, the collection,
    the watch, protobuf). *)
Inductive error : Type :=
  | notConfigured
  | authFailed
  | watchFailed
  | tokenDeleted
  | Wrapf (cause : error) (msg : string)
  | ErrorsNew (msg : string)
  | Errorf (format : string) (args : list string)
  | ErrNotFound (key : string)
  | External (msg : string).

Definition is_watchFailed (e : error) : bool :=
  match e with watchFailed => true | _ => false end.
Definition is_tokenDeleted (e : error) : bool :=
  match e with tokenDeleted => true | _ => false end.
Definition is_authFailed (e : error) : bool :=
  match e with authFailed => true | _ => false end.

(** A Go call returning [(value, err)]. *)
Definition errorable (A : Type) : Type := (A + error)%type.

Definition Duration : Type := Z.

(** An argument of a format call. *)
Inductive fmt_arg : Type :=
  | AStr (s : string)
  | AErr (e : option error)
  | ADur (d : Duration).

(** A format call as written: the format string and its arguments. *)
Record message : Type := Msg {
  msg_format : string;
  msg_args : list fmt_arg
}.

Inductive level : Type := InfoLevel | ErrorLevel.

(** One call to [logrus.Infof] or [logrus.Errorf]. *)
Record log_entry : Type := Log {
  log_level : level;
  log_msg : message
}.

Definition Infof (format : string) (args : list fmt_arg) : log_entry :=
  Log InfoLevel (Msg format args).
Definition Errorf_log (format : string) (args : list fmt_arg) : log_entry :=
  Log ErrorLevel (Msg format args).

(** The double quote, for format strings that contain one. *)
Definition dq : string := String (ascii_of_nat 34) EmptyString.

(* ===================================================================== *)
(** ** Session records and the state collection *)
(* ===================================================================== *)

(** [auth.SessionInfo], with the fields this file reads and writes. *)
Record SessionInfo : Type := {
  Nonce : string;
  AccessToken : string;
  ConversionErr : bool
}.

(** The [States] collection: session token to session record. *)
Abbreviation Store := (gmap string SessionInfo).

(** How a transaction can be failed by the store. *)
Inductive stm_fault : Type :=
  | NoFault
  | FailBegin (e : error)
  | FailCommit (e : error).

Module col.

(** Modelled from the spec: the collection's [Update] is not among the
    sources. "reads the current record, applies mutator to compute the
    new record (mutator may itself fail, aborting the transaction
    without side effects), and commits". A key with no record cannot be
    read and gives a not-found error, the mutator not being run. [C] is
    the state of the variables the mutator captures. *)
Definition Update {C : Type} (key : string)
    (f : SessionInfo -> C -> SessionInfo * C * option error)
    (st : Store) (c : C) : Store * C * option error :=
  match st !! key with
  | None => (st, c, Some (ErrNotFound key))
  | Some si =>
      let '(si', c', err) := f si c in
      match err with
      | Some e => (st, c', Some e)
      | None => (<[key := si']> st, c', None)
      end
  end.

(** Modelled from the spec: [NewSTM] is not among the sources. "opens a
    transaction ... and commits. Fails with StoreUnavailable": the
    store may fail the transaction before its body runs or when it
    commits; in both cases, and when the body returns an error, nothing
    is written. Assignments the body made to captured variables stay. *)
Definition NewSTM {C : Type} (fault : stm_fault) (st : Store) (c : C)
    (body : Store -> C -> Store * C * option error)
    : Store * C * option error :=
  match fault with
  | FailBegin e => (st, c, Some e)
  | NoFault =>
      let '(st', c', err) := body st c in
      match err with
      | Some e => (st, c', Some e)
      | None => (st', c', None)
      end
  | FailCommit e =>
      let '(_, c', err) := body st c in
      match err with
      | Some e' => (st, c', Some e')
      | None => (st, c', Some e)
      end
  end.

End col.

(* ===================================================================== *)
(** ** The OIDC client (oauth2 and go-oidc) *)
(* ===================================================================== *)

(** [oauth2.Token]: the access token and the [id_token] extra, when it is
    there and a string. *)
Record Token : Type := {
  tok_AccessToken : string;
  tok_id_token : option string
}.

(** What the provider answers: [conf.Exchange], [verifier.Verify] (the
    verified ID token's nonce) and [Provider.UserInfo] (the e-mail). *)
Record OIDCClient : Type := {
  Exchange : string -> errorable Token;
  Verify : string -> errorable string;
  UserInfo : string -> errorable string
}.

Record InternalOIDCProvider : Type := {
  Provider : OIDCClient
}.

(* ===================================================================== *)
(** ** The callback: handleOIDCExchange *)
(* ===================================================================== *)

(** What [http.Error] and [fmt.Fprintf] put on the [http.ResponseWriter]. *)
Inductive http_write : Type :=
  | HttpError (body : message) (code : Z)
  | Fprintf (body : message).

Definition StatusBadRequest : Z := 400.
Definition StatusUnauthorized : Z := 401.
Definition StatusConflict : Z := 409.
Definition StatusInternalServerError : Z := 500.

(** The status a write answers with; a plain write is a 200. *)
Definition status_of (w : http_write) : Z :=
  match w with
  | HttpError _ code => code
  | Fprintf _ => 200
  end.

(** [handleOIDCExchangeInternal]: the returned [(nonce, accessToken,
    retErr)] and the two log lines, the second one deferred and reading
    the named result [nonce]. *)
Definition handleOIDCExchangeInternal (sp : InternalOIDCProvider)
    (authCode state : string)
    : (string * string * option error) * list log_entry :=
  let ret :=
    match Exchange (Provider sp) authCode with
    | inr err => (""%string, ""%string, Some (Wrapf err "failed to exchange code"))
    | inl tok =>
        match tok_id_token tok with
        | None => (""%string, ""%string, Some (ErrorsNew "missing id token"))
        | Some rawIDToken =>
            match Verify (Provider sp) rawIDToken with
            | inr err =>
                (""%string, ""%string, Some (Wrapf err "could not verify token"))
            | inl idNonce => (idNonce, tok_AccessToken tok, None)
            end
        end
    end in
  (ret,
   [ Infof ("auth.OIDC.handleOIDCExchange { " +:+ dq +:+ "state" +:+ dq
            +:+ ": %q }") [AStr state];
     Infof ("auth.OIDC.handleOIDCExchange { " +:+ dq +:+ "state" +:+ dq
            +:+ ": %q, " +:+ dq +:+ "nonce" +:+ dq +:+ ": %q }")
           [AStr state; AStr (fst (fst ret))] ]).

(** The function passed to [Update]: it reads the record [si] and the
    captured [conversionErr], and assigns to both. *)
Definition mutator (nonce accessToken : string) (si : SessionInfo)
    (conversionErr : option error)
    : SessionInfo * option error * option error :=
  let conversionErr :=
    match conversionErr with
    | None =>
        if negb (String.eqb nonce (Nonce si))
        then Some (Errorf
               "IDP nonce %v did not match Pachyderm's session nonce %v"
               [nonce; Nonce si])
        else None
    | Some e => Some e
    end in
  let si :=
    match conversionErr with
    | None =>
        {| Nonce := Nonce si; AccessToken := accessToken;
           ConversionErr := ConversionErr si |}
    | Some _ =>
        {| Nonce := Nonce si; AccessToken := AccessToken si;
           ConversionErr := true |}
    end in
  (si, conversionErr, None).

(** The exchange and the transaction (the call of
    [handleOIDCExchangeInternal] and of [col.NewSTM]). *)
Record Commit : Type := {
  c_store : Store;
  c_conversionErr : option error;
  c_etcdErr : option error;
  c_logs : list log_entry
}.

Definition exchange_and_commit (sp : InternalOIDCProvider)
    (fault : stm_fault) (st : Store) (code state : string) : Commit :=
  let '((nonce, accessToken, conversionErr), logs) :=
    handleOIDCExchangeInternal sp code state in
  let '(st', conversionErr, etcdErr) :=
    col.NewSTM fault st conversionErr
      (col.Update state (mutator nonce accessToken)) in
  {| c_store := st'; c_conversionErr := conversionErr;
     c_etcdErr := etcdErr; c_logs := logs |}.

(** The three responses of the [switch]. *)
Definition unauthorized_write (state : string) : http_write :=
  HttpError
    (Msg ("authorization failed (OIDC state token: %q; Pachyderm "
          +:+ "logs may contain more information)") [AStr state])
    StatusUnauthorized.

Definition temporary_error_write (state : string) : http_write :=
  HttpError
    (Msg ("temporary error during authorization (OIDC state token: "
          +:+ "%q; Pachyderm logs may contain more information)")
         [AStr state])
    StatusInternalServerError.

Definition success_write : http_write :=
  Fprintf
    (Msg "You are now logged in. Go back to the terminal to use Pachyderm!" []).

(** The [switch]: one call to [http.Error] or to [fmt.Fprintf], on the
    response writer [w]. *)
Definition respond (w : list http_write) (state : string)
    (conversionErr etcdErr : option error) : list http_write :=
  match conversionErr, etcdErr with
  | Some _, _ => w ++ [unauthorized_write state]
  | None, Some _ => w ++ [temporary_error_write state]
  | None, None => w ++ [success_write]
  end.

(** The two [if]s after the [switch]. *)
Definition report (state : string) (conversionErr etcdErr : option error)
    : list log_entry :=
  (match conversionErr with
   | Some e =>
       [Errorf_log "could not convert authorization code (OIDC state: %q) %v"
                   [AStr state; AErr (Some e)]]
   | None => []
   end) ++
  (match etcdErr with
   | Some e =>
       [Errorf_log
          "error storing OIDC authorization code in etcd (OIDC state: %q): %v"
          [AStr state; AErr (Some e)]]
   | None => []
   end).

(** [req.URL.Query()[key][0]]: indexing the values of a key. A key that
    is not in the query has no values, and indexing panics. *)
Definition first_value (query : gmap string (list string)) (key : string)
    : result string :=
  match query !! key with
  | Some (v :: _) => Ok v
  | _ => Panic "runtime error: index out of range [0] with length 0"
  end.

(** What a run of the handler leaves: the collection, what was written to
    the response, and the log lines. *)
Record HandlerOut : Type := {
  out_store : Store;
  out_writes : list http_write;
  out_logs : list log_entry
}.

(** [handleOIDCExchange]; [sp] is [a.getOIDCSP()], [query] is
    [req.URL.Query()]. *)
Definition handleOIDCExchange (sp : option InternalOIDCProvider)
    (fault : stm_fault) (st : Store) (query : gmap string (list string))
    : result HandlerOut :=
  match sp with
  | None =>
      Ok {| out_store := st;
            out_writes :=
              [HttpError (Msg "OIDC ID provider configuration not found" [])
                         StatusConflict];
            out_logs := [] |}
  | Some sp =>
      match first_value query "code" with
      | Panic m => Panic m
      | Ok code =>
          match first_value query "state" with
          | Panic m => Panic m
          | Ok state =>
              if String.eqb state "" || String.eqb code ""
              then
                Ok {| out_store := st;
                      out_writes :=
                        [HttpError
                           (Msg ("invalid OIDC callback request: missing OIDC "
                                 +:+ "state token or authorization code") [])
                           StatusBadRequest];
                      out_logs := [] |}
              else
                let c := exchange_and_commit sp fault st code state in
                Ok {| out_store := c_store c;
                      out_writes :=
                        respond [] state (c_conversionErr c) (c_etcdErr c);
                      out_logs :=
                        c_logs c
                        ++ report state (c_conversionErr c) (c_etcdErr c) |}
          end
      end
  end.

(* ===================================================================== *)
(** ** The watch and the retry loop *)
(* ===================================================================== *)

Inductive EventType : Type := EventPut | EventDelete | EventError.

(** [watch.Event], with the fields the waiter reads. *)
Record Event : Type := {
  Type_ : EventType;
  Value : list byte;
  Err : option error
}.

(** What [for e := range watcher.Watch()] sees of the channel: the next
    event, the channel closed, or no further event and no close (the
    receive blocks for good). *)
Inductive chan : Type :=
  | ChanClosed
  | ChanBlocked
  | ChanRecv (e : Event) (rest : chan).

(** What [States.ReadOnly(ctx).WatchOne(state)] gives on one call. *)
Inductive watch_attempt : Type :=
  | WatchErr (e : error)
  | Watching (events : chan).

(** What the waiter does that others can see, in order. *)
Inductive effect : Type :=
  | EWatchOne (state : string)
  | EClose
  | ESleep (d : Duration)
  | ELog (l : log_entry)
  | EUserInfo (accessToken : string).

(** A call that may never return. *)
Inductive outcome (A : Type) : Type :=
  | Returned (a : A)
  | Hang.
Arguments Returned {A} a.
Arguments Hang {A}.

Module backoff.

(** Modelled from the spec: [backoff.RetryNotify] and
    [backoff.New60sBackOff] are not among the sources. "repeatedly
    (bounded by an overall backoff policy capped around a fixed
    ceiling)"; "classifies errors into stop and return vs sleep and
    retry; it must not retry after a non-retryable classification even
    if more time budget remains"; transient errors do not escape
    "unless the retry budget is exhausted". The policy is the list of
    intervals it hands out before it says stop. [operation k s] is the
    [k]-th call of the operation, on the state [s] of the variables it
    captures; [notify] returning an error stops the loop with it. *)
Fixpoint RetryNotify {C : Type}
    (operation : nat -> C -> outcome (option error) * C * list effect)
    (b : list Duration)
    (notify : error -> Duration -> option error * list effect)
    (k : nat) (s : C) : outcome (option error) * C * list effect :=
  let '(r, s', t) := operation k s in
  match r with
  | Hang => (Hang, s', t)
  | Returned None => (Returned None, s', t)
  | Returned (Some err) =>
      match b with
      | [] => (Returned (Some err), s', t)
      | next :: b' =>
          let '(stop, tn) := notify err next in
          match stop with
          | Some e => (Returned (Some e), s', t ++ tn)
          | None =>
              let '(r2, s2, t2) :=
                RetryNotify operation b' notify (S k) s' in
              (r2, s2, t ++ tn ++ [ESleep next] ++ t2)
          end
      end
  end.

End backoff.

(* ===================================================================== *)
(** ** The waiter: OIDCStateToEmail *)
(* ===================================================================== *)

Section Waiter.

(** [si.Unmarshal(e.Value)] of the generated protobuf code. *)
Variable Unmarshal : list byte -> errorable SessionInfo.

(** The [for e := range watcher.Watch()] loop of the operation, on the
    captured [accessToken]. *)
Fixpoint watch_loop (c : chan) (accessToken : string)
    : outcome (option error) * string * list effect :=
  match c with
  | ChanClosed => (Returned None, accessToken, [])
  | ChanBlocked => (Hang, accessToken, [])
  | ChanRecv e rest =>
      match Type_ e with
      | EventError => (Returned (Err e), accessToken, [])
      | EventDelete => (Returned (Some tokenDeleted), accessToken, [])
      | EventPut =>
          match Unmarshal (Value e) with
          | inr err =>
              (Returned
                 (Some (Wrapf err "error unmarshalling OIDC SessionInfo")),
               accessToken, [])
          | inl si =>
              if negb (String.eqb (AccessToken si) "")
              then (Returned None, AccessToken si, [])
              else if ConversionErr si
              then (Returned (Some authFailed), accessToken, [])
              else
                let '(r, tok, t) := watch_loop rest accessToken in
                (r, tok,
                 ELog (Errorf_log
                         "ID token unset in OIDC conversion watch event" [])
                 :: t)
          end
      end
  end.

(** The operation passed to [RetryNotify]; [watches k] is what the
    [k]-th [WatchOne] gives. The deferred [watcher.Close()] runs when
    the operation returns. *)
Definition operation (state : string) (watches : nat -> watch_attempt)
    (k : nat) (accessToken : string)
    : outcome (option error) * string * list effect :=
  match watches k with
  | WatchErr err =>
      (Returned (Some watchFailed), accessToken,
       [EWatchOne state;
        ELog (Errorf_log
                "error watching OIDC state token %q during authorization: %v"
                [AStr state; AErr (Some err)])])
  | Watching c =>
      let '(r, tok, t) := watch_loop c accessToken in
      match r with
      | Hang => (Hang, tok, EWatchOne state :: t)
      | Returned e => (Returned e, tok, EWatchOne state :: t ++ [EClose])
      end
  end.

(** The notify function passed to [RetryNotify]. *)
Definition notify (state : string) (err : error) (d : Duration)
    : option error * list effect :=
  (if is_watchFailed err || is_tokenDeleted err || is_authFailed err
   then Some err else None,
   [ELog (Errorf_log
            ("error watching OIDC state token %q during authorization "
             +:+ "(retrying in %s): %v")
            [AStr state; ADur d; AErr (Some err)])]).

(** The deferred log line of [OIDCStateToEmail]. *)
Definition converted_log (state email : string) (retErr : option error)
    : effect :=
  ELog (Infof "converted OIDC state %q to email %q (or err: %v)"
              [AStr state; AStr email; AErr retErr]).

(** [OIDCStateToEmail]: the returned [(email, retErr)], when it
    returns, and what it did. [b] is the policy of [New60sBackOff]. *)
Definition OIDCStateToEmail (o : InternalOIDCProvider)
    (watches : nat -> watch_attempt) (b : list Duration) (state : string)
    : outcome (string * option error) * list effect :=
  let '(r, accessToken, t) :=
    backoff.RetryNotify (operation state watches) b (notify state)
                        0%nat ""%string in
  match r with
  | Hang => (Hang, t)
  | Returned (Some err) =>
      (Returned (""%string, Some err),
       t ++ [converted_log state "" (Some err)])
  | Returned None =>
      match UserInfo (Provider o) accessToken with
      | inr err =>
          (Returned (""%string, Some err),
           t ++ [EUserInfo accessToken;
                 converted_log state "" (Some err)])
      | inl email =>
          (Returned (email, None),
           t ++ [EUserInfo accessToken;
                 ELog (Infof "recovered user info with email: '%v'"
                             [AStr email]);
                 converted_log state email None])
      end
  end.

End Waiter.

(* ===================================================================== *)
(** ** Reading records, and the inputs used in examples *)
(* ===================================================================== *)

(** The state of a record as the spec's data model names it, read the way
    [watch_loop] reads a record: the access token first. *)
Inductive session_state : Type :=
  | Pending
  | Succeeded (accessToken : string)
  | Failed.

Definition state_of (si : SessionInfo) : session_state :=
  if negb (String.eqb (AccessToken si) "") then Succeeded (AccessToken si)
  else if ConversionErr si then Failed
  else Pending.

(** A pending record, as [GetOIDCLoginURL] puts it. *)
Definition pending_record (nonce : string) : SessionInfo :=
  {| Nonce := nonce; AccessToken := ""; ConversionErr := false |}.

(** A random source that works and delivers zero bytes. *)
Definition zero_rand : RandSource :=
  {| rand_fails := false; rand_byte := fun _ => x00%byte |}.

(** A provider whose exchange and verification succeed, with the
    assertion's nonce [idNonce] and the access token [tok]. *)
Definition idp_ok (idNonce tok : string) : InternalOIDCProvider :=
  {| Provider :=
       {| Exchange := fun _ =>
            inl {| tok_AccessToken := tok; tok_id_token := Some "raw"%string |};
          Verify := fun _ => inl idNonce;
          UserInfo := fun t =>
            if String.eqb t tok then inl "user@example.com"%string
            else inr (External "401 Unauthorized") |} |}.

(** A provider that refuses the code. *)
Definition idp_refusing : InternalOIDCProvider :=
  {| Provider :=
       {| Exchange := fun _ => inr (External "oauth2: cannot fetch token");
          Verify := fun _ => inr (External "oidc: malformed jwt");
          UserInfo := fun _ => inr (External "401 Unauthorized") |} |}.

(** The query of a callback with both parameters. *)
Definition callback_query (code state : string) : gmap string (list string) :=
  {[ "code"%string := [code]; "state"%string := [state] ]}.

(** A decoder for examples: one byte per record of session ["abc123"]. *)
Definition sample_Unmarshal (bs : list byte) : errorable SessionInfo :=
  match bs with
  | [x00%byte] => inl (pending_record "n0")
  | [x01%byte] =>
      inl {| Nonce := "n0"; AccessToken := ""; ConversionErr := true |}
  | [x02%byte] =>
      inl {| Nonce := "n0"; AccessToken := "tok"; ConversionErr := false |}
  | _ => inr (External "proto: illegal wireType 7")
  end.

Definition put_event (v : list byte) : Event :=
  {| Type_ := EventPut; Value := v; Err := None |}.
Definition delete_event : Event :=
  {| Type_ := EventDelete; Value := []; Err := None |}.
Definition error_event (e : error) : Event :=
  {| Type_ := EventError; Value := []; Err := Some e |}.

(** The events [es], then the channel [c]. *)
Fixpoint chan_app (es : list Event) (c : chan) : chan :=
  match es with
  | [] => c
  | e :: es' => ChanRecv e (chan_app es' c)
  end.

(** An update event whose record is still pending. *)
Definition pending_put (Unmarshal : list byte -> errorable SessionInfo)
    (e : Event) : bool :=
  match Type_ e with
  | EventPut =>
      match Unmarshal (Value e) with
      | inl si => String.eqb (AccessToken si) "" && negb (ConversionErr si)
      | inr _ => false
      end
  | _ => false
  end.

(** The package's sentinels that [notify] stops on. *)
Definition stops_retry (e : error) : bool :=
  is_watchFailed e || is_tokenDeleted e || is_authFailed e.

(** What the exchange returns, before the transaction: the assertion's
    nonce, the access token and the conversion error. *)
Definition exchanged (sp : InternalOIDCProvider) (code state : string)
    : string * string * option error :=
  fst (handleOIDCExchangeInternal sp code state).

(** The arguments of all the format calls of a log. *)
Definition log_args (logs : list log_entry) : list fmt_arg :=
  flat_map (fun l => msg_args (log_msg l)) logs.


(** The log line of an update event whose record is still pending. *)
Definition unset_log : effect :=
  ELog (Errorf_log "ID token unset in OIDC conversion watch event" []).

(** How many times a run called [WatchOne]. *)
Definition watch_count (t : list effect) : nat :=
  length (List.filter
            (fun x => match x with EWatchOne _ => true | _ => false end) t).

(** An established watch whose operation returns an error that [notify]
    lets the loop retry (an error event, a record that does not decode). *)
Definition transient_attempt (Unmarshal : list byte -> errorable SessionInfo)
    (w : watch_attempt) : bool :=
  match w with
  | WatchErr _ => false
  | Watching c =>
      match fst (fst (watch_loop Unmarshal c "")) with
      | Returned (Some err) => negb (stops_retry err)
      | _ => false
      end
  end.

(** A first [WatchOne] that fails, and a second one that delivers the
    succeeded record. *)
Definition watches_fail_then_succeed (k : nat) : watch_attempt :=
  match k with
  | O => WatchErr (External "context deadline exceeded")
  | S _ => Watching (ChanRecv (put_event [x02%byte]) ChanClosed)
  end.

(* ===================================================================== *)
(** ** The claims as the spec words them, where the code differs *)
(* ===================================================================== *)

(** [L] is the least length [EncodedLen] can give that is at least [n]. *)
Definition least_encoded_len_ge (n L : Z) : Prop :=
  n <= L /\ (exists k, 0 <= k /\ Base64.EncodedLen k = L) /\
  forall k, 0 <= k < 2 ^ 59 -> n <= Base64.EncodedLen k ->
            L <= Base64.EncodedLen k.

(** [L] is the least length [EncodedLen] can give that is above [n]. *)
Definition least_encoded_len_gt (n L : Z) : Prop :=
  n < L /\ (exists k, 0 <= k /\ Base64.EncodedLen k = L) /\
  forall k, 0 <= k < 2 ^ 59 -> n < Base64.EncodedLen k ->
            L <= Base64.EncodedLen k.

(** [CryptoString(n)] returns a URL-safe string of the least encoded
    length that is at least [n]. *)
Definition CryptoString_least_ge (r : RandSource) (n : Z) : Prop :=
  exists s, CryptoString r n = Some (Ok s) /\ string_url_safe s = true /\
            least_encoded_len_ge n (strlen s).

(** A callback for a session whose record [si] is already terminal
    leaves the record's outcome as it was. *)
Definition second_callback_keeps_outcome (sp : InternalOIDCProvider)
    (fault : stm_fault) (code state : string) (si : SessionInfo) : Prop :=
  state_of si <> Pending ->
  forall out,
    handleOIDCExchange (Some sp) fault {[ state := si ]}
                       (callback_query code state) = Ok out ->
    exists si', out_store out !! state = Some si' /\
                state_of si' = state_of si.

(** A watch that cannot be established is retried: with an interval left
    in the policy, the waiter goes on to the next [WatchOne], and its
    result is that of the waiter started there. *)
Definition watch_failure_retried
    (Unmarshal : list byte -> errorable SessionInfo)
    (o : InternalOIDCProvider) (watches : nat -> watch_attempt)
    (next : Duration) (b : list Duration) (state : string) : Prop :=
  forall e, watches 0%nat = WatchErr e ->
    fst (OIDCStateToEmail Unmarshal o watches (next :: b) state)
    = fst (OIDCStateToEmail Unmarshal o (fun k => watches (S k)) b state).


(* ===================================================================== *)
(** ** testutil: dedent (src/unnamed/part_001) *)
(* ===================================================================== *)

(** Go strings are byte sequences; the texts [dedent] works on are kept
    as lists of bytes. *)
Abbreviation bytes := (list byte).

Definition newline : byte := x0a%byte.
Definition carriage_return : byte := x0d%byte.

(** [s[:i]] and [s[i:]] for an index within the string. *)
Definition slice_to (s : bytes) (i : Z) : bytes := firstn (Z.to_nat i) s.
Definition slice_from (s : bytes) (i : Z) : bytes := skipn (Z.to_nat i) s.

(** [strings.HasPrefix]. *)
Fixpoint HasPrefix (s prefix : bytes) {struct prefix} : bool :=
  match prefix, s with
  | [], _ => true
  | p :: prefix', c :: s' => Byte.eqb p c && HasPrefix s' prefix'
  | _ :: _, [] => false
  end.

Fixpoint bytes_eqb (a b : bytes) : bool :=
  match a, b with
  | [], [] => true
  | x :: a', y :: b' => Byte.eqb x y && bytes_eqb a' b'
  | _, _ => false
  end.

Module unicode.

(** The three-byte encodings of white space: U+1680, U+2000 to U+200A,
    U+2028, U+2029, U+202F, U+205F and U+3000. *)
Definition space3 (c0 c1 c2 : N) : bool :=
  ((c0 =? 225) && (c1 =? 154) && (c2 =? 128)
   || (c0 =? 226) && (c1 =? 128)
      && ((128 <=? c2) && (c2 <=? 138) || (c2 =? 168) || (c2 =? 169)
          || (c2 =? 175))
   || (c0 =? 226) && (c1 =? 129) && (c2 =? 159)
   || (c0 =? 227) && (c1 =? 128) && (c2 =? 128))%N.

(** When [s] starts with the UTF-8 encoding of a rune for which
    [unicode.IsSpace] holds, the number of bytes of that encoding. The
    white space of Latin-1 is tab to carriage return, the space, U+0085
    and U+00A0; a byte that starts no valid encoding decodes to the error
    rune, which is no white space. *)
Definition space_width (s : bytes) : option nat :=
  match s with
  | [] => None
  | b0 :: rest =>
      let c0 := Byte.to_N b0 in
      if ((9 <=? c0) && (c0 <=? 13) || (c0 =? 32))%N then Some 1%nat
      else
        match rest with
        | [] => None
        | b1 :: rest' =>
            let c1 := Byte.to_N b1 in
            if ((c0 =? 194) && ((c1 =? 133) || (c1 =? 160)))%N
            then Some 2%nat
            else
              match rest' with
              | [] => None
              | b2 :: _ =>
                  if space3 c0 c1 (Byte.to_N b2) then Some 3%nat else None
              end
        end
  end.

End unicode.

(** [strings.IndexFunc(s, notSpace)] as [dedent] calls it: the byte index
    of the first rune that is no white space, [-1] when there is none.
    [skip] counts the bytes left of the rune being stepped over and [pos]
    is the index of the head of [s]. *)
Fixpoint index_not_space (s : bytes) (skip : nat) (pos : Z) : Z :=
  match s with
  | [] => -1
  | _ :: rest =>
      match skip with
      | S k => index_not_space rest k (pos + 1)
      | O =>
          match unicode.space_width s with
          | Some w => index_not_space rest (w - 1) (pos + 1)
          | None => pos
          end
      end
  end.

Definition IndexFunc_notSpace (s : bytes) : Z := index_not_space s 0 0.

Module bufio.

(** [bufio.MaxScanTokenSize]. *)
Definition MaxScanTokenSize : Z := 64 * 1024.

(** The input cut at each newline; what follows the last newline is a
    line when it is not empty. *)
Fixpoint raw_lines (s : bytes) : list bytes :=
  match s with
  | [] => []
  | c :: s' =>
      if Byte.eqb c newline then [] :: raw_lines s'
      else
        match raw_lines s' with
        | [] => [[c]]
        | l :: ls => (c :: l) :: ls
        end
  end.

(** A line the scanner's buffer can hold: with its newline it has to fit
    in [MaxScanTokenSize] bytes, and an unterminated last line that fills
    the buffer is refused before the end of the input is seen. *)
Definition scannable (l : bytes) : bool :=
  Z.of_nat (length l) <? MaxScanTokenSize.

(** The lines up to the first one that is too long: [Scan] returns false
    there, and [dedent] does not look at [s.Err()]. *)
Fixpoint take_scannable (ls : list bytes) : list bytes :=
  match ls with
  | [] => []
  | l :: ls' => if scannable l then l :: take_scannable ls' else []
  end.

(** [dropCR]: one trailing carriage return is dropped. *)
Fixpoint dropCR (l : bytes) : bytes :=
  match l with
  | [] => []
  | [c] => if Byte.eqb c carriage_return then [] else [c]
  | c :: l' => c :: dropCR l'
  end.

(** The values of [s.Text()] over the successful calls of [s.Scan()],
    for a scanner with [ScanLines] over a [strings.Reader]. *)
Definition Texts (s : bytes) : list bytes :=
  map dropCR (take_scannable (raw_lines s)).

End bufio.

Module testutil.

(** The warning [dedent] writes to standard error: the line and the
    prefix it does not start with. *)
Record warning : Type := Warning {
  warn_line : bytes;
  warn_prefix : bytes
}.

(** How the [for s.Scan()] loop of [dedent] ends: at the end of the
    input with the buffer [dedentedCmd], or at a line without the
    prefix. *)
Inductive loop_end : Type :=
  | Dedented (dedentedCmd : bytes)
  | NoCommonPrefix (text prefix : bytes).

(** The [prefix] that says no prefix has been established. *)
Definition no_prefix : bytes := ["-"%byte].

(** The loop of [dedent] over the scanned lines. *)
Fixpoint dedent_loop (texts : list bytes) (prefix dedentedCmd : bytes)
    : loop_end :=
  match texts with
  | [] => Dedented dedentedCmd
  | text :: rest =>
      let i := IndexFunc_notSpace text in
      if i =? -1 then dedent_loop rest prefix dedentedCmd
      else if bytes_eqb prefix no_prefix then
        dedent_loop rest (slice_to text i)
          (dedentedCmd ++ slice_from text i ++ [newline])
      else if HasPrefix text prefix then
        dedent_loop rest prefix
          (dedentedCmd ++ slice_from text (Z.of_nat (length prefix))
                       ++ [newline])
      else NoCommonPrefix text prefix
  end.

(** [dedent(cmd)]: the returned string and what was written to standard
    error. *)
Definition dedent (cmd : bytes) : bytes * list warning :=
  match dedent_loop (bufio.Texts cmd) no_prefix [] with
  | Dedented dedentedCmd => (dedentedCmd, [])
  | NoCommonPrefix text prefix => (cmd, [Warning text prefix])
  end.

(** A line [dedent] skips: no rune of it but white space. *)
Definition blank (text : bytes) : bool := IndexFunc_notSpace text =? -1.

(** The white space a line starts with. *)
Definition indent (text : bytes) : bytes :=
  slice_to text (IndexFunc_notSpace text).

(** A line without its first [length prefix] bytes, and a newline. *)
Definition unindent (prefix text : bytes) : bytes :=
  slice_from text (Z.of_nat (length prefix)) ++ [newline].

(** The lines of [cmd] that [dedent] does not skip. *)
Definition nonblank_lines (cmd : bytes) : list bytes :=
  List.filter (fun t => negb (blank t)) (bufio.Texts cmd).

End testutil.

(** A run of white-space runes. *)
Inductive space_run : bytes -> Prop :=
  | space_run_nil : space_run []
  | space_run_cons s w :
      unicode.space_width s = Some w -> space_run (skipn w s) -> space_run s.


(** Lines written out one after the other, each ended by a newline. *)
Definition write_lines (ls : list bytes) : bytes :=
  concat (map (fun l => l ++ [newline]) ls).

(** A script for examples: two commands and a here-document, indented
    as the surrounding code is. *)
Definition sample_cmd : bytes :=
  list_byte_of_string "
    pachctl create repo images
    cat <<EOF
      indented more
    EOF
".

(* ===================================================================== *)
(** ** Starting a login: GetOIDCLoginURL *)
(* ===================================================================== *)

(** Passed to [PutTTL], so the value is in seconds. *)
Definition threeMinutes : Z := 3 * 60.

(** Modelled from the spec: the collection's [PutTTL] is not among the
    sources. "createPending(token, nonce, ttlSeconds): inserts a new
    pending record". The lease of [ttl] seconds is kept by the store:
    when it runs out, a watch of the key sees a delete event. *)
Definition PutTTL {C : Type} (key : string) (val : SessionInfo) (ttl : Z)
    (st : Store) (c : C) : Store * C * option error :=
  (<[key := val]> st, c, None).

(** The receiver [o] of [GetOIDCLoginURL]: nil, an object whose
    [Provider] field is nil, or an object with its provider. *)
Inductive login_receiver : Type :=
  | NilReceiver
  | ProviderUnset
  | ProviderSet (o : InternalOIDCProvider).

(** What a call of [GetOIDCLoginURL] that returns leaves: the three
    results, the collection, and the receiver, whose [Provider] the call
    may have assigned. *)
Record LoginOut : Type := {
  login_url : string;
  login_state : string;
  login_err : option error;
  login_store : Store;
  login_receiver_after : login_receiver
}.

Section Login.

(** [oidc.NewProvider(context.Background(), o.Issuer)]: the provider, or
    the text of the error, which is all that [%v] prints of it. *)
Variable NewProvider : OIDCClient + string.

(** [conf.AuthCodeURL(state, response_type=code, nonce=nonce)] for the
    endpoint of the provider and the client settings of [o]. *)
Variable AuthCodeURL : OIDCClient -> string -> string -> string.

(** [GetOIDCLoginURL]; [r_state] and [r_nonce] are the random source at
    the first and at the second call of [CryptoString]. The result is
    [None] when [CryptoString] runs out of fuel. *)
Definition GetOIDCLoginURL (o : login_receiver)
    (r_state r_nonce : RandSource) (fault : stm_fault) (st : Store)
    : option (result LoginOut) :=
  match
    match o with
    | NilReceiver => inr notConfigured
    | ProviderUnset =>
        match NewProvider with
        | inr err =>
            inr (Errorf "provider could not be found: %v" [err])
        | inl provider =>
            inl (ProviderSet {| Provider := provider |}, provider)
        end
    | ProviderSet sp => inl (o, Provider sp)
    end
  with
  | inr err =>
      Some (Ok {| login_url := ""; login_state := "";
                  login_err := Some err;
                  login_store := st; login_receiver_after := o |})
  | inl (o, provider) =>
      match CryptoString r_state 30 with
      | None => None
      | Some (Panic m) => Some (Panic m)
      | Some (Ok state) =>
          match CryptoString r_nonce 30 with
          | None => None
          | Some (Panic m) => Some (Panic m)
          | Some (Ok nonce) =>
              let '(st', _, err) :=
                col.NewSTM fault st tt
                  (PutTTL state
                     {| Nonce := nonce; AccessToken := "";
                        ConversionErr := false |}
                     threeMinutes) in
              match err with
              | Some err =>
                  Some (Ok {| login_url := ""; login_state := "";
                              login_err :=
                                Some (Wrapf err
                                  "could not create OIDC login session");
                              login_store := st';
                              login_receiver_after := o |})
              | None =>
                  Some (Ok {| login_url := AuthCodeURL provider state nonce;
                              login_state := state;
                              login_err := None;
                              login_store := st';
                              login_receiver_after := o |})
              end
          end
      end
  end.

End Login.

(** The provider of a receiver that has one. *)
Definition provider_of (NewProvider : OIDCClient + string)
    (o : login_receiver) : option OIDCClient :=
  match o with
  | NilReceiver => None
  | ProviderUnset =>
      match NewProvider with inl p => Some p | inr _ => None end
  | ProviderSet sp => Some (Provider sp)
  end.

(** An authorization URL for examples. *)
Definition sample_AuthCodeURL (_ : OIDCClient) (state nonce : string)
    : string :=
  "https://idp.example.com/auth?response_type=code&nonce=" +:+ nonce
    +:+ "&state=" +:+ state.

(* ===================================================================== *)
(** ** Log formatting (package log) *)
(* ===================================================================== *)

Module logrus.

(** [logrus.Level]; [OtherLevel] stands for a number that names no
    level. *)
Inductive Level : Type :=
  | PanicLevel
  | FatalLevel
  | ErrorLevel
  | WarnLevel
  | InfoLevel
  | DebugLevel
  | TraceLevel
  | OtherLevel (n : Z).

(** [Level.String()]. *)
Definition Level_String (l : Level) : string :=
  match l with
  | PanicLevel => "panic"
  | FatalLevel => "fatal"
  | ErrorLevel => "error"
  | WarnLevel => "warning"
  | InfoLevel => "info"
  | DebugLevel => "debug"
  | TraceLevel => "trace"
  | OtherLevel _ => "unknown"
  end.

End logrus.

Module strings.

(** [strings.ToUpper] on ASCII text, which the names of the levels
    are. *)
Definition upper (c : ascii) : ascii :=
  let n := nat_of_ascii c in
  if (97 <=? n)%nat && (n <=? 122)%nat then ascii_of_nat (n - 32) else c.

Fixpoint ToUpper (s : string) : string :=
  match s with
  | EmptyString => EmptyString
  | String c s' => String (upper c) (ToUpper s')
  end.

(** [s] cut at its first space: what is before it and what is after. *)
Fixpoint cut_space (s : string) : option (string * string) :=
  match s with
  | EmptyString => None
  | String c s' =>
      if Ascii.eqb c " " then Some (EmptyString, s')
      else
        match cut_space s' with
        | Some (a, b) => Some (String c a, b)
        | None => None
        end
  end.

(** [strings.SplitN(s, " ", n)] for [n >= 0]: at most [n] parts, the
    last one being the rest of [s], not cut. *)
Fixpoint SplitN_space (s : string) (n : nat) : list string :=
  match n with
  | O => []
  | S n' =>
      match n' with
      | O => [s]
      | S _ =>
          match cut_space s with
          | None => [s]
          | Some (a, b) => a :: SplitN_space b n'
          end
      end
  end.

(** [strings.Count(s, " ")]. *)
Fixpoint Count_space (s : string) : nat :=
  match s with
  | EmptyString => O
  | String c s' =>
      if Ascii.eqb c " " then S (Count_space s') else Count_space s'
  end.

End strings.

Module log.

(** A newline, as text. *)
Definition nl : string := String (ascii_of_nat 10) EmptyString.

Section Formatter.

(** [time.Time] and [entry.Time.Format(time.RFC3339)]. *)
Variable Time : Type.
Variable Format_RFC3339 : Time -> string.

(** A value of a type other than those [Pretty] tells apart, and the
    name of its type. *)
Variable other : Type.
Variable type_name : other -> string.

(** What a field of [entry.Data] holds, an [interface{}]: nil, a
    [time.Duration] (in nanoseconds), the [float64] that [d.Seconds()]
    gives, a string, or a value of another type. *)
Inductive value : Type :=
  | VNil
  | VDuration (d : Z)
  | VSeconds (d : Z)
  | VString (s : string)
  | VOther (o : other).

(** [logrus.Entry], with the fields [Pretty] reads. *)
Record Entry : Type := {
  Data : gmap string value;
  EntryTime : Time;
  EntryLevel : logrus.Level;
  Message : string
}.

(** The [%v] format of a value, and [json.Marshal] on the fields. *)
Variable Sprint : value -> string.
Variable Marshal : gmap string value -> errorable string.

(** [data[key]]: nil for a key that is not in the map. *)
Definition index (data : gmap string value) (key : string) : value :=
  match data !! key with
  | Some v => v
  | None => VNil
  end.

Definition is_nil (v : value) : bool :=
  match v with VNil => true | _ => false end.

(** The dynamic type of a value that is not nil. *)
Definition dynamic_type (v : value) : string :=
  match v with
  | VNil => "nil"
  | VDuration _ => "time.Duration"
  | VSeconds _ => "float64"
  | VString _ => "string"
  | VOther o => type_name o
  end.

(** The panic of [v.(time.Duration)] for a [v] of another type. *)
Definition conversion_panic (v : value) : string :=
  "interface conversion: interface {} is " +:+ dynamic_type v
    +:+ ", not time.Duration".

(** [Pretty]: the fields of the entry as the call leaves them (the map
    is changed in place), and the two results. *)
Definition Pretty (entry : Entry)
    : result (gmap string value * errorable string) :=
  let serialized :=
    Format_RFC3339 (EntryTime entry) +:+ " "
      +:+ strings.ToUpper (logrus.Level_String (EntryLevel entry)) +:+ " " in
  let data := Data entry in
  let '(serialized, data) :=
    if negb (is_nil (index data "service"))
       && negb (is_nil (index data "method"))
    then (serialized +:+ Sprint (index data "service") +:+ "."
            +:+ Sprint (index data "method") +:+ " ",
          delete "method"%string (delete "service"%string data))
    else (serialized, data) in
  if (0 <? size data)%nat then
    match
      if negb (is_nil (index data "duration")) then
        match index data "duration" with
        | VDuration d => Ok (<["duration"%string := VSeconds d]> data)
        | v => Panic (conversion_panic v)
        end
      else Ok data
    with
    | Panic m => Panic m
    | Ok data =>
        match Marshal data with
        | inr err =>
            Ok (data, inr (Wrapf err "failed to marshal fields to JSON"))
        | inl json =>
            Ok (data,
                inl (serialized +:+ json +:+ " " +:+ Message entry +:+ nl))
        end
    end
  else Ok (data, inl (serialized +:+ Message entry +:+ nl)).

(** The entry as a call of [Pretty] leaves it. *)
Definition with_data (entry : Entry) (data : gmap string value) : Entry :=
  {| Data := data; EntryTime := EntryTime entry;
     EntryLevel := EntryLevel entry; Message := Message entry |}.

End Formatter.

Arguments VNil {other}.
Arguments VDuration {other} d.
Arguments VSeconds {other} d.
Arguments VString {other} s.
Arguments VOther {other} o.
Arguments Data {Time other} e.
Arguments EntryTime {Time other} e.
Arguments EntryLevel {Time other} e.
Arguments Message {Time other} e.
Arguments index {other} data key.
Arguments is_nil {other} v.
Arguments dynamic_type {other} type_name v.
Arguments conversion_panic {other} type_name v.
Arguments Pretty {Time} Format_RFC3339 {other} type_name Sprint Marshal entry.
Arguments with_data {Time other} entry data.

(** What a call on a [logrus.Entry] is given to print: a string, a byte
    slice, or a format and its arguments. *)
Inductive printed : Type :=
  | Text (s : string)
  | ByteSlice (p : string)
  | Format (format : string) (args : list string).

(** A call of [entry.Info], [entry.Warning], [entry.Error] or
    [entry.Errorf], on an entry with the field [source]. *)
Record logged : Type := Logged {
  logged_level : logrus.Level;
  logged_source : string;
  logged_what : printed
}.

(** [GRPCLogWriter], without its logger, whose calls [Write] returns. *)
Record GRPCLogWriter : Type := {
  source : string
}.

Section Writer.

(** [strings.TrimSpace]. *)
Variable TrimSpace : string -> string.

(** [Write]: the calls on the logger, and the two results. *)
Definition Write (l : GRPCLogWriter) (p : string)
    : list logged * (Z * option error) :=
  let parts := strings.SplitN_space p 4 in
  let calls :=
    match parts with
    | [level; _; _; rest] =>
        let message := TrimSpace rest in
        if String.eqb level "INFO:" then
          [Logged logrus.InfoLevel (source l) (Text message)]
        else if String.eqb level "ERROR:" then
          [Logged logrus.ErrorLevel (source l) (Text message)]
        else if String.eqb level "WARNING:" then
          [Logged logrus.WarnLevel (source l) (Text message)]
        else if String.eqb level "FATAL:" then
          [Logged logrus.ErrorLevel (source l) (Text message)]
        else
          [Logged logrus.ErrorLevel (source l) (Text message);
           Logged logrus.ErrorLevel (source l)
             (Format ("entry had unknown log level prefix: '%s'; this is "
                      +:+ "a bug, please report it along with the previous "
                      +:+ "log entry") [level])]
    | _ =>
        [Logged logrus.ErrorLevel (source l) (ByteSlice p);
         Logged logrus.ErrorLevel (source l)
           (Text ("entry had unexpected format; this is a bug, please "
                  +:+ "report it along with the previous log entry"))]
    end in
  (calls, (strlen p, None)).

End Writer.

(** The level a line with a prefix of gRPC is logged at; [None] for
    another prefix. *)
Definition grpc_level (level : string) : option logrus.Level :=
  if String.eqb level "INFO:" then Some logrus.InfoLevel
  else if String.eqb level "ERROR:" then Some logrus.ErrorLevel
  else if String.eqb level "WARNING:" then Some logrus.WarnLevel
  else if String.eqb level "FATAL:" then Some logrus.ErrorLevel
  else None.

(** The second call for a prefix that is not known, and the two calls
    for a line that cannot be cut in four. *)
Definition unknown_prefix (l : GRPCLogWriter) (level : string) : logged :=
  Logged logrus.ErrorLevel (source l)
    (Format ("entry had unknown log level prefix: '%s'; this is "
             +:+ "a bug, please report it along with the previous "
             +:+ "log entry") [level]).

Definition unexpected_format (l : GRPCLogWriter) (p : string)
    : list logged :=
  [Logged logrus.ErrorLevel (source l) (ByteSlice p);
   Logged logrus.ErrorLevel (source l)
     (Text ("entry had unexpected format; this is a bug, please "
            +:+ "report it along with the previous log entry"))].

(** An entry for examples: a request that took a second and a half. *)
Definition sample_entry : Entry Z Empty_set :=
  {| Data := {[ "duration"%string := VDuration 1500000000;
                "service"%string := VString "pfs.API";
                "method"%string := VString "InspectRepo" ]};
     EntryTime := 0;
     EntryLevel := logrus.InfoLevel;
     Message := "done" |}.

End log.

(* ===================================================================== *)
(** ** Self-signed certificates (package cert) *)
(* ===================================================================== *)

Module cert.

Definition rsaKeySize : Z := 2048.

(** [time.Second] and [time.Hour], in nanoseconds. *)
Definition Second : Z := 1000000000.
Definition Hour : Z := 3600 * Second.

(** One year. *)
Definition validDur : Z := 365 * 24 * Hour.

(** The bits of [x509.KeyUsage] the template sets. *)
Definition KeyUsageKeyEncipherment : Z := Z.shiftl 1 2.
Definition KeyUsageKeyAgreement : Z := Z.shiftl 1 4.
Definition KeyUsageCertSign : Z := Z.shiftl 1 5.

Inductive ExtKeyUsage : Type :=
  | ExtKeyUsageAny
  | ExtKeyUsageServerAuth
  | ExtKeyUsageClientAuth.

(** What the libraries hold and do: the attributes of a [pkix.Name]
    other than the common name, with those of [pkix.Name{}]; parsed IP
    addresses and [net.ParseIP], which returns nil for a text that is no
    address; RSA keys and private keys of another kind; DER encodings
    and [x509.MarshalPKCS1PrivateKey]; parsed certificates; times and
    [Time.Add]; PEM texts and [pem.EncodeToMemory] of a block with a
    type and bytes. *)
Record Libraries : Type := {
  attributes : Type;
  no_attributes : attributes;
  IP : Type;
  ParseIP : string -> option IP;
  RSAKey : Type;
  OtherKey : Type;
  DER : Type;
  MarshalPKCS1PrivateKey : RSAKey -> DER;
  Leaf : Type;
  Time : Type;
  Add : Time -> Z -> Time;
  PEM : Type;
  EncodeToMemory : string -> DER -> PEM
}.

Section Cert.

Variable L : Libraries.

(** [pkix.Name]. *)
Record Name : Type := {
  CommonName : string;
  Attributes : attributes L
}.

(** [x509.Certificate], with the fields the template sets. *)
Record Template : Type := {
  SerialNumber : Z;
  Subject : Name;
  NotBefore : Time L;
  NotAfter : Time L;
  KeyUsage : Z;
  ExtKeyUsages : list ExtKeyUsage;
  IsCA : bool;
  BasicConstraintsValid : bool;
  MaxPathLenZero : bool;
  IPAddresses : list (IP L);
  DNSNames : list string
}.

(** The [PrivateKey] of a [tls.Certificate], a [crypto.PrivateKey]. *)
Inductive PrivateKey : Type :=
  | NoPrivateKey
  | RSAPrivateKey (k : RSAKey L)
  | OtherPrivateKey (k : OtherKey L).

(** [tls.Certificate]. *)
Record tls_Certificate : Type := {
  Certificate : list (DER L);
  Leaf_ : option (Leaf L);
  PrivateKey_ : PrivateKey
}.

(** What a call meets outside: the key [rsa.GenerateKey] returns, the
    two readings of the clock, [x509.CreateCertificate] for a template
    that is its own parent and a key, and [x509.ParseCertificate]. *)
Record World : Type := {
  GenerateKey : errorable (RSAKey L);
  Now1 : Time L;
  Now2 : Time L;
  CreateCertificate : Template -> RSAKey L -> errorable (DER L);
  ParseCertificate : DER L -> errorable (Leaf L)
}.

(** [PublicCertToPEM]: indexing an empty chain panics. *)
Definition PublicCertToPEM (cert : tls_Certificate) : result (PEM L) :=
  match Certificate cert with
  | der :: _ => Ok (EncodeToMemory L "CERTIFICATE" der)
  | [] => Panic "runtime error: index out of range [0] with length 0"
  end.

(** [KeyToPEM]: nil for a key that is no RSA key. *)
Definition KeyToPEM (cert : tls_Certificate) : option (PEM L) :=
  match PrivateKey_ cert with
  | RSAPrivateKey k =>
      Some (EncodeToMemory L "RSA PRIVATE KEY"
              (MarshalPKCS1PrivateKey L k))
  | _ => None
  end.

(** The loop over [ipAddresses]. *)
Fixpoint parse_ips (ipAddresses : list string) (parsedIPs : list (IP L))
    : errorable (list (IP L)) :=
  match ipAddresses with
  | [] => inl parsedIPs
  | strIP :: rest =>
      match ParseIP L strIP with
      | None => inr (Errorf "invalid IP: %s" [strIP])
      | Some nextParsedIP => parse_ips rest (parsedIPs ++ [nextParsedIP])
      end
  end.

(** What a call of [GenerateSelfSignedCert] leaves: the two results, the
    package's [serialNumber], the [pkix.Name] of the caller when one was
    passed, and the template that was signed, when the call came to
    sign one. *)
Record Out : Type := {
  cert_ret : errorable tls_Certificate;
  serial_after : Z;
  name_after : option Name;
  signed : option Template
}.

(** The [switch] on [address] and [name.CommonName]: an error, or the
    name as the [switch] leaves it. *)
Definition check_name (address : string) (name : Name) : errorable Name :=
  if String.eqb address "" && String.eqb (CommonName name) "" then
    inr (ErrorsNew ("must set either " +:+ dq +:+ "address" +:+ dq
                    +:+ " or " +:+ dq +:+ "name.CommonName" +:+ dq))
  else if negb (String.eqb address "")
          && String.eqb (CommonName name) "" then
    inl {| CommonName := address; Attributes := Attributes name |}
  else if negb (String.eqb address "")
          && negb (String.eqb (CommonName name) "")
          && negb (String.eqb (CommonName name) address) then
    inr (Errorf ("set address to " +:+ dq +:+ "%s" +:+ dq
                 +:+ " but name.CommonName to " +:+ dq +:+ "%s" +:+ dq)
                [address; CommonName name])
  else inl name.

(** The unsigned certificate. *)
Definition unsigned (w : World) (serialNumber : Z) (address : string)
    (name : Name) (parsedIPs : list (IP L)) : Template :=
  {| SerialNumber := serialNumber;
     Subject := name;
     NotBefore := Add L (Now1 w) (-1 * Second);
     NotAfter := Add L (Now2 w) validDur;
     KeyUsage :=
       Z.lor (Z.lor KeyUsageCertSign KeyUsageKeyEncipherment)
             KeyUsageKeyAgreement;
     ExtKeyUsages := [ExtKeyUsageServerAuth];
     IsCA := true;
     BasicConstraintsValid := true;
     MaxPathLenZero := true;
     IPAddresses := parsedIPs;
     DNSNames := [address] |}.

(** The [pkix.Name] a call works on: the caller's, or a new one when
    [name] is nil. *)
Definition name_or_new (name : option Name) : Name :=
  match name with
  | None => {| CommonName := ""; Attributes := no_attributes L |}
  | Some n => n
  end.

(** The caller's [pkix.Name], when one was passed, once the call has
    left it as [n]. *)
Definition caller (name : option Name) (n : Name) : option Name :=
  match name with
  | None => None
  | Some _ => Some n
  end.

(** [GenerateSelfSignedCert]; [serialNumber] is the package's variable
    as the call finds it. *)
Definition GenerateSelfSignedCert (w : World) (serialNumber : Z)
    (address : string) (name : option Name) (ipAddresses : list string)
    : Out :=
  match check_name address (name_or_new name) with
  | inr err =>
      {| cert_ret := inr err; serial_after := serialNumber;
         name_after := name; signed := None |}
  | inl name_ =>
      match parse_ips ipAddresses [] with
      | inr err =>
          {| cert_ret := inr err; serial_after := serialNumber;
             name_after := caller name name_; signed := None |}
      | inl parsedIPs =>
          match GenerateKey w with
          | inr err =>
              {| cert_ret :=
                   inr (Wrapf err "could not generate RSA private key");
                 serial_after := serialNumber;
                 name_after := caller name name_; signed := None |}
          | inl key =>
              let serialNumber := int_add serialNumber 1 in
              let cert :=
                unsigned w serialNumber address name_ parsedIPs in
              match CreateCertificate w cert key with
              | inr err =>
                  {| cert_ret :=
                       inr (Wrapf err "could not self-sign certificate");
                     serial_after := serialNumber;
                     name_after := caller name name_; signed := Some cert |}
              | inl signedCertDER =>
                  match ParseCertificate w signedCertDER with
                  | inr err =>
                      {| cert_ret :=
                           inr (Wrapf err
                                  ("could not parse the just-generated "
                                   +:+ "signed certificate"));
                         serial_after := serialNumber;
                         name_after := caller name name_;
                         signed := Some cert |}
                  | inl signedCert =>
                      {| cert_ret :=
                           inl {| Certificate := [signedCertDER];
                                  Leaf_ := Some signedCert;
                                  PrivateKey_ := RSAPrivateKey key |};
                         serial_after := serialNumber;
                         name_after := caller name name_;
                         signed := Some cert |}
                  end
              end
          end
      end
  end.

(** A call: what it meets outside and its arguments. *)
Record Call : Type := {
  call_world : World;
  call_address : string;
  call_name : option Name;
  call_ipAddresses : list string
}.

(** Calls one after the other, each finding [serialNumber] as the call
    before left it. *)
Fixpoint calls_from (serialNumber : Z) (calls : list Call) : list Out :=
  match calls with
  | [] => []
  | c :: rest =>
      let out :=
        GenerateSelfSignedCert (call_world c) serialNumber (call_address c)
          (call_name c) (call_ipAddresses c) in
      out :: calls_from (serial_after out) rest
  end.

(** The serial numbers of the templates that were signed. *)
Definition serial_numbers (outs : list Out) : list Z :=
  flat_map (fun out =>
              match signed out with
              | Some cert => [SerialNumber cert]
              | None => []
              end) outs.

End Cert.

Arguments CommonName {L} n.
Arguments Attributes {L} n.
Arguments SerialNumber {L} t.
Arguments Subject {L} t.
Arguments NotBefore {L} t.
Arguments NotAfter {L} t.
Arguments KeyUsage {L} t.
Arguments ExtKeyUsages {L} t.
Arguments IsCA {L} t.
Arguments BasicConstraintsValid {L} t.
Arguments MaxPathLenZero {L} t.
Arguments IPAddresses {L} t.
Arguments DNSNames {L} t.
Arguments NoPrivateKey {L}.
Arguments RSAPrivateKey {L} k.
Arguments OtherPrivateKey {L} k.
Arguments Certificate {L} t.
Arguments Leaf_ {L} t.
Arguments PrivateKey_ {L} t.
Arguments GenerateKey {L} w.
Arguments Now1 {L} w.
Arguments Now2 {L} w.
Arguments CreateCertificate {L} w.
Arguments ParseCertificate {L} w.
Arguments cert_ret {L} o.
Arguments serial_after {L} o.
Arguments name_after {L} o.
Arguments signed {L} o.
Arguments call_world {L} c.
Arguments call_address {L} c.
Arguments call_name {L} c.
Arguments call_ipAddresses {L} c.
Arguments PublicCertToPEM {L} cert.
Arguments KeyToPEM {L} cert.
Arguments parse_ips {L} ipAddresses parsedIPs.
Arguments check_name {L} address name.
Arguments unsigned {L} w serialNumber address name parsedIPs.
Arguments name_or_new {L} name.
Arguments caller {L} name n.
Arguments GenerateSelfSignedCert {L} w serialNumber address name ipAddresses.
Arguments calls_from {L} serialNumber calls.
Arguments serial_numbers {L} outs.

(** Libraries for examples: texts for addresses, keys and encodings,
    and an address parser that knows two addresses. *)
Definition sample_libraries : Libraries :=
  {| attributes := list string;
     no_attributes := [];
     IP := string;
     ParseIP := fun s =>
       if String.eqb s "127.0.0.1" || String.eqb s "::1" then Some s
       else None;
     RSAKey := string;
     OtherKey := string;
     DER := string;
     MarshalPKCS1PrivateKey := fun k => k;
     Leaf := string;
     Time := Z;
     Add := Z.add;
     PEM := string * string;
     EncodeToMemory := fun type bytes => (type, bytes) |}.

(** A world for examples, in which everything works. *)
Definition sample_world : World sample_libraries :=
  Build_World sample_libraries
    (inl "key"%string) (1000 * Second) (1000 * Second + 1)
    (fun _ key => inl ("der signed by " +:+ key))
    (fun der => inl der).

End cert.

(* ===================================================================== *)
(** ** Counting what a waiter did *)
(* ===================================================================== *)

(** How many watches a run closed, how often it slept, and how often it
    asked the provider for the user. *)
Definition close_count (t : list effect) : nat :=
  length (List.filter
            (fun x => match x with EClose => true | _ => false end) t).

Definition sleep_count (t : list effect) : nat :=
  length (List.filter
            (fun x => match x with ESleep _ => true | _ => false end) t).

Definition userinfo_count (t : list effect) : nat :=
  length (List.filter
            (fun x => match x with EUserInfo _ => true | _ => false end) t).

(** How many of the [n] calls of [WatchOne] from the [k]-th on gave a
    watch. *)
Definition established (watches : nat -> watch_attempt) (k n : nat) : nat :=
  length (List.filter
            (fun i => match watches i with
                      | Watching _ => true
                      | WatchErr _ => false
                      end) (seq k n)).

(** One for a call that does not return. *)
Definition pending_call {A : Type} (r : outcome A) : nat :=
  match r with
  | Hang => 1
  | Returned _ => 0
  end.

(* ===================================================================== *)
(** * Properties *)
(* ===================================================================== *)

Lemma int_wrap_small z : - 2 ^ 63 <= z < 2 ^ 63 -> int_wrap z = z.
Proof.
  intros Hz. unfold int_wrap.
  rewrite Z.mod_small by lia. lia.
Qed.

Lemma EncodedLen_small n :
  0 <= n < 2 ^ 59 -> Base64.EncodedLen n = (n * 8 + 5) / 6.
Proof.
  intros Hn. unfold Base64.EncodedLen, int_div, int_add, int_mul.
  rewrite (int_wrap_small (n * 8)) by lia.
  rewrite (int_wrap_small (n * 8 + 5)) by lia.
  rewrite Z.quot_div_nonneg by lia.
  apply int_wrap_small.
  assert (0 <= (n * 8 + 5) / 6 <= n * 8 + 5); [|lia].
  split; [apply Z.div_pos; lia|].
  apply Z.div_le_upper_bound; lia.
Qed.

Lemma EncodedLen_mono a b :
  0 <= a <= b -> b < 2 ^ 59 -> Base64.EncodedLen a <= Base64.EncodedLen b.
Proof.
  intros Hab Hb. rewrite !EncodedLen_small by lia.
  apply Z.div_le_mono; lia.
Qed.

Lemma EncodedLen_ge n :
  1 <= n < 2 ^ 59 -> n < Base64.EncodedLen n.
Proof.
  intros Hn. rewrite EncodedLen_small by lia.
  Z.to_euclidean_division_equations. lia.
Qed.

Lemma numBytes_loop_exits fuel : forall n j,
  0 <= n < 2 ^ 58 -> 0 <= j <= n + 1 ->
  (forall i, 0 <= i < j -> Base64.EncodedLen i <= n) ->
  (Z.to_nat (n + 2 - j) <= fuel)%nat ->
  exists k, numBytes_loop fuel n j = Some k /\ j <= k <= n + 1 /\
            n < Base64.EncodedLen k /\
            forall i, 0 <= i < k -> Base64.EncodedLen i <= n.
Proof.
  induction fuel as [|fuel IH]; intros n j Hn Hj Hbelow Hfuel.
  - lia.
  - cbn [numBytes_loop].
    destruct (Z.geb_spec n (Base64.EncodedLen j)) as [Hle|Hgt].
    + assert (Hjn : j <= n).
      { destruct (Z.eq_dec j 0) as [->|Hj0]; [lia|].
        pose proof (EncodedLen_ge j). lia. }
      unfold int_add. rewrite int_wrap_small by lia.
      destruct (IH n (j + 1)) as (k & Hk & Hjk & Hex & Hmin); try lia.
      { intros i Hi. destruct (Z.eq_dec i j) as [->|Hne]; [lia|].
        apply Hbelow. lia. }
      exists k. repeat split; auto; lia.
    + exists j. repeat split; auto; lia.
Qed.


Lemma encode_at_url_safe i : (i < 64)%N -> url_safe (Base64.encode_at i) = true.
Proof.
  intros Hi.
  assert (H : forallb (fun k => url_safe (Base64.encode_at (N.of_nat k)))
                      (seq 0 64) = true) by (vm_compute; reflexivity).
  rewrite forallb_forall in H.
  specialize (H (N.to_nat i)). rewrite N2Nat.id in H.
  apply H. apply in_seq. lia.
Qed.

Lemma sextet_url_safe val shift : url_safe (Base64.sextet val shift) = true.
Proof.
  unfold Base64.sextet. apply encode_at_url_safe.
  change 63%N with (N.ones 6). rewrite N.land_ones.
  apply N.mod_lt. discriminate.
Qed.

Lemma Encode_spec n : forall src : list byte,
  (length src <= n)%nat ->
  forallb url_safe (Base64.Encode src) = true /\
  Z.of_nat (length (Base64.Encode src)) = (Z.of_nat (length src) * 8 + 5) / 6.
Proof.
  induction n as [|n IH]; intros src Hlen.
  - destruct src; [split; reflexivity | cbn in Hlen; lia].
  - destruct src as [|b0 [|b1 [|b2 rest]]]; try (split; [|reflexivity]).
    + reflexivity.
    + cbn. rewrite !sextet_url_safe. reflexivity.
    + cbn. rewrite !sextet_url_safe. reflexivity.
    + destruct (IH rest) as [Hsafe Hl]; [cbn in Hlen; lia|].
      split.
      * cbn [Base64.Encode forallb]. rewrite !sextet_url_safe, Hsafe. reflexivity.
      * cbn [Base64.Encode length]. rewrite !Nat2Z.inj_succ, Hl.
        Z.to_euclidean_division_equations. lia.
Qed.

Lemma length_string_of_list (l : list ascii) :
  String.length (string_of_list_ascii l) = length l.
Proof. induction l as [|c l IH]; cbn; congruence. Qed.

(** C5, counterexample: [CryptoString(30)], the call [GetOIDCLoginURL]
    makes, returns 31 characters, though 22 bytes encode to exactly 30:
    the length is not the least one that is at least [n]. *)
Lemma CryptoString_30_not_least_ge : ~ CryptoString_least_ge zero_rand 30.
Proof.
  intros (s & Hs & _ & _ & _ & Hmin).
  vm_compute in Hs. injection Hs as <-.
  specialize (Hmin 22). vm_compute in Hmin.
  apply Hmin; [split| |]; discriminate || reflexivity.
Qed.

(** C5, as amended: for [0 <= n < 2^58] and a working random source,
    [CryptoString(n)] returns a string over the URL-safe alphabet whose
    length is the least encoded length strictly above [n]. *)
Theorem CryptoString_least_len_above (r : RandSource) (n : Z) :
  0 <= n < 2 ^ 58 -> rand_fails r = false ->
  exists s, CryptoString r n = Some (Ok s) /\ string_url_safe s = true /\
            least_encoded_len_gt n (strlen s).
Proof.
  intros Hn Hr. unfold CryptoString.
  destruct (numBytes_loop_exits (Z.to_nat n + 2) n 0)
    as (k & -> & Hk & Hex & Hbelow); try lia.
  unfold rand_Read. rewrite Hr.
  eexists. split; [reflexivity|].
  set (b := map (rand_byte r) (seq 0 (Z.to_nat k))).
  destruct (Encode_spec (length b) b) as [Hsafe Hlen]; [lia|].
  assert (Hb : Z.of_nat (length b) = k).
  { subst b. rewrite length_map, length_seq. lia. }
  assert (HL : strlen (Base64.EncodeToString b) = Base64.EncodedLen k).
  { unfold strlen, Base64.EncodeToString.
    rewrite length_string_of_list, Hlen, Hb, EncodedLen_small; lia. }
  split.
  - unfold string_url_safe, Base64.EncodeToString.
    rewrite list_ascii_of_string_of_list_ascii. exact Hsafe.
  - rewrite HL. repeat split; [lia | exists k; split; [lia | reflexivity] |].
    intros k' Hk' Hgt.
    destruct (Z.lt_ge_cases k' k) as [Hlt|Hge].
    + specialize (Hbelow k'). lia.
    + apply EncodedLen_mono; lia.
Qed.

(** C5, witness: the amended statement at [n = 30]. *)
Lemma CryptoString_least_len_above_witness :
  exists s, CryptoString zero_rand 30 = Some (Ok s) /\ string_url_safe s = true /\
            least_encoded_len_gt 30 (strlen s).
Proof.
  apply (CryptoString_least_len_above zero_rand 30); [lia | reflexivity].
Defined.

(** When the random source fails, [CryptoString] panics. *)
Theorem CryptoString_panics_without_entropy (r : RandSource) (n : Z) :
  0 <= n < 2 ^ 58 -> rand_fails r = true ->
  CryptoString r n =
    Some (Panic "could not generate cryptographically secure random string!").
Proof.
  intros Hn Hr. unfold CryptoString.
  destruct (numBytes_loop_exits (Z.to_nat n + 2) n 0)
    as (k & -> & _); try lia.
  unfold rand_Read. rewrite Hr. reflexivity.
Qed.

Lemma CryptoString_panics_without_entropy_witness :
  CryptoString {| rand_fails := true; rand_byte := fun _ => x00%byte |} 30 =
    Some (Panic "could not generate cryptographically secure random string!").
Proof.
  apply (CryptoString_panics_without_entropy
           {| rand_fails := true; rand_byte := fun _ => x00%byte |} 30);
    [lia | reflexivity].
Defined.

(* ===================================================================== *)
(** ** The callback *)
(* ===================================================================== *)

Lemma first_value_callback_query code state :
  first_value (callback_query code state) "code" = Ok code /\
  first_value (callback_query code state) "state" = Ok state.
Proof.
  unfold first_value, callback_query. split.
  - rewrite lookup_insert_eq. reflexivity.
  - rewrite lookup_insert_ne by discriminate.
    rewrite lookup_singleton_eq. reflexivity.
Qed.

(** Past the two checks, the handler is the exchange, the transaction,
    the [switch] and the two log lines. *)
Lemma handleOIDCExchange_stage sp fault st query code state :
  first_value query "code" = Ok code ->
  first_value query "state" = Ok state ->
  code <> ""%string -> state <> ""%string ->
  handleOIDCExchange (Some sp) fault st query =
    let c := exchange_and_commit sp fault st code state in
    Ok {| out_store := c_store c;
          out_writes := respond [] state (c_conversionErr c) (c_etcdErr c);
          out_logs := c_logs c
                      ++ report state (c_conversionErr c) (c_etcdErr c) |}.
Proof.
  intros Hc Hs Hcode Hstate. unfold handleOIDCExchange.
  rewrite Hc, Hs.
  apply String.eqb_neq in Hcode, Hstate. rewrite Hcode, Hstate.
  reflexivity.
Qed.

Lemma empty_parameter_response sp fault st query code state :
  first_value query "code" = Ok code ->
  first_value query "state" = Ok state ->
  state = ""%string \/ code = ""%string ->
  exists out, handleOIDCExchange (Some sp) fault st query = Ok out /\
    out_store out = st /\ out_logs out = [] /\
    exists w, out_writes out = [w] /\ status_of w = StatusBadRequest.
Proof.
  intros Hc Hs Hempty. unfold handleOIDCExchange. rewrite Hc, Hs.
  assert (String.eqb state "" || String.eqb code "" = true) as ->.
  { destruct Hempty as [->| ->]; [reflexivity|]. apply orb_true_r. }
  eexists. split; [reflexivity|]. cbn. eauto.
Qed.

Lemma missing_parameter_panics sp fault st query :
  query !! "code"%string = None \/ query !! "state"%string = None ->
  exists m, handleOIDCExchange (Some sp) fault st query = Panic m.
Proof.
  intros [Hq|Hq]; unfold handleOIDCExchange, first_value.
  - rewrite Hq. eauto.
  - rewrite Hq. destruct (query !! "code"%string) as [[|c cs]|]; eauto.
Qed.

Lemma mutator_record n a si ce :
  fst (fst (mutator n a si ce)) =
    match snd (fst (mutator n a si ce)) with
    | None => {| Nonce := Nonce si; AccessToken := a;
                 ConversionErr := ConversionErr si |}
    | Some _ => {| Nonce := Nonce si; AccessToken := AccessToken si;
                   ConversionErr := true |}
    end.
Proof. reflexivity. Qed.

Lemma mutator_conversionErr n a si ce :
  snd (fst (mutator n a si ce)) =
    match ce with
    | Some e => Some e
    | None =>
        if String.eqb n (Nonce si) then None
        else Some (Errorf
                 "IDP nonce %v did not match Pachyderm's session nonce %v"
                 [n; Nonce si])
    end.
Proof.
  unfold mutator. destruct ce; cbn; [reflexivity|].
  destruct (String.eqb n (Nonce si)); reflexivity.
Qed.

(** The mutator, run again on the record it made with the same exchange
    result, makes the same record. *)
Lemma mutator_again n a si ce :
  mutator n a (fst (fst (mutator n a si ce))) ce = mutator n a si ce.
Proof.
  unfold mutator. destruct ce as [e|]; cbn; [reflexivity|].
  destruct (String.eqb n (Nonce si)) eqn:Hn; cbn; rewrite Hn; reflexivity.
Qed.

Lemma exchange_and_commit_unfold sp fault st code state :
  exchange_and_commit sp fault st code state =
    let '(nonce, accessToken, conversionErr) := exchanged sp code state in
    let '(st', conversionErr', etcdErr) :=
      col.NewSTM fault st conversionErr
        (col.Update state (mutator nonce accessToken)) in
    {| c_store := st'; c_conversionErr := conversionErr';
       c_etcdErr := etcdErr;
       c_logs := snd (handleOIDCExchangeInternal sp code state) |}.
Proof.
  unfold exchange_and_commit, exchanged.
  destruct (handleOIDCExchangeInternal sp code state) as [[[n a] ce] logs].
  reflexivity.
Qed.

(** The conversion error the exchange returns is made of the provider's
    error only. *)
Lemma exchanged_error sp code state e :
  snd (exchanged sp code state) = Some e ->
  fst (fst (exchanged sp code state)) = ""%string /\
  snd (fst (exchanged sp code state)) = ""%string /\
  ((exists err, Exchange (Provider sp) code = inr err /\
                e = Wrapf err "failed to exchange code") \/
   e = ErrorsNew "missing id token" \/
   (exists raw err, Verify (Provider sp) raw = inr err /\
                    e = Wrapf err "could not verify token")).
Proof.
  unfold exchanged, handleOIDCExchangeInternal. cbn [fst snd].
  destruct (Exchange (Provider sp) code) as [tok|err] eqn:Hex.
  - destruct (tok_id_token tok) as [raw|].
    + destruct (Verify (Provider sp) raw) as [idNonce|err] eqn:Hv;
        cbn; intros He; [discriminate|].
      injection He as <-. repeat split. right. right. eauto.
    + cbn. intros He. injection He as <-. auto.
  - cbn. intros He. injection He as <-. repeat split. left. eauto.
Qed.

Section CommitEquations.

Variables (sp : InternalOIDCProvider) (st : Store) (code state : string).
Variables (n a : string) (ce : option error).
Hypothesis Hex : exchanged sp code state = (n, a, ce).

Let logs := snd (handleOIDCExchangeInternal sp code state).

Lemma commit_NoFault_found si :
  st !! state = Some si ->
  exchange_and_commit sp NoFault st code state =
    {| c_store := <[state := fst (fst (mutator n a si ce))]> st;
       c_conversionErr := snd (fst (mutator n a si ce));
       c_etcdErr := None; c_logs := logs |}.
Proof.
  intros Hsi. rewrite exchange_and_commit_unfold, Hex.
  unfold col.NewSTM, col.Update. rewrite Hsi. reflexivity.
Qed.

Lemma commit_FailCommit_found e si :
  st !! state = Some si ->
  exchange_and_commit sp (FailCommit e) st code state =
    {| c_store := st;
       c_conversionErr := snd (fst (mutator n a si ce));
       c_etcdErr := Some e; c_logs := logs |}.
Proof.
  intros Hsi. rewrite exchange_and_commit_unfold, Hex.
  unfold col.NewSTM, col.Update. rewrite Hsi. reflexivity.
Qed.

Lemma commit_FailBegin e :
  exchange_and_commit sp (FailBegin e) st code state =
    {| c_store := st; c_conversionErr := ce;
       c_etcdErr := Some e; c_logs := logs |}.
Proof. rewrite exchange_and_commit_unfold, Hex. reflexivity. Qed.

Lemma commit_NoFault_missing :
  st !! state = None ->
  exchange_and_commit sp NoFault st code state =
    {| c_store := st; c_conversionErr := ce;
       c_etcdErr := Some (ErrNotFound state); c_logs := logs |}.
Proof.
  intros Hsi. rewrite exchange_and_commit_unfold, Hex.
  unfold col.NewSTM, col.Update. rewrite Hsi. reflexivity.
Qed.

Lemma commit_FailCommit_missing e :
  st !! state = None ->
  exchange_and_commit sp (FailCommit e) st code state =
    {| c_store := st; c_conversionErr := ce;
       c_etcdErr := Some (ErrNotFound state); c_logs := logs |}.
Proof.
  intros Hsi. rewrite exchange_and_commit_unfold, Hex.
  unfold col.NewSTM, col.Update. rewrite Hsi. reflexivity.
Qed.

End CommitEquations.

(** The conversion error after the transaction, by cause. *)
Lemma commit_conversionErr sp fault st code state :
  c_conversionErr (exchange_and_commit sp fault st code state) =
    match fault, st !! state with
    | FailBegin _, _ | _, None => snd (exchanged sp code state)
    | _, Some si =>
        match snd (exchanged sp code state) with
        | Some e => Some e
        | None =>
            if String.eqb (fst (fst (exchanged sp code state))) (Nonce si)
            then None
            else Some (Errorf
                   "IDP nonce %v did not match Pachyderm's session nonce %v"
                   [fst (fst (exchanged sp code state)); Nonce si])
        end
    end.
Proof.
  destruct (exchanged sp code state) as [[n a] ce] eqn:Hex.
  destruct (st !! state) as [si|] eqn:Hsi; destruct fault as [|e|e].
  - rewrite (commit_NoFault_found _ _ _ _ _ _ _ Hex si Hsi).
    apply mutator_conversionErr.
  - rewrite (commit_FailBegin _ _ _ _ _ _ _ Hex). reflexivity.
  - rewrite (commit_FailCommit_found _ _ _ _ _ _ _ Hex e si Hsi).
    apply mutator_conversionErr.
  - rewrite (commit_NoFault_missing _ _ _ _ _ _ _ Hex Hsi). reflexivity.
  - rewrite (commit_FailBegin _ _ _ _ _ _ _ Hex). reflexivity.
  - rewrite (commit_FailCommit_missing _ _ _ _ _ _ _ Hex e Hsi). reflexivity.
Qed.

(** The store error after the transaction, by cause. *)
Lemma commit_etcdErr sp fault st code state :
  c_etcdErr (exchange_and_commit sp fault st code state) =
    match fault, st !! state with
    | FailBegin e, _ => Some e
    | _, None => Some (ErrNotFound state)
    | NoFault, Some _ => None
    | FailCommit e, Some _ => Some e
    end.
Proof.
  destruct (exchanged sp code state) as [[n a] ce] eqn:Hex.
  destruct (st !! state) as [si|] eqn:Hsi; destruct fault as [|e|e].
  - rewrite (commit_NoFault_found _ _ _ _ _ _ _ Hex si Hsi). reflexivity.
  - rewrite (commit_FailBegin _ _ _ _ _ _ _ Hex). reflexivity.
  - rewrite (commit_FailCommit_found _ _ _ _ _ _ _ Hex e si Hsi). reflexivity.
  - rewrite (commit_NoFault_missing _ _ _ _ _ _ _ Hex Hsi). reflexivity.
  - rewrite (commit_FailBegin _ _ _ _ _ _ _ Hex). reflexivity.
  - rewrite (commit_FailCommit_missing _ _ _ _ _ _ _ Hex e Hsi). reflexivity.
Qed.

Lemma commit_logs sp fault st code state :
  c_logs (exchange_and_commit sp fault st code state) =
    snd (handleOIDCExchangeInternal sp code state).
Proof.
  rewrite exchange_and_commit_unfold.
  destruct (exchanged sp code state) as [[n a] ce].
  destruct (col.NewSTM _ _ _ _) as [[st' ce'] ee]. reflexivity.
Qed.

(** The transaction writes the session's record or nothing. *)
Lemma commit_store_cases sp fault st code state :
  c_store (exchange_and_commit sp fault st code state) = st \/
  exists si, st !! state = Some si /\ fault = NoFault /\
    c_etcdErr (exchange_and_commit sp fault st code state) = None /\
    c_store (exchange_and_commit sp fault st code state) =
      <[state := fst (fst (mutator (fst (fst (exchanged sp code state)))
                                   (snd (fst (exchanged sp code state))) si
                                   (snd (exchanged sp code state))))]> st.
Proof.
  destruct (exchanged sp code state) as [[n a] ce] eqn:Hex.
  destruct (st !! state) as [si|] eqn:Hsi; destruct fault as [|e|e].
  - right. exists si. rewrite (commit_NoFault_found _ _ _ _ _ _ _ Hex si Hsi).
    auto.
  - left. rewrite (commit_FailBegin _ _ _ _ _ _ _ Hex). reflexivity.
  - left. rewrite (commit_FailCommit_found _ _ _ _ _ _ _ Hex e si Hsi).
    reflexivity.
  - left. rewrite (commit_NoFault_missing _ _ _ _ _ _ _ Hex Hsi). reflexivity.
  - left. rewrite (commit_FailBegin _ _ _ _ _ _ _ Hex). reflexivity.
  - left. rewrite (commit_FailCommit_missing _ _ _ _ _ _ _ Hex e Hsi).
    reflexivity.
Qed.

Lemma respond_one state ce ee :
  exists w, respond [] state ce ee = [w] /\
    w = match ce, ee with
        | Some _, _ => unauthorized_write state
        | None, Some _ => temporary_error_write state
        | None, None => success_write
        end.
Proof. destruct ce, ee; eexists; split; reflexivity. Qed.

(** The status of the response, by cause: 401 for an error of the
    exchange or a nonce that does not match, 200 when the exchange, the
    nonce and the transaction are fine, 500 when only the store fails. *)
Lemma response_status_by_cause sp fault st code state w :
  respond [] state
    (c_conversionErr (exchange_and_commit sp fault st code state))
    (c_etcdErr (exchange_and_commit sp fault st code state)) = [w] ->
  (snd (exchanged sp code state) <> None -> status_of w = 401) /\
  (forall si, st !! state = Some si -> (forall e, fault <> FailBegin e) ->
     fst (fst (exchanged sp code state)) <> Nonce si -> status_of w = 401) /\
  (forall si, snd (exchanged sp code state) = None ->
     st !! state = Some si ->
     fst (fst (exchanged sp code state)) = Nonce si ->
     (fault = NoFault -> status_of w = 200) /\
     (fault <> NoFault -> status_of w = 500)) /\
  (snd (exchanged sp code state) = None -> st !! state = None ->
     status_of w = 500).
Proof.
  rewrite commit_conversionErr, commit_etcdErr. intros Hw.
  split; [|split; [|split]].
  - intros Hce. destruct (snd (exchanged sp code state)) as [e|]; [|congruence].
    destruct fault, (st !! state); cbn in Hw; injection Hw as <-; reflexivity.
  - intros si Hsi Hfault Hn. rewrite Hsi in Hw.
    apply String.eqb_neq in Hn. rewrite Hn in Hw.
    destruct fault as [|e|e]; [| destruct (Hfault e eq_refl) |];
      destruct (snd (exchanged sp code state));
      cbn in Hw; injection Hw as <-; reflexivity.
  - intros si Hce Hsi Hn. rewrite Hce, Hsi in Hw.
    apply String.eqb_eq in Hn. rewrite Hn in Hw. split.
    + intros ->. cbn in Hw. injection Hw as <-. reflexivity.
    + intros Hf.
      destruct fault; [congruence| |]; cbn in Hw; injection Hw as <-;
        reflexivity.
  - intros Hce Hsi. rewrite Hce, Hsi in Hw.
    destruct fault; cbn in Hw; injection Hw as <-; reflexivity.
Qed.

Lemma internal_log_lines sp code state :
  snd (handleOIDCExchangeInternal sp code state) =
    [ Infof ("auth.OIDC.handleOIDCExchange { " +:+ dq +:+ "state" +:+ dq
             +:+ ": %q }") [AStr state];
      Infof ("auth.OIDC.handleOIDCExchange { " +:+ dq +:+ "state" +:+ dq
             +:+ ": %q, " +:+ dq +:+ "nonce" +:+ dq +:+ ": %q }")
            [AStr state; AStr (fst (fst (exchanged sp code state)))] ].
Proof. reflexivity. Qed.

Lemma internal_logs sp code state :
  log_args (snd (handleOIDCExchangeInternal sp code state)) =
    [AStr state; AStr state; AStr (fst (fst (exchanged sp code state)))].
Proof. reflexivity. Qed.

Lemma log_args_app l1 l2 : log_args (l1 ++ l2) = log_args l1 ++ log_args l2.
Proof. unfold log_args. apply flat_map_app. Qed.

Lemma report_args state ce ee :
  forall a, In a (log_args (report state ce ee)) ->
    a = AStr state \/ (a = AErr ce /\ ce <> None) \/ (a = AErr ee /\ ee <> None).
Proof.
  intros a. destruct ce as [e1|], ee as [e2|]; cbn; intros Ha;
    repeat (destruct Ha as [Ha|Ha]; [subst a|]); try contradiction; auto;
    solve [ right; left; split; [reflexivity|discriminate]
          | right; right; split; [reflexivity|discriminate] ].
Qed.

Lemma handleOIDCExchange_callback_query sp fault st code state out :
  handleOIDCExchange (Some sp) fault st (callback_query code state) = Ok out ->
  (out_logs out = [] /\ (state = ""%string \/ code = ""%string)) \/
  (code <> ""%string /\ state <> ""%string /\
   let c := exchange_and_commit sp fault st code state in
   out = {| out_store := c_store c;
            out_writes := respond [] state (c_conversionErr c) (c_etcdErr c);
            out_logs := c_logs c
                        ++ report state (c_conversionErr c) (c_etcdErr c) |}).
Proof.
  destruct (first_value_callback_query code state) as [Hc Hs].
  destruct (String.eqb_spec state "") as [Hst|Hst];
    [|destruct (String.eqb_spec code "") as [Hco|Hco]].
  - destruct (empty_parameter_response sp fault st _ _ _ Hc Hs (or_introl Hst))
      as (o & Ho & _ & Hl & _).
    intros Hout. rewrite Ho in Hout. injection Hout as <-. auto.
  - destruct (empty_parameter_response sp fault st _ _ _ Hc Hs (or_intror Hco))
      as (o & Ho & _ & Hl & _).
    intros Hout. rewrite Ho in Hout. injection Hout as <-. auto.
  - rewrite (handleOIDCExchange_stage _ _ _ _ _ _ Hc Hs Hco Hst).
    intros Hout. injection Hout as <-. right. auto.
Qed.

(** C1, counterexample: a second callback whose exchange succeeds, on a
    record already failed, leaves the record succeeded. *)
Lemma duplicate_callback_changes_outcome :
  ~ second_callback_keeps_outcome (idp_ok "n0" "tok") NoFault "xyz" "abc123"
      {| Nonce := "n0"; AccessToken := ""; ConversionErr := true |}.
Proof.
  intros Hkeep.
  destruct (Hkeep ltac:(discriminate) _ eq_refl) as (si' & Hsi & Hst).
  vm_compute in Hsi. injection Hsi as <-.
  vm_compute in Hst. discriminate.
Qed.

(** C1, as amended: a callback on an existing record keeps its nonce,
    keeps [ConversionErr] once set, keeps the access token unless the
    exchange succeeds with the matching nonce and the transaction commits
    (then the token is the newly exchanged one), and a callback repeated
    with the same exchange result and store behaviour leaves the store as
    the first one left it. *)
Theorem second_callback_never_clears
    (sp : InternalOIDCProvider) (fault : stm_fault) (st : Store)
    (code state : string) (si : SessionInfo) :
  st !! state = Some si ->
  let c := exchange_and_commit sp fault st code state in
  exists si',
    c_store c !! state = Some si' /\
    Nonce si' = Nonce si /\
    (ConversionErr si = true -> ConversionErr si' = true) /\
    (c_conversionErr c <> None \/ c_etcdErr c <> None ->
       AccessToken si' = AccessToken si) /\
    (c_conversionErr c = None -> c_etcdErr c = None ->
       AccessToken si' = snd (fst (exchanged sp code state))) /\
    c_store (exchange_and_commit sp fault (c_store c) code state) = c_store c.
Proof.
  intros Hsi. cbv zeta.
  destruct (exchanged sp code state) as [[n a] ce] eqn:Hex.
  destruct fault as [|e|e].
  - rewrite (commit_NoFault_found _ _ _ _ _ _ _ Hex si Hsi). cbn [c_store].
    eexists. split; [apply lookup_insert_eq|].
    rewrite (commit_NoFault_found _ _ _ _ _ _ _ Hex _ (lookup_insert_eq _ _ _)).
    cbn [c_store c_conversionErr c_etcdErr].
    rewrite mutator_again, insert_insert_eq, mutator_record.
    destruct (snd (fst (mutator n a si ce))) as [e|]; cbn.
    + split; [reflexivity|]. split; [reflexivity|].
      split; [reflexivity|]. split; [discriminate|reflexivity].
    + split; [reflexivity|]. split; [tauto|].
      split; [intros [Hne|Hne]; destruct (Hne eq_refl)|].
      split; reflexivity.
  - rewrite (commit_FailBegin _ _ _ _ _ _ _ Hex). cbn [c_store].
    rewrite (commit_FailBegin _ _ _ _ _ _ _ Hex). cbn.
    exists si.
    repeat split; intros; try reflexivity; try discriminate; try assumption.
  - rewrite (commit_FailCommit_found _ _ _ _ _ _ _ Hex e si Hsi).
    cbn [c_store].
    rewrite (commit_FailCommit_found _ _ _ _ _ _ _ Hex e si Hsi). cbn.
    exists si.
    repeat split; intros; try reflexivity; try discriminate; try assumption.
Qed.

(** C1, witness: a refused second exchange on a succeeded record. *)
Lemma second_callback_never_clears_witness :
  let si := {| Nonce := "n0"; AccessToken := "tok"; ConversionErr := false |} in
  let c := exchange_and_commit idp_refusing NoFault {[ "abc123"%string := si ]}
                               "xyz" "abc123" in
  exists si',
    c_store c !! "abc123"%string = Some si' /\
    Nonce si' = Nonce si /\
    (ConversionErr si = true -> ConversionErr si' = true) /\
    (c_conversionErr c <> None \/ c_etcdErr c <> None ->
       AccessToken si' = AccessToken si) /\
    (c_conversionErr c = None -> c_etcdErr c = None ->
       AccessToken si' = snd (fst (exchanged idp_refusing "xyz" "abc123"))) /\
    c_store (exchange_and_commit idp_refusing NoFault (c_store c) "xyz" "abc123")
      = c_store c.
Proof.
  intros si.
  apply (second_callback_never_clears idp_refusing NoFault
           {[ "abc123"%string := si ]} "xyz" "abc123" si).
  vm_compute. reflexivity.
Defined.

(** C2: a callback whose query has no [code] parameter. The handler
    indexes the parameter's values before it checks for emptiness and
    panics; it writes no 400. *)
Theorem missing_code_parameter_panics :
  handleOIDCExchange (Some (idp_ok "n0" "tok")) NoFault
    {[ "abc123"%string := pending_record "n0" ]}
    {[ "state"%string := ["abc123"%string] ]}
  = Panic "runtime error: index out of range [0] with length 0".
Proof. vm_compute. reflexivity. Qed.

(** The part of C2 the code does: a [code] or [state] parameter that is
    there and empty is answered with the one 400, and neither the
    collection nor the log is touched. *)
Theorem empty_parameter_bad_request
    (sp : InternalOIDCProvider) (fault : stm_fault) (st : Store)
    (query : gmap string (list string)) (code state : string) :
  first_value query "code" = Ok code ->
  first_value query "state" = Ok state ->
  state = ""%string \/ code = ""%string ->
  exists out w,
    handleOIDCExchange (Some sp) fault st query = Ok out /\
    out_store out = st /\ out_logs out = [] /\
    out_writes out = [w] /\ status_of w = 400.
Proof.
  intros Hc Hs Hempty.
  destruct (empty_parameter_response sp fault st query code state Hc Hs Hempty)
    as (out & Hout & Hst & Hlogs & w & Hw & Hstatus).
  exists out, w. auto.
Qed.

Lemma empty_parameter_bad_request_witness :
  exists out w,
    handleOIDCExchange (Some (idp_ok "n0" "tok")) NoFault
      {[ "abc123"%string := pending_record "n0" ]}
      (callback_query "" "abc123") = Ok out /\
    out_store out = {[ "abc123"%string := pending_record "n0" ]} /\
    out_logs out = [] /\
    out_writes out = [w] /\ status_of w = 400.
Proof.
  apply (empty_parameter_bad_request (idp_ok "n0" "tok") NoFault
           {[ "abc123"%string := pending_record "n0" ]}
           (callback_query "" "abc123") "" "abc123");
    [vm_compute; reflexivity | vm_compute; reflexivity | right; reflexivity].
Defined.

(** With no provider configured the handler answers 409 and does nothing
    else. *)
Theorem not_configured_conflict
    (fault : stm_fault) (st : Store) (query : gmap string (list string)) :
  exists out w,
    handleOIDCExchange None fault st query = Ok out /\
    out_store out = st /\ out_logs out = [] /\
    out_writes out = [w] /\ status_of w = 409.
Proof. eexists. eexists. split; [reflexivity|]. cbn. auto. Qed.

(** What the exchange returns, by what the provider answers. *)
Lemma exchanged_by_cause sp code state :
  exchanged sp code state =
    match Exchange (Provider sp) code with
    | inr err =>
        (""%string, ""%string, Some (Wrapf err "failed to exchange code"))
    | inl tok =>
        match tok_id_token tok with
        | None => (""%string, ""%string, Some (ErrorsNew "missing id token"))
        | Some raw =>
            match Verify (Provider sp) raw with
            | inr err =>
                (""%string, ""%string,
                 Some (Wrapf err "could not verify token"))
            | inl idNonce => (idNonce, tok_AccessToken tok, None)
            end
        end
    end.
Proof.
  unfold exchanged, handleOIDCExchangeInternal. cbn [fst].
  reflexivity.
Qed.

(** The response, by what the exchange returned, how the store behaves
    and what the collection holds. *)
Lemma respond_by_cause sp fault st code state :
  respond [] state
    (c_conversionErr (exchange_and_commit sp fault st code state))
    (c_etcdErr (exchange_and_commit sp fault st code state)) =
    [match snd (exchanged sp code state) with
     | Some _ => unauthorized_write state
     | None =>
         match fault, st !! state with
         | FailBegin _, _ | _, None => temporary_error_write state
         | NoFault, Some si =>
             if String.eqb (fst (fst (exchanged sp code state))) (Nonce si)
             then success_write else unauthorized_write state
         | FailCommit _, Some si =>
             if String.eqb (fst (fst (exchanged sp code state))) (Nonce si)
             then temporary_error_write state else unauthorized_write state
         end
     end].
Proof.
  rewrite commit_conversionErr, commit_etcdErr.
  destruct (snd (exchanged sp code state)) as [e|];
    destruct fault as [|e0|e0], (st !! state) as [si|]; try reflexivity;
    destruct (String.eqb _ (Nonce si)); reflexivity.
Qed.

(** C6: a callback that reaches the exchange writes exactly one
    response, decided by what happened. It is the 401 when the provider
    refuses the code, when its answer holds no ID token, when the ID
    token does not verify, and when the transaction reads a record whose
    nonce is not the assertion's. It is the success page when the
    exchange and the verification succeed, the record is there with the
    assertion's nonce, and the transaction commits. It is the 500 when
    the exchange and the verification succeed and the store fails the
    transaction before the record is read, or at the commit of a record
    with the right nonce, or has no record for the state. In terms of
    the two errors after the transaction: the success page when neither
    is set, the 401 when the conversion error is set, the 500 when only
    the store error is. *)
Theorem exactly_one_response
    (sp : InternalOIDCProvider) (fault : stm_fault) (st : Store)
    (query : gmap string (list string)) (code state : string) :
  first_value query "code" = Ok code ->
  first_value query "state" = Ok state ->
  code <> ""%string -> state <> ""%string ->
  exists out w,
    handleOIDCExchange (Some sp) fault st query = Ok out /\
    out_writes out = [w] /\
    (let c := exchange_and_commit sp fault st code state in
     (c_conversionErr c = None -> c_etcdErr c = None ->
        w = success_write /\ status_of w = 200) /\
     (c_conversionErr c <> None ->
        w = unauthorized_write state /\ status_of w = 401) /\
     (c_conversionErr c = None -> c_etcdErr c <> None ->
        w = temporary_error_write state /\ status_of w = 500)) /\
    (forall err, Exchange (Provider sp) code = inr err ->
       w = unauthorized_write state /\ status_of w = 401) /\
    (forall tok, Exchange (Provider sp) code = inl tok ->
       tok_id_token tok = None ->
       w = unauthorized_write state /\ status_of w = 401) /\
    (forall tok raw err, Exchange (Provider sp) code = inl tok ->
       tok_id_token tok = Some raw -> Verify (Provider sp) raw = inr err ->
       w = unauthorized_write state /\ status_of w = 401) /\
    (forall tok raw idNonce, Exchange (Provider sp) code = inl tok ->
       tok_id_token tok = Some raw -> Verify (Provider sp) raw = inl idNonce ->
       match fault, st !! state with
       | FailBegin _, _ | _, None =>
           w = temporary_error_write state /\ status_of w = 500
       | NoFault, Some si =>
           if String.eqb idNonce (Nonce si)
           then w = success_write /\ status_of w = 200
           else w = unauthorized_write state /\ status_of w = 401
       | FailCommit _, Some si =>
           if String.eqb idNonce (Nonce si)
           then w = temporary_error_write state /\ status_of w = 500
           else w = unauthorized_write state /\ status_of w = 401
       end).
Proof.
  intros Hc Hs Hcode Hstate.
  rewrite (handleOIDCExchange_stage _ _ _ _ _ _ Hc Hs Hcode Hstate).
  cbv zeta.
  destruct (respond_one state
              (c_conversionErr (exchange_and_commit sp fault st code state))
              (c_etcdErr (exchange_and_commit sp fault st code state)))
    as (w & Hw & Hcase).
  pose proof (respond_by_cause sp fault st code state) as Hcause.
  rewrite Hw in Hcause. injection Hcause as Hcause.
  rewrite exchanged_by_cause in Hcause.
  eexists. exists w. split; [reflexivity|]. cbn [out_writes].
  split; [exact Hw|].
  split; [|split; [|split; [|split]]].
  - destruct (c_conversionErr _) as [ce|], (c_etcdErr _) as [ee|]; subst w;
      repeat split; intros; try reflexivity; try discriminate; congruence.
  - intros err Hex. rewrite Hex in Hcause. cbn [snd] in Hcause.
    rewrite Hcause. split; reflexivity.
  - intros tok Hex Hid. rewrite Hex, Hid in Hcause. cbn [snd] in Hcause.
    rewrite Hcause. split; reflexivity.
  - intros tok raw err Hex Hid Hv. rewrite Hex, Hid, Hv in Hcause.
    cbn [snd] in Hcause. rewrite Hcause. split; reflexivity.
  - intros tok raw idNonce Hex Hid Hv. rewrite Hex, Hid, Hv in Hcause.
    cbn [fst snd] in Hcause. rewrite Hcause.
    destruct fault as [|e0|e0], (st !! state) as [si|];
      try (split; reflexivity);
      destruct (String.eqb idNonce (Nonce si)); split; reflexivity.
Qed.

(** C6, witness: a successful callback gets the success page, and one
    whose assertion holds another nonce gets the 401. *)
Lemma exactly_one_response_witness :
  (exists out,
     handleOIDCExchange (Some (idp_ok "n0" "tok")) NoFault
       {[ "abc123"%string := pending_record "n0" ]}
       (callback_query "xyz" "abc123") = Ok out /\
     out_writes out = [success_write]) /\
  (exists out,
     handleOIDCExchange (Some (idp_ok "n1" "tok")) NoFault
       {[ "abc123"%string := pending_record "n0" ]}
       (callback_query "xyz" "abc123") = Ok out /\
     out_writes out = [unauthorized_write "abc123"]).
Proof.
  split.
  - destruct (exactly_one_response (idp_ok "n0" "tok") NoFault
                {[ "abc123"%string := pending_record "n0" ]}
                (callback_query "xyz" "abc123") "xyz" "abc123")
      as (out & w & Hout & Hw & _ & _ & _ & _ & Hcause);
      try solve [ vm_compute; reflexivity | discriminate ].
    exists out. split; [exact Hout|]. rewrite Hw. f_equal.
    exact (proj1 (Hcause _ "raw"%string "n0"%string eq_refl eq_refl eq_refl)).
  - destruct (exactly_one_response (idp_ok "n1" "tok") NoFault
                {[ "abc123"%string := pending_record "n0" ]}
                (callback_query "xyz" "abc123") "xyz" "abc123")
      as (out & w & Hout & Hw & _ & _ & _ & _ & Hcause);
      try solve [ vm_compute; reflexivity | discriminate ].
    exists out. split; [exact Hout|]. rewrite Hw. f_equal.
    exact (proj1 (Hcause _ "raw"%string "n1"%string eq_refl eq_refl eq_refl)).
Defined.

(** C8: what a callback that reaches the exchange logs. The log holds
    the two lines of the exchange, the first with the state and the
    second with the state and the assertion's nonce, then a line with
    the state and the conversion error when there is one, then a line
    with the state and the store error when there is one, and nothing
    else. The errors are there by cause: the provider's error, wrapped,
    when it refuses the code or the ID token does not verify, the
    missing-token error, the nonce mismatch naming the two nonces when
    the transaction reads the record, and the store's error. So the
    arguments of the log lines are the state, the nonce and the two
    errors only, and two callbacks that differ in the authorization
    code and in the access token the provider issued, but not in the
    nonce and the error of the exchange, leave the same log lines and
    the same response. *)
Theorem callback_logs_hold_no_credential
    (sp1 sp2 : InternalOIDCProvider) (fault : stm_fault) (st : Store)
    (code1 code2 state : string) (out1 out2 : HandlerOut) :
  code1 <> ""%string -> code2 <> ""%string -> state <> ""%string ->
  handleOIDCExchange (Some sp1) fault st (callback_query code1 state) = Ok out1 ->
  handleOIDCExchange (Some sp2) fault st (callback_query code2 state) = Ok out2 ->
  let c1 := exchange_and_commit sp1 fault st code1 state in
  let nonce1 := fst (fst (exchanged sp1 code1 state)) in
  (forall a, In a (log_args (out_logs out1)) ->
     a = AStr state \/ a = AStr nonce1 \/
     a = AErr (c_conversionErr c1) \/ a = AErr (c_etcdErr c1)) /\
  (forall e, c_conversionErr c1 = Some e ->
     (exists err, Exchange (Provider sp1) code1 = inr err /\
                  e = Wrapf err "failed to exchange code") \/
     e = ErrorsNew "missing id token" \/
     (exists raw err, Verify (Provider sp1) raw = inr err /\
                      e = Wrapf err "could not verify token") \/
     (exists si, st !! state = Some si /\
        e = Errorf "IDP nonce %v did not match Pachyderm's session nonce %v"
                   [nonce1; Nonce si])) /\
  (nonce1 = fst (fst (exchanged sp2 code2 state)) ->
   snd (exchanged sp1 code1 state) = snd (exchanged sp2 code2 state) ->
   out_logs out1 = out_logs out2 /\ out_writes out1 = out_writes out2) /\
  out_logs out1 =
    [ Infof ("auth.OIDC.handleOIDCExchange { " +:+ dq +:+ "state" +:+ dq
             +:+ ": %q }") [AStr state];
      Infof ("auth.OIDC.handleOIDCExchange { " +:+ dq +:+ "state" +:+ dq
             +:+ ": %q, " +:+ dq +:+ "nonce" +:+ dq +:+ ": %q }")
            [AStr state; AStr nonce1] ]
    ++ match c_conversionErr c1 with
       | Some e =>
           [Errorf_log
              "could not convert authorization code (OIDC state: %q) %v"
              [AStr state; AErr (Some e)]]
       | None => []
       end
    ++ match c_etcdErr c1 with
       | Some e =>
           [Errorf_log
              "error storing OIDC authorization code in etcd (OIDC state: %q): %v"
              [AStr state; AErr (Some e)]]
       | None => []
       end /\
  (forall err, Exchange (Provider sp1) code1 = inr err ->
     c_conversionErr c1 = Some (Wrapf err "failed to exchange code")) /\
  (forall tok, Exchange (Provider sp1) code1 = inl tok ->
     tok_id_token tok = None ->
     c_conversionErr c1 = Some (ErrorsNew "missing id token")) /\
  (forall tok raw err, Exchange (Provider sp1) code1 = inl tok ->
     tok_id_token tok = Some raw -> Verify (Provider sp1) raw = inr err ->
     c_conversionErr c1 = Some (Wrapf err "could not verify token")) /\
  (forall tok raw idNonce si, Exchange (Provider sp1) code1 = inl tok ->
     tok_id_token tok = Some raw -> Verify (Provider sp1) raw = inl idNonce ->
     nonce1 = idNonce /\
     (st !! state = Some si -> (forall e, fault <> FailBegin e) ->
      idNonce <> Nonce si ->
      c_conversionErr c1 =
        Some (Errorf "IDP nonce %v did not match Pachyderm's session nonce %v"
                     [idNonce; Nonce si]))) /\
  c_etcdErr c1 =
    match fault, st !! state with
    | FailBegin e, _ => Some e
    | _, None => Some (ErrNotFound state)
    | NoFault, Some _ => None
    | FailCommit e, Some _ => Some e
    end.
Proof.
  intros Hc1 Hc2 Hst H1 H2 c1 nonce1. subst c1 nonce1.
  apply handleOIDCExchange_callback_query in H1, H2.
  destruct H1 as [[_ [Hs|Hc]]|(_ & _ & H1)]; try contradiction.
  destruct H2 as [[_ [Hs|Hc]]|(_ & _ & H2)]; try contradiction.
  cbv zeta in H1, H2. subst out1 out2. cbn [out_logs out_writes].
  split; [|split; [|split; [|split; [|split; [|split; [|split; [|split]]]]]]].
  - intros a Ha. rewrite log_args_app in Ha. apply in_app_or in Ha.
    destruct Ha as [Ha|Ha].
    + rewrite commit_logs, internal_logs in Ha. cbn in Ha.
      intuition (subst; auto).
    + apply report_args in Ha. intuition (subst; auto).
  - intros e. rewrite commit_conversionErr.
    assert (Hexch : forall e', snd (exchanged sp1 code1 state) = Some e' ->
              (exists err, Exchange (Provider sp1) code1 = inr err /\
                           e' = Wrapf err "failed to exchange code") \/
              e' = ErrorsNew "missing id token" \/
              (exists raw err, Verify (Provider sp1) raw = inr err /\
                               e' = Wrapf err "could not verify token")).
    { intros e' He'. apply (exchanged_error _ _ _ _ He'). }
    destruct fault as [|e0|e0], (st !! state) as [si|] eqn:Hsi;
      try (intros He; destruct (Hexch e He) as [?|[?|?]]; auto; fail).
    all: destruct (snd (exchanged sp1 code1 state)) as [e'|] eqn:Hce;
      [ intros He; injection He as <-;
        destruct (Hexch e' eq_refl) as [?|[?|?]]; auto
      | destruct (String.eqb _ (Nonce si)); [discriminate|];
        intros He; injection He as <-; right; right; right; eauto ].
  - intros Hn He.
    rewrite !commit_logs, !internal_log_lines, !commit_conversionErr,
            !commit_etcdErr, Hn, He.
    split; reflexivity.
  - rewrite commit_logs, internal_log_lines. unfold report.
    reflexivity.
  - intros err Hex. rewrite commit_conversionErr, exchanged_by_cause, Hex.
    cbn [fst snd]. destruct fault, (st !! state); reflexivity.
  - intros tok Hex Hid.
    rewrite commit_conversionErr, exchanged_by_cause, Hex, Hid.
    cbn [fst snd]. destruct fault, (st !! state); reflexivity.
  - intros tok raw err Hex Hid Hv.
    rewrite commit_conversionErr, exchanged_by_cause, Hex, Hid, Hv.
    cbn [fst snd]. destruct fault, (st !! state); reflexivity.
  - intros tok raw idNonce si Hex Hid Hv.
    rewrite commit_conversionErr, exchanged_by_cause, Hex, Hid, Hv.
    cbn [fst snd]. split; [reflexivity|].
    intros Hsi Hfault Hn. rewrite Hsi.
    apply String.eqb_neq in Hn. rewrite Hn.
    destruct fault as [|e0|e0]; [reflexivity| |reflexivity].
    destruct (Hfault e0 eq_refl).
  - apply commit_etcdErr.
Qed.

(** C8, witness: two callbacks with different codes and access tokens
    leave the same two log lines, which hold the state and the nonce. *)
Lemma callback_logs_hold_no_credential_witness :
  exists out1 out2,
    handleOIDCExchange (Some (idp_ok "n0" "tok-A")) NoFault
      {[ "abc123"%string := pending_record "n0" ]}
      (callback_query "code-A" "abc123") = Ok out1 /\
    handleOIDCExchange (Some (idp_ok "n0" "tok-B")) NoFault
      {[ "abc123"%string := pending_record "n0" ]}
      (callback_query "code-B" "abc123") = Ok out2 /\
    out_logs out1 = out_logs out2 /\ out_writes out1 = out_writes out2 /\
    log_args (out_logs out1)
      = [AStr "abc123"; AStr "abc123"; AStr "n0"].
Proof.
  eexists. eexists. split; [reflexivity|]. split; [reflexivity|].
  destruct (callback_logs_hold_no_credential
              (idp_ok "n0" "tok-A") (idp_ok "n0" "tok-B") NoFault
              {[ "abc123"%string := pending_record "n0" ]}
              "code-A" "code-B" "abc123" _ _
              ltac:(discriminate) ltac:(discriminate) ltac:(discriminate)
              eq_refl eq_refl)
    as (_ & _ & Hsame & Hlines & _).
  destruct (Hsame eq_refl eq_refl) as [Hlogs Hwrites].
  split; [exact Hlogs|]. split; [exact Hwrites|].
  rewrite Hlines. reflexivity.
Defined.

(** C9: with both the conversion error and the store error set, the one
    response is the 401, and each error has its own log line. *)
Theorem conversion_error_takes_precedence
    (sp : InternalOIDCProvider) (fault : stm_fault) (st : Store)
    (query : gmap string (list string)) (code state : string)
    (ce ee : error) :
  first_value query "code" = Ok code ->
  first_value query "state" = Ok state ->
  code <> ""%string -> state <> ""%string ->
  c_conversionErr (exchange_and_commit sp fault st code state) = Some ce ->
  c_etcdErr (exchange_and_commit sp fault st code state) = Some ee ->
  exists out,
    handleOIDCExchange (Some sp) fault st query = Ok out /\
    out_writes out = [unauthorized_write state] /\
    In (Errorf_log "could not convert authorization code (OIDC state: %q) %v"
                   [AStr state; AErr (Some ce)]) (out_logs out) /\
    In (Errorf_log
          "error storing OIDC authorization code in etcd (OIDC state: %q): %v"
          [AStr state; AErr (Some ee)]) (out_logs out).
Proof.
  intros Hc Hs Hcode Hstate Hce Hee.
  rewrite (handleOIDCExchange_stage _ _ _ _ _ _ Hc Hs Hcode Hstate).
  cbv zeta. rewrite Hce, Hee.
  eexists. split; [reflexivity|]. cbn [out_writes out_logs].
  split; [reflexivity|].
  split; apply in_or_app; right; cbn; auto.
Qed.

(** C9, witness: a nonce mismatch in a transaction that fails to commit. *)
Lemma conversion_error_takes_precedence_witness :
  exists out,
    handleOIDCExchange (Some (idp_ok "n1" "tok"))
      (FailCommit (External "etcdserver: request timed out"))
      {[ "abc123"%string := pending_record "n0" ]}
      (callback_query "xyz" "abc123") = Ok out /\
    out_writes out = [unauthorized_write "abc123"] /\
    In (Errorf_log "could not convert authorization code (OIDC state: %q) %v"
          [AStr "abc123";
           AErr (Some (Errorf
                   "IDP nonce %v did not match Pachyderm's session nonce %v"
                   ["n1"%string; "n0"%string]))]) (out_logs out) /\
    In (Errorf_log
          "error storing OIDC authorization code in etcd (OIDC state: %q): %v"
          [AStr "abc123";
           AErr (Some (External "etcdserver: request timed out"))])
       (out_logs out).
Proof.
  apply (conversion_error_takes_precedence (idp_ok "n1" "tok")
           (FailCommit (External "etcdserver: request timed out"))
           {[ "abc123"%string := pending_record "n0" ]}
           (callback_query "xyz" "abc123") "xyz" "abc123");
    solve [ vm_compute; reflexivity | discriminate ].
Defined.

(* ===================================================================== *)
(** ** The waiter *)
(* ===================================================================== *)

Section WaiterFacts.

Variable Unmarshal : list byte -> errorable SessionInfo.
Variable state : string.

(** Update events of a pending record are logged and skipped. *)
Lemma watch_loop_pending es : forall c tok,
  forallb (pending_put Unmarshal) es = true ->
  watch_loop Unmarshal (chan_app es c) tok =
    let '(r, tok', t) := watch_loop Unmarshal c tok in
    (r, tok', repeat unset_log (length es) ++ t).
Proof.
  induction es as [|e es IH]; intros c tok Hall.
  - cbn. destruct (watch_loop Unmarshal c tok) as [[r tok'] t]. reflexivity.
  - cbn in Hall. apply andb_true_iff in Hall as [He Hall].
    cbn [chan_app watch_loop]. unfold pending_put in He.
    destruct (Type_ e); try discriminate.
    destruct (Unmarshal (Value e)) as [si|err]; try discriminate.
    apply andb_true_iff in He as [Htok Hconv].
    rewrite Htok. cbn [negb].
    apply negb_true_iff in Hconv. rewrite Hconv.
    rewrite (IH c tok Hall).
    destruct (watch_loop Unmarshal c tok) as [[r tok'] t]. reflexivity.
Qed.

(** The loop's result and trace do not depend on the captured token,
    and an error leaves the token as it was. *)
Lemma watch_loop_token c : forall tok,
  fst (fst (watch_loop Unmarshal c tok))
    = fst (fst (watch_loop Unmarshal c "")) /\
  snd (watch_loop Unmarshal c tok) = snd (watch_loop Unmarshal c "") /\
  (forall err, fst (fst (watch_loop Unmarshal c tok)) = Returned (Some err) ->
               snd (fst (watch_loop Unmarshal c tok)) = tok).
Proof.
  induction c as [| |e rest IH]; intros tok; cbn [watch_loop].
  - cbn. repeat split; intros; auto; discriminate.
  - cbn. repeat split; intros; auto; discriminate.
  - destruct (Type_ e);
      try (cbn; repeat split; intros; auto; discriminate).
    destruct (Unmarshal (Value e)) as [si|err];
      [|cbn; repeat split; intros; auto; discriminate].
    destruct (negb (String.eqb (AccessToken si) ""));
      [cbn; repeat split; intros; auto; discriminate|].
    destruct (ConversionErr si);
      [cbn; repeat split; intros; auto; discriminate|].
    destruct (IH tok) as (H1 & H2 & H3).
    destruct (watch_loop Unmarshal rest tok) as [[r t'] tr].
    destruct (watch_loop Unmarshal rest "") as [[r0 t0] tr0].
    cbn in *. subst. repeat split; auto.
Qed.

Lemma watch_loop_trace c : forall tok,
  watch_count (snd (watch_loop Unmarshal c tok)) = 0%nat.
Proof.
  induction c as [| |e rest IH]; intros tok; cbn [watch_loop];
    try reflexivity.
  destruct (Type_ e); try reflexivity.
  destruct (Unmarshal (Value e)) as [si|err]; [|reflexivity].
  destruct (negb (String.eqb (AccessToken si) "")); [reflexivity|].
  destruct (ConversionErr si); [reflexivity|].
  specialize (IH tok).
  destruct (watch_loop Unmarshal rest tok) as [[r t'] tr]. exact IH.
Qed.

Lemma watch_count_app t1 t2 :
  watch_count (t1 ++ t2) = (watch_count t1 + watch_count t2)%nat.
Proof. unfold watch_count. rewrite List.filter_app, length_app. reflexivity. Qed.

Lemma operation_watch_count watches k tok :
  watch_count (snd (operation Unmarshal state watches k tok)) = 1%nat.
Proof.
  unfold operation. destruct (watches k) as [e|c]; [reflexivity|].
  pose proof (watch_loop_trace c tok) as Ht.
  destruct (watch_loop Unmarshal c tok) as [[r t'] tr].
  destruct r; cbn [snd] in *.
  - change (EWatchOne state :: tr ++ [EClose])
      with ([EWatchOne state] ++ tr ++ [EClose]).
    rewrite !watch_count_app, Ht. reflexivity.
  - change (EWatchOne state :: tr) with ([EWatchOne state] ++ tr).
    rewrite watch_count_app, Ht. reflexivity.
Qed.

Lemma notify_watch_count err d :
  watch_count (snd (notify state err d)) = 0%nat.
Proof. reflexivity. Qed.

Lemma notify_stops err d :
  fst (notify state err d) = if stops_retry err then Some err else None.
Proof. reflexivity. Qed.

End WaiterFacts.

Section RetryFacts.

Context {C : Type}.
Variable op : nat -> C -> outcome (option error) * C * list effect.
Variable nfy : error -> Duration -> option error * list effect.

Lemma RetryNotify_success b k s s' t :
  op k s = (Returned None, s', t) ->
  backoff.RetryNotify op b nfy k s = (Returned None, s', t).
Proof. intros H. destruct b; cbn; rewrite H; reflexivity. Qed.

Lemma RetryNotify_hang b k s s' t :
  op k s = (Hang, s', t) ->
  backoff.RetryNotify op b nfy k s = (Hang, s', t).
Proof. intros H. destruct b; cbn; rewrite H; reflexivity. Qed.

Lemma RetryNotify_exhausted k s s' t err :
  op k s = (Returned (Some err), s', t) ->
  backoff.RetryNotify op [] nfy k s = (Returned (Some err), s', t).
Proof. intros H. cbn. rewrite H. reflexivity. Qed.

Lemma RetryNotify_stop next b k s s' t err e tn :
  op k s = (Returned (Some err), s', t) ->
  nfy err next = (Some e, tn) ->
  backoff.RetryNotify op (next :: b) nfy k s
    = (Returned (Some e), s', t ++ tn).
Proof. intros H Hn. cbn. rewrite H, Hn. reflexivity. Qed.

Lemma RetryNotify_retry next b k s s' t err tn :
  op k s = (Returned (Some err), s', t) ->
  nfy err next = (None, tn) ->
  backoff.RetryNotify op (next :: b) nfy k s =
    let '(r2, s2, t2) := backoff.RetryNotify op b nfy (S k) s' in
    (r2, s2, t ++ tn ++ [ESleep next] ++ t2).
Proof. intros H Hn. cbn [backoff.RetryNotify]. rewrite H, Hn. reflexivity. Qed.

Lemma RetryNotify_shift b : forall k s,
  backoff.RetryNotify (fun i => op (S i)) b nfy k s
    = backoff.RetryNotify op b nfy (S k) s.
Proof.
  induction b as [|next b IH]; intros k s; cbn [backoff.RetryNotify].
  - reflexivity.
  - destruct (op (S k) s) as [[r s'] t]. destruct r as [[err|]|]; try reflexivity.
    destruct (nfy err next) as [[e|] tn]; [reflexivity|].
    rewrite IH. reflexivity.
Qed.

End RetryFacts.

Section ResolveFacts.

Variable Unmarshal : list byte -> errorable SessionInfo.
Variable state : string.
Variable watches : nat -> watch_attempt.

Lemma operation_established k c tok r tok' t :
  watches k = Watching c ->
  watch_loop Unmarshal c tok = (Returned r, tok', t) ->
  operation Unmarshal state watches k tok
    = (Returned r, tok', EWatchOne state :: t ++ [EClose]).
Proof. intros Hw Hl. unfold operation. rewrite Hw, Hl. reflexivity. Qed.

Lemma operation_transient k :
  transient_attempt Unmarshal (watches k) = true ->
  exists err t,
    operation Unmarshal state watches k ""
      = (Returned (Some err), ""%string, EWatchOne state :: t ++ [EClose]) /\
    stops_retry err = false.
Proof.
  unfold transient_attempt. destruct (watches k) as [e|c] eqn:Hw;
    [discriminate|].
  destruct (watch_loop_token Unmarshal c "") as (_ & _ & Htok).
  destruct (watch_loop Unmarshal c "") as [[r tok'] t] eqn:Hl.
  cbn [fst snd] in *. destruct r as [[err|]|]; try discriminate.
  intros Hs. apply negb_true_iff in Hs.
  rewrite (Htok err eq_refl) in Hl.
  exists err, t. split; [|exact Hs].
  apply (operation_established k c _ _ _ _ Hw Hl).
Qed.

Lemma operation_delete k es e rest tok :
  watches k = Watching (chan_app es (ChanRecv e rest)) ->
  forallb (pending_put Unmarshal) es = true ->
  Type_ e = EventDelete ->
  operation Unmarshal state watches k tok
    = (Returned (Some tokenDeleted), tok,
       EWatchOne state :: repeat unset_log (length es) ++ [EClose]).
Proof.
  intros Hw Hes He.
  rewrite (operation_established k _ tok (Some tokenDeleted) tok
             (repeat unset_log (length es)) Hw); [reflexivity|].
  rewrite (watch_loop_pending _ es _ _ Hes). cbn [watch_loop].
  rewrite He, app_nil_r. reflexivity.
Qed.

Lemma operation_error_event k es e err rest tok :
  watches k = Watching (chan_app es (ChanRecv e rest)) ->
  forallb (pending_put Unmarshal) es = true ->
  Type_ e = EventError -> Err e = Some err ->
  operation Unmarshal state watches k tok
    = (Returned (Some err), tok,
       EWatchOne state :: repeat unset_log (length es) ++ [EClose]).
Proof.
  intros Hw Hes He Herr.
  rewrite (operation_established k _ tok (Some err) tok
             (repeat unset_log (length es)) Hw); [reflexivity|].
  rewrite (watch_loop_pending _ es _ _ Hes). cbn [watch_loop].
  rewrite He, Herr, app_nil_r. reflexivity.
Qed.

Lemma operation_closed k es tok :
  watches k = Watching (chan_app es ChanClosed) ->
  forallb (pending_put Unmarshal) es = true ->
  operation Unmarshal state watches k tok
    = (Returned None, tok,
       EWatchOne state :: repeat unset_log (length es) ++ [EClose]).
Proof.
  intros Hw Hes.
  rewrite (operation_established k _ tok None tok
             (repeat unset_log (length es)) Hw); [reflexivity|].
  rewrite (watch_loop_pending _ es _ _ Hes). cbn [watch_loop].
  rewrite app_nil_r. reflexivity.
Qed.

Lemma operation_terminal_put k es e si rest tok :
  watches k = Watching (chan_app es (ChanRecv e rest)) ->
  forallb (pending_put Unmarshal) es = true ->
  Type_ e = EventPut -> Unmarshal (Value e) = inl si ->
  operation Unmarshal state watches k tok =
    match state_of si with
    | Succeeded a =>
        (Returned None, a,
         EWatchOne state :: repeat unset_log (length es) ++ [EClose])
    | Failed =>
        (Returned (Some authFailed), tok,
         EWatchOne state :: repeat unset_log (length es) ++ [EClose])
    | Pending =>
        operation Unmarshal state watches k tok
    end.
Proof.
  intros Hw Hes He Hsi. unfold state_of.
  destruct (negb (String.eqb (AccessToken si) "")) eqn:Htok;
    [|destruct (ConversionErr si) eqn:Hce; [|reflexivity]].
  - rewrite (operation_established k _ tok None (AccessToken si)
               (repeat unset_log (length es)) Hw); [reflexivity|].
    rewrite (watch_loop_pending _ es _ _ Hes). cbn [watch_loop].
    rewrite He, Hsi, Htok, app_nil_r. reflexivity.
  - rewrite (operation_established k _ tok (Some authFailed) tok
               (repeat unset_log (length es)) Hw); [reflexivity|].
    rewrite (watch_loop_pending _ es _ _ Hes). cbn [watch_loop].
    rewrite He, Hsi, Htok, Hce, app_nil_r. reflexivity.
Qed.

(** After [k] retried attempts, a delete event ends the loop. *)
Lemma retry_until_delete es e rest k : forall j b,
  (forall i, (i < k)%nat ->
     transient_attempt Unmarshal (watches (j + i)) = true) ->
  (k <= length b)%nat ->
  watches (j + k) = Watching (chan_app es (ChanRecv e rest)) ->
  forallb (pending_put Unmarshal) es = true ->
  Type_ e = EventDelete ->
  exists t,
    backoff.RetryNotify (operation Unmarshal state watches) b
                        (notify state) j ""
      = (Returned (Some tokenDeleted), ""%string, t) /\
    watch_count t = S k.
Proof.
  induction k as [|k IH]; intros j b Htr Hb Hw Hes He.
  - rewrite Nat.add_0_r in Hw.
    pose proof (operation_delete j es e rest "" Hw Hes He) as Hop.
    pose proof (operation_watch_count Unmarshal state watches j "") as Hc.
    rewrite Hop in Hc. cbn [snd] in Hc.
    destruct b as [|next b].
    + eexists. split; [apply (RetryNotify_exhausted _ _ _ _ _ _ _ Hop)|].
      exact Hc.
    + eexists. split;
        [apply (RetryNotify_stop _ _ _ _ _ _ _ _ _ _ _ Hop eq_refl)|].
      rewrite watch_count_app, Hc. reflexivity.
  - destruct b as [|next b]; [cbn in Hb; lia|]. cbn in Hb.
    destruct (operation_transient j) as (err & t & Hop & Hstop).
    { rewrite <- (Nat.add_0_r j). apply Htr. lia. }
    destruct (IH (S j) b) as (t2 & Hrec & Hcount); auto; try lia.
    { intros i Hi. replace (S j + i)%nat with (j + S i)%nat by lia.
      apply Htr. lia. }
    { replace (S j + k)%nat with (j + S k)%nat by lia. exact Hw. }
    rewrite (RetryNotify_retry _ _ next b j "" "" _ err
               (snd (notify state err next)) Hop).
    2:{ unfold notify. fold (stops_retry err). rewrite Hstop. reflexivity. }
    pose proof (operation_watch_count Unmarshal state watches j "") as Hc.
    rewrite Hop in Hc. cbn [snd] in Hc.
    rewrite Hrec. eexists. split; [reflexivity|].
    rewrite !watch_count_app, Hcount, Hc. reflexivity.
Qed.

End ResolveFacts.

Lemma OIDCStateToEmail_of_retry Unmarshal o watches b state r tok t :
  backoff.RetryNotify (operation Unmarshal state watches) b (notify state)
                      0%nat ""%string = (r, tok, t) ->
  OIDCStateToEmail Unmarshal o watches b state =
    match r with
    | Hang => (Hang, t)
    | Returned (Some err) =>
        (Returned (""%string, Some err),
         t ++ [converted_log state "" (Some err)])
    | Returned None =>
        match UserInfo (Provider o) tok with
        | inr err =>
            (Returned (""%string, Some err),
             t ++ [EUserInfo tok; converted_log state "" (Some err)])
        | inl email =>
            (Returned (email, None),
             t ++ [EUserInfo tok;
                   ELog (Infof "recovered user info with email: '%v'"
                               [AStr email]);
                   converted_log state email None])
        end
    end.
Proof. intros Hrun. unfold OIDCStateToEmail. rewrite Hrun. reflexivity. Qed.

Lemma OIDCStateToEmail_error Unmarshal o watches b state tok t err :
  backoff.RetryNotify (operation Unmarshal state watches) b (notify state)
                      0%nat ""%string = (Returned (Some err), tok, t) ->
  fst (OIDCStateToEmail Unmarshal o watches b state)
    = Returned (""%string, Some err) /\
  watch_count (snd (OIDCStateToEmail Unmarshal o watches b state))
    = watch_count t.
Proof.
  intros Hrun. rewrite (OIDCStateToEmail_of_retry _ o _ _ _ _ _ _ Hrun).
  cbn [fst snd]. rewrite watch_count_app, Nat.add_0_r. auto.
Qed.

(** C4, counterexample: the first [WatchOne] fails and a second one
    would deliver the succeeded record, with an interval left in the
    policy; the waiter returns [watchFailed] and does not watch again. *)
Lemma watch_failure_not_retried_example :
  ~ watch_failure_retried sample_Unmarshal (idp_ok "n0" "tok")
      watches_fail_then_succeed 500 [] "abc123".
Proof.
  intros Hretry. specialize (Hretry _ eq_refl).
  vm_compute in Hretry. discriminate.
Qed.

(** C4, as amended: an error event on an established watch, with an
    interval left in the policy, closes the watch, sleeps and watches
    again, and the waiter's result is that of the remaining attempts; a
    [WatchOne] that fails makes the waiter return [watchFailed] after that
    one attempt; with no interval left the event's error is returned. *)
Theorem watch_error_event_retried
    (Unmarshal : list byte -> errorable SessionInfo)
    (o : InternalOIDCProvider) (watches : nat -> watch_attempt)
    (b : list Duration) (state : string) :
  (forall es e err rest next b',
     b = next :: b' ->
     watches 0%nat = Watching (chan_app es (ChanRecv e rest)) ->
     forallb (pending_put Unmarshal) es = true ->
     Type_ e = EventError -> Err e = Some err -> stops_retry err = false ->
     OIDCStateToEmail Unmarshal o watches b state =
       let '(r, t) :=
         OIDCStateToEmail Unmarshal o (fun k => watches (S k)) b' state in
       (r, EWatchOne state :: repeat unset_log (length es) ++ [EClose]
           ++ snd (notify state err next) ++ [ESleep next] ++ t)) /\
  (forall e0,
     watches 0%nat = WatchErr e0 ->
     fst (OIDCStateToEmail Unmarshal o watches b state)
       = Returned (""%string, Some watchFailed) /\
     watch_count (snd (OIDCStateToEmail Unmarshal o watches b state)) = 1%nat) /\
  (forall es e err rest,
     b = [] ->
     watches 0%nat = Watching (chan_app es (ChanRecv e rest)) ->
     forallb (pending_put Unmarshal) es = true ->
     Type_ e = EventError -> Err e = Some err ->
     fst (OIDCStateToEmail Unmarshal o watches b state)
       = Returned (""%string, Some err)).
Proof.
  split; [|split].
  - intros es e err rest next b' -> Hw Hes He Herr Hstop.
    pose proof (operation_error_event Unmarshal state watches 0 es e err rest
                  "" Hw Hes He Herr) as Hop.
    unfold OIDCStateToEmail at 1.
    rewrite (RetryNotify_retry _ _ next b' 0%nat "" "" _ err
               (snd (notify state err next)) Hop).
    2:{ unfold notify. fold (stops_retry err). rewrite Hstop. reflexivity. }
    unfold OIDCStateToEmail.
    rewrite (RetryNotify_shift (operation Unmarshal state watches)).
    destruct (backoff.RetryNotify _ b' _ 1%nat "") as [[r tok] t].
    destruct r as [[e1|]|]; [| |cbn; rewrite <- !app_assoc; reflexivity].
    + cbn. rewrite <- !app_assoc. reflexivity.
    + destruct (UserInfo (Provider o) tok); cbn; rewrite <- !app_assoc;
        reflexivity.
  - intros e0 Hw.
    assert (Hop : operation Unmarshal state watches 0 "" =
              (Returned (Some watchFailed), ""%string,
               [EWatchOne state;
                ELog (Errorf_log
                  "error watching OIDC state token %q during authorization: %v"
                  [AStr state; AErr (Some e0)])])).
    { unfold operation. rewrite Hw. reflexivity. }
    destruct b as [|next b'].
    + destruct (OIDCStateToEmail_error _ o _ _ _ _ _ _
                  (RetryNotify_exhausted _ (notify state) _ _ _ _ _ Hop))
        as [Hres Hc].
      split; [exact Hres | rewrite Hc; reflexivity].
    + destruct (OIDCStateToEmail_error _ o _ _ _ _ _ _
                  (RetryNotify_stop _ (notify state) next b' _ _ _ _ _ _ _
                     Hop eq_refl)) as [Hres Hc].
      split; [exact Hres | rewrite Hc; reflexivity].
  - intros es e err rest -> Hw Hes He Herr.
    pose proof (operation_error_event Unmarshal state watches 0 es e err rest
                  "" Hw Hes He Herr) as Hop.
    apply (OIDCStateToEmail_error _ o _ _ _ _ _ _
             (RetryNotify_exhausted _ _ _ _ _ _ _ Hop)).
Qed.

(** C4, witness: a pending update, then an error event, then a second
    watch. *)
Lemma watch_error_event_retried_witness :
  OIDCStateToEmail sample_Unmarshal (idp_ok "n0" "tok")
    (fun k => match k with
              | O => Watching (ChanRecv (put_event [x00%byte])
                       (ChanRecv (error_event (External "rpc error")) ChanBlocked))
              | S _ => Watching (ChanRecv (put_event [x02%byte]) ChanClosed)
              end)
    [500; 750] "abc123"
  = let '(r, t) :=
      OIDCStateToEmail sample_Unmarshal (idp_ok "n0" "tok")
        (fun _ => Watching (ChanRecv (put_event [x02%byte]) ChanClosed))
        [750] "abc123" in
    (r, EWatchOne "abc123" :: repeat unset_log 1 ++ [EClose]
        ++ snd (notify "abc123" (External "rpc error") 500)
        ++ [ESleep 500] ++ t).
Proof.
  apply (proj1 (watch_error_event_retried sample_Unmarshal (idp_ok "n0" "tok")
           (fun k => match k with
              | O => Watching (ChanRecv (put_event [x00%byte])
                       (ChanRecv (error_event (External "rpc error")) ChanBlocked))
              | S _ => Watching (ChanRecv (put_event [x02%byte]) ChanClosed)
              end)
           [500; 750] "abc123")
         [put_event [x00%byte]] (error_event (External "rpc error"))
         (External "rpc error") ChanBlocked 500 [750]);
    reflexivity.
Defined.

(** C7: after any number [k] of retried attempts within the policy, a
    watch that delivers a delete event while the record is pending makes
    the waiter return [tokenDeleted]; [notify] stops the loop on it, and
    [WatchOne] is not called again. *)
Theorem deleted_session_expires
    (Unmarshal : list byte -> errorable SessionInfo)
    (o : InternalOIDCProvider) (watches : nat -> watch_attempt)
    (b : list Duration) (state : string)
    (k : nat) (es : list Event) (e : Event) (rest : chan) :
  (forall i, (i < k)%nat -> transient_attempt Unmarshal (watches i) = true) ->
  (k <= length b)%nat ->
  watches k = Watching (chan_app es (ChanRecv e rest)) ->
  forallb (pending_put Unmarshal) es = true ->
  Type_ e = EventDelete ->
  fst (OIDCStateToEmail Unmarshal o watches b state)
    = Returned (""%string, Some tokenDeleted) /\
  watch_count (snd (OIDCStateToEmail Unmarshal o watches b state)) = S k /\
  forall d, fst (notify state tokenDeleted d) = Some tokenDeleted.
Proof.
  intros Htr Hb Hw Hes He.
  destruct (retry_until_delete Unmarshal state watches es e rest k 0%nat b)
    as (t & Hrun & Hcount); auto.
  destruct (OIDCStateToEmail_error _ o _ _ _ _ _ _ Hrun) as [Hres Hc].
  rewrite Hres, Hc, Hcount. auto.
Qed.

(** C7, witness: an error event, then a watch that sees the delete. *)
Lemma deleted_session_expires_witness :
  let watches := fun k : nat =>
    match k with
    | O => Watching (ChanRecv (error_event (External "rpc error")) ChanBlocked)
    | S _ => Watching (ChanRecv (put_event [x00%byte])
               (ChanRecv delete_event ChanBlocked))
    end in
  fst (OIDCStateToEmail sample_Unmarshal (idp_ok "n0" "tok") watches
         [500; 750; 1125] "abc123")
    = Returned (""%string, Some tokenDeleted) /\
  watch_count (snd (OIDCStateToEmail sample_Unmarshal (idp_ok "n0" "tok")
                      watches [500; 750; 1125] "abc123")) = 2%nat /\
  forall d, fst (notify "abc123" tokenDeleted d) = Some tokenDeleted.
Proof.
  intros watches.
  apply (deleted_session_expires sample_Unmarshal (idp_ok "n0" "tok") watches
           [500; 750; 1125] "abc123" 1 [put_event [x00%byte]] delete_event
           ChanBlocked).
  - intros i Hi. destruct i as [|i]; [reflexivity|lia].
  - cbn. lia.
  - reflexivity.
  - reflexivity.
  - reflexivity.
Defined.

(** C10: a watch whose channel closes after update events of a pending
    record only makes the operation return nil with the access token
    still empty, and the waiter calls [UserInfo] with the empty token and
    returns what it answers. *)
Theorem closed_watch_fetches_with_empty_token
    (Unmarshal : list byte -> errorable SessionInfo)
    (o : InternalOIDCProvider) (watches : nat -> watch_attempt)
    (b : list Duration) (state : string) (es : list Event) :
  watches 0%nat = Watching (chan_app es ChanClosed) ->
  forallb (pending_put Unmarshal) es = true ->
  let t0 := EWatchOne state :: repeat unset_log (length es) ++ [EClose] in
  backoff.RetryNotify (operation Unmarshal state watches) b (notify state)
                      0%nat ""%string
    = (Returned None, ""%string, t0) /\
  OIDCStateToEmail Unmarshal o watches b state =
    match UserInfo (Provider o) "" with
    | inr err =>
        (Returned (""%string, Some err),
         t0 ++ [EUserInfo ""; converted_log state "" (Some err)])
    | inl email =>
        (Returned (email, None),
         t0 ++ [EUserInfo "";
                ELog (Infof "recovered user info with email: '%v'"
                            [AStr email]);
                converted_log state email None])
    end.
Proof.
  intros Hw Hes t0.
  pose proof (operation_closed Unmarshal state watches 0 es "" Hw Hes) as Hop.
  pose proof (RetryNotify_success _ (notify state) b _ _ _ _ Hop) as Hrun.
  split; [exact Hrun|].
  rewrite (OIDCStateToEmail_of_retry _ o _ _ _ _ _ _ Hrun). reflexivity.
Qed.

(** C10, witness: one pending update, then the channel closes. *)
Lemma closed_watch_fetches_with_empty_token_witness :
  exists t,
    OIDCStateToEmail sample_Unmarshal (idp_ok "n0" "tok")
      (fun _ => Watching (ChanRecv (put_event [x00%byte]) ChanClosed))
      [500; 750] "abc123"
    = (Returned (""%string, Some (External "401 Unauthorized")),
       t ++ [EUserInfo ""; converted_log "abc123" ""
                             (Some (External "401 Unauthorized"))]).
Proof.
  eexists.
  apply (proj2 (closed_watch_fetches_with_empty_token sample_Unmarshal
           (idp_ok "n0" "tok")
           (fun _ => Watching (ChanRecv (put_event [x00%byte]) ChanClosed))
           [500; 750] "abc123" [put_event [x00%byte]] eq_refl eq_refl)).
Defined.




(* ===================================================================== *)
(** ** The flow as a whole *)
(* ===================================================================== *)

(** A callback whose exchange succeeds with the stored nonce commits the
    access token and answers with the success page, and a waiter whose
    watch then delivers that record asks the provider for the user with
    that token and returns what it answers. *)
Theorem successful_login_round_trip
    (Unmarshal : list byte -> errorable SessionInfo)
    (sp : InternalOIDCProvider) (st : Store) (code state : string)
    (idNonce tok : string) (si : SessionInfo) :
  exchanged sp code state = (idNonce, tok, None) ->
  code <> ""%string -> state <> ""%string -> tok <> ""%string ->
  st !! state = Some si -> idNonce = Nonce si ->
  exists out,
    handleOIDCExchange (Some sp) NoFault st (callback_query code state)
      = Ok out /\
    out_store out !! state
      = Some {| Nonce := Nonce si; AccessToken := tok;
                ConversionErr := ConversionErr si |} /\
    out_writes out = [success_write] /\
    forall o watches b es e rest si',
      out_store out !! state = Some si' ->
      watches 0%nat = Watching (chan_app es (ChanRecv e rest)) ->
      forallb (pending_put Unmarshal) es = true ->
      Type_ e = EventPut -> Unmarshal (Value e) = inl si' ->
      fst (OIDCStateToEmail Unmarshal o watches b state) =
        match UserInfo (Provider o) tok with
        | inl email => Returned (email, None)
        | inr err => Returned (""%string, Some err)
        end.
Proof.
  intros Hex Hcode Hstate Htok Hsi Hn.
  destruct (first_value_callback_query code state) as [Hc Hs].
  rewrite (handleOIDCExchange_stage _ _ _ _ _ _ Hc Hs Hcode Hstate).
  cbv zeta. rewrite (commit_NoFault_found _ _ _ _ _ _ _ Hex si Hsi).
  cbn [c_store c_conversionErr c_etcdErr c_logs].
  rewrite mutator_record, mutator_conversionErr.
  apply String.eqb_eq in Hn. rewrite Hn.
  eexists. split; [reflexivity|]. cbn [out_store out_writes].
  split; [apply lookup_insert_eq|].
  split; [reflexivity|].
  intros o watches b es e rest si' Hsi' Hw Hes He Hun.
  rewrite lookup_insert_eq in Hsi'. injection Hsi' as <-.
  pose proof (operation_terminal_put Unmarshal state watches 0 es e _ rest ""
                Hw Hes He Hun) as Hop.
  unfold state_of in Hop. cbn [AccessToken ConversionErr] in Hop.
  apply String.eqb_neq in Htok. rewrite Htok in Hop. cbn [negb] in Hop.
  rewrite (OIDCStateToEmail_of_retry _ o _ _ _ _ _ _
             (RetryNotify_success _ (notify state) b _ _ _ _ Hop)).
  destruct (UserInfo (Provider o) tok); reflexivity.
Qed.

Lemma successful_login_round_trip_witness :
  exists out,
    handleOIDCExchange (Some (idp_ok "n0" "tok")) NoFault
      {[ "abc123"%string := pending_record "n0" ]}
      (callback_query "xyz" "abc123") = Ok out /\
    out_writes out = [success_write] /\
    fst (OIDCStateToEmail sample_Unmarshal (idp_ok "n0" "tok")
           (fun _ => Watching (ChanRecv (put_event [x00%byte])
                        (ChanRecv (put_event [x02%byte]) ChanBlocked)))
           [500; 750] "abc123")
      = Returned ("user@example.com"%string, None).
Proof.
  destruct (successful_login_round_trip sample_Unmarshal (idp_ok "n0" "tok")
              {[ "abc123"%string := pending_record "n0" ]} "xyz" "abc123"
              "n0" "tok" (pending_record "n0"))
    as (out & Hout & Hrec & Hw & Hwait);
    try solve [ reflexivity | discriminate ].
  exists out. split; [exact Hout|]. split; [exact Hw|].
  apply (Hwait (idp_ok "n0" "tok")
           (fun _ => Watching (ChanRecv (put_event [x00%byte])
                        (ChanRecv (put_event [x02%byte]) ChanBlocked)))
           [500; 750] [put_event [x00%byte]] (put_event [x02%byte]) ChanBlocked
           _ Hrec); reflexivity.
Defined.

(* ===================================================================== *)
(** ** testutil: dedent *)
(* ===================================================================== *)

Section DedentFacts.

Import unicode bufio testutil.

Lemma bytes_eqb_eq a : forall b, bytes_eqb a b = true <-> a = b.
Proof.
  induction a as [|x a IH]; intros [|y b]; cbn; split; intros H;
    try reflexivity; try discriminate.
  - apply andb_true_iff in H as [Hxy Hab].
    apply Byte.byte_dec_bl in Hxy. apply IH in Hab. congruence.
  - injection H as -> ->. apply andb_true_iff. split.
    + apply Byte.byte_dec_lb. reflexivity.
    + apply IH. reflexivity.
Qed.

Lemma HasPrefix_app p : forall s,
  HasPrefix s p = true <-> exists r, s = p ++ r.
Proof.
  induction p as [|c p IH]; intros s; cbn.
  - split; [intros _; exists s; reflexivity | reflexivity].
  - destruct s as [|d s]; [split; [discriminate|intros [r Hr]; discriminate]|].
    rewrite andb_true_iff, IH. split.
    + intros [Hcd [r ->]]. apply Byte.byte_dec_bl in Hcd. subst. eauto.
    + intros [r Hr]. injection Hr as -> ->. split; eauto.
      apply Byte.byte_dec_lb. reflexivity.
Qed.

Lemma space_width_dash r : space_width ("-"%byte :: r) = None.
Proof. destruct r as [|b1 [|b2 r]]; reflexivity. Qed.

(** A white-space rune has one to three bytes, all of them there. *)
Lemma space_width_bounds s w :
  space_width s = Some w -> (1 <= w <= 3)%nat /\ (w <= length s)%nat.
Proof.
  intros Hw. destruct s as [|b0 s]; [discriminate|].
  unfold space_width in Hw.
  destruct ((9 <=? Byte.to_N b0) && (Byte.to_N b0 <=? 13)
            || (Byte.to_N b0 =? 32))%N.
  { injection Hw as <-. cbn. lia. }
  destruct s as [|b1 s]; [discriminate|].
  destruct ((Byte.to_N b0 =? 194)
            && ((Byte.to_N b1 =? 133) || (Byte.to_N b1 =? 160)))%N.
  { injection Hw as <-. cbn. lia. }
  destruct s as [|b2 s]; [discriminate|].
  destruct (space3 (Byte.to_N b0) (Byte.to_N b1) (Byte.to_N b2));
    [|discriminate].
  injection Hw as <-. cbn. lia.
Qed.

(** Whether [s] starts with a white-space rune depends on the bytes of
    that rune only. *)
Lemma space_width_app s w r :
  space_width s = Some w -> space_width (firstn w s ++ r) = Some w.
Proof.
  intros Hw. destruct (space_width_bounds _ _ Hw) as [Hw13 Hlen].
  destruct s as [|b0 s]; [discriminate|].
  unfold space_width in Hw |- *.
  destruct ((9 <=? Byte.to_N b0) && (Byte.to_N b0 <=? 13)
            || (Byte.to_N b0 =? 32))%N eqn:H0.
  { injection Hw as <-. cbn [firstn app]. rewrite H0. reflexivity. }
  destruct s as [|b1 s]; [discriminate|].
  destruct ((Byte.to_N b0 =? 194)
            && ((Byte.to_N b1 =? 133) || (Byte.to_N b1 =? 160)))%N eqn:H1.
  { injection Hw as <-. cbn [firstn app]. rewrite H0, H1. reflexivity. }
  destruct s as [|b2 s]; [discriminate|].
  destruct (space3 (Byte.to_N b0) (Byte.to_N b1) (Byte.to_N b2)) eqn:H3;
    [|discriminate].
  injection Hw as <-. cbn [firstn app]. rewrite H0, H1, H3. reflexivity.
Qed.

Lemma space_width_firstn s w k :
  space_width s = Some w -> (w <= k)%nat ->
  space_width (firstn k s) = Some w.
Proof.
  intros Hw Hk. rewrite <- (firstn_skipn w (firstn k s)).
  rewrite firstn_firstn, Nat.min_l by lia.
  apply space_width_app. exact Hw.
Qed.

Lemma index_not_space_skip s : forall skip pos,
  (skip <= length s)%nat ->
  index_not_space s skip pos
    = index_not_space (skipn skip s) 0 (pos + Z.of_nat skip).
Proof.
  induction s as [|c s IH]; intros skip pos Hskip.
  - destruct skip; [|cbn in Hskip; lia]. reflexivity.
  - destruct skip as [|k].
    + cbn [skipn]. rewrite Z.add_0_r. reflexivity.
    + cbn [index_not_space skipn]. rewrite IH by (cbn in Hskip; lia).
      f_equal. lia.
Qed.

(** The three cases of one step of [IndexFunc]. *)
Lemma index_not_space_step s w pos :
  space_width s = Some w ->
  index_not_space s 0 pos = index_not_space (skipn w s) 0 (pos + Z.of_nat w).
Proof.
  intros Hw. destruct (space_width_bounds _ _ Hw) as [Hw13 Hlen].
  destruct s as [|c s]; [discriminate|].
  cbn [index_not_space]. rewrite Hw.
  rewrite index_not_space_skip by (cbn in Hlen; lia).
  destruct w as [|w]; [lia|]. cbn [skipn].
  replace (S w - 1)%nat with w by lia. f_equal. lia.
Qed.

Lemma index_not_space_stop s pos :
  s <> [] -> space_width s = None -> index_not_space s 0 pos = pos.
Proof.
  intros Hs Hw. destruct s as [|c s]; [congruence|].
  cbn [index_not_space]. rewrite Hw. reflexivity.
Qed.

(** What [IndexFunc] finds, by induction on the length of the text: the
    text is a run of white space and the index is [-1], or the index
    cuts the text into a run of white space and a rest that starts with
    a rune that is no white space. *)
Lemma index_not_space_spec n : forall s pos,
  (length s <= n)%nat ->
  (index_not_space s 0 pos = -1 /\ space_run s) \/
  (exists i, index_not_space s 0 pos = pos + Z.of_nat i /\
     (i < length s)%nat /\ space_run (firstn i s) /\
     space_width (skipn i s) = None).
Proof.
  induction n as [|n IH]; intros s pos Hlen.
  - destruct s; [|cbn in Hlen; lia]. left. split; [reflexivity|constructor].
  - destruct s as [|c s]; [left; split; [reflexivity|constructor]|].
    destruct (space_width (c :: s)) as [w|] eqn:Hw.
    + destruct (space_width_bounds _ _ Hw) as [Hw13 Hwl].
      rewrite (index_not_space_step _ _ _ Hw).
      destruct (IH (skipn w (c :: s)) (pos + Z.of_nat w)) as [[Hi Hrun]|Hi].
      { rewrite length_skipn. cbn in Hlen |- *. lia. }
      * left. split; [exact Hi|]. econstructor; eauto.
      * destruct Hi as (i & Hi & Hlt & Hrun & Hstop).
        rewrite length_skipn in Hlt.
        right. exists (w + i)%nat. split; [rewrite Hi; lia|].
        split; [lia|]. split.
        -- apply (space_run_cons _ w).
           ++ apply space_width_firstn; [exact Hw | lia].
           ++ rewrite skipn_firstn_comm.
              replace (w + i - w)%nat with i by lia. exact Hrun.
        -- rewrite skipn_skipn in Hstop.
           replace (w + i)%nat with (i + w)%nat by lia. exact Hstop.
    + right. exists 0%nat. rewrite index_not_space_stop by congruence.
      split; [lia|]. split; [cbn; lia|]. split; [constructor|exact Hw].
Qed.

Lemma IndexFunc_cases s :
  (IndexFunc_notSpace s = -1 /\ space_run s) \/
  (exists i, IndexFunc_notSpace s = Z.of_nat i /\
     (i < length s)%nat /\ space_run (firstn i s) /\
     space_width (skipn i s) = None).
Proof.
  destruct (index_not_space_spec (length s) s 0 (Nat.le_refl _))
    as [H|(i & Hi & H)]; [left; exact H|right].
  exists i. split; [exact Hi|exact H].
Qed.

Lemma index_not_space_shift s pos :
  index_not_space s 0 pos =
    if IndexFunc_notSpace s =? -1 then -1 else pos + IndexFunc_notSpace s.
Proof.
  unfold IndexFunc_notSpace. remember (length s) as n eqn:Hn.
  assert (Hlen : (length s <= n)%nat) by lia. clear Hn.
  revert s pos Hlen. induction n as [|n IH]; intros s pos Hlen.
  - destruct s; [reflexivity|cbn in Hlen; lia].
  - destruct s as [|c s]; [reflexivity|].
    destruct (space_width (c :: s)) as [w|] eqn:Hw.
    + destruct (space_width_bounds _ _ Hw) as [Hw13 Hwl].
      assert (Hl : (length (skipn w (c :: s)) <= n)%nat).
      { rewrite length_skipn. cbn in Hlen |- *. lia. }
      rewrite !(index_not_space_step _ _ _ Hw).
      rewrite (IH _ (pos + Z.of_nat w) Hl), (IH _ (0 + Z.of_nat w) Hl).
      destruct (IndexFunc_cases (skipn w (c :: s))) as [[Hi _]|(i & Hi & _)];
        unfold IndexFunc_notSpace in Hi; rewrite Hi.
      * reflexivity.
      * replace (Z.of_nat i =? -1) with false by (symmetry; apply Z.eqb_neq; lia).
        replace (0 + Z.of_nat w + Z.of_nat i =? -1) with false
          by (symmetry; apply Z.eqb_neq; lia).
        lia.
    + rewrite !index_not_space_stop by congruence. cbn. lia.
Qed.

(** The index in a text that starts with a run of white space. *)
Lemma IndexFunc_run p : space_run p -> forall r,
  IndexFunc_notSpace (p ++ r) =
    if IndexFunc_notSpace r =? -1 then -1
    else Z.of_nat (length p) + IndexFunc_notSpace r.
Proof.
  induction 1 as [|s w Hw Hrun IH]; intros r.
  - cbn [app length]. destruct (IndexFunc_notSpace r =? -1) eqn:Hr.
    + apply Z.eqb_eq in Hr. exact Hr.
    + lia.
  - destruct (space_width_bounds _ _ Hw) as [Hw13 Hwl].
    pose proof (space_width_app s w (skipn w s ++ r) Hw) as Hw'.
    rewrite app_assoc, firstn_skipn in Hw'.
    unfold IndexFunc_notSpace at 1.
    rewrite (index_not_space_step _ _ _ Hw'), index_not_space_shift.
    rewrite skipn_app, (proj2 (Nat.sub_0_le w (length s)) Hwl), skipn_O.
    rewrite IH.
    destruct (IndexFunc_cases r) as [[Hi _]|(i & Hi & _)]; rewrite Hi.
    + reflexivity.
    + replace (Z.of_nat i =? -1) with false by (symmetry; apply Z.eqb_neq; lia).
      replace (Z.of_nat (length (skipn w s)) + Z.of_nat i =? -1) with false
        by (symmetry; apply Z.eqb_neq; lia).
      rewrite length_skipn. lia.
Qed.

Lemma space_run_not_no_prefix p : space_run p -> p <> no_prefix.
Proof.
  intros Hrun ->. inversion Hrun as [|s w Hw _ Hs].
  unfold no_prefix in Hw. rewrite space_width_dash in Hw. discriminate.
Qed.

Lemma find_nonblank (P : bytes -> bool) texts :
  List.find (fun t => negb (blank t) && P t) texts
    = List.find P (List.filter (fun t => negb (blank t)) texts).
Proof.
  induction texts as [|t texts IH]; [reflexivity|].
  cbn [List.find List.filter]. destruct (blank t); cbn [negb andb].
  - exact IH.
  - cbn [List.find]. destruct (P t); [reflexivity|exact IH].
Qed.

(** The loop once the prefix is set: it stops at the first line that is
    not blank and lacks the prefix, and otherwise appends every line that
    is not blank, without the prefix. *)
Lemma dedent_loop_established p texts :
  p <> no_prefix -> forall out,
  dedent_loop texts p out =
    match List.find (fun t => negb (HasPrefix t p))
            (List.filter (fun t => negb (blank t)) texts) with
    | Some t => NoCommonPrefix t p
    | None =>
        Dedented (out ++ concat (map (unindent p)
                    (List.filter (fun t => negb (blank t)) texts)))
    end.
Proof.
  intros Hp. assert (Hne : bytes_eqb p no_prefix = false).
  { destruct (bytes_eqb p no_prefix) eqn:He; [|reflexivity].
    apply bytes_eqb_eq in He. contradiction. }
  induction texts as [|t texts IH]; intros out.
  - cbn. rewrite app_nil_r. reflexivity.
  - cbn [dedent_loop List.filter]. fold (blank t).
    destruct (blank t); cbn [negb].
    + apply IH.
    + rewrite Hne. cbn [List.find map concat].
      destruct (HasPrefix t p); cbn [negb]; [|reflexivity].
      rewrite IH. destruct (List.find _ _); [reflexivity|].
      unfold unindent. rewrite <- !app_assoc. reflexivity.
Qed.

(** The loop from the start. *)
Lemma dedent_loop_start texts :
  dedent_loop texts no_prefix [] =
    match List.filter (fun t => negb (blank t)) texts with
    | [] => Dedented []
    | first :: others =>
        match List.find (fun t => negb (HasPrefix t (indent first))) others with
        | Some t => NoCommonPrefix t (indent first)
        | None =>
            Dedented (concat (map (unindent (indent first)) (first :: others)))
        end
    end.
Proof.
  induction texts as [|t texts IH]; [reflexivity|].
  cbn [dedent_loop List.filter]. unfold blank at 1.
  destruct (IndexFunc_cases t) as [[Hi _]|(i & Hi & Hlt & Hrun & _)];
    rewrite Hi.
  - change (-1 =? -1) with true. cbn [negb]. exact IH.
  - replace (Z.of_nat i =? -1) with false by (symmetry; apply Z.eqb_neq; lia).
    cbn [negb]. assert (Hb : bytes_eqb no_prefix no_prefix = true)
      by reflexivity.
    rewrite Hb. unfold slice_to. rewrite Nat2Z.id.
    assert (Hind : indent t = firstn i t).
    { unfold indent, slice_to. rewrite Hi, Nat2Z.id. reflexivity. }
    rewrite dedent_loop_established by (apply space_run_not_no_prefix, Hrun).
    rewrite Hind. destruct (List.find _ _); [reflexivity|].
    cbn [map concat app]. unfold unindent at 2, slice_from.
    rewrite length_firstn, Nat.min_l, !Nat2Z.id by lia.
    rewrite <- app_assoc. reflexivity.
Qed.

End DedentFacts.

(** The three ways [dedent] can end. *)
Lemma dedent_cases (cmd : bytes) :
  testutil.dedent cmd =
    match testutil.nonblank_lines cmd with
    | [] => ([], [])
    | first :: others =>
        let prefix := testutil.indent first in
        match List.find (fun t => negb (HasPrefix t prefix)) others with
        | Some t => (cmd, [testutil.Warning t prefix])
        | None =>
            (concat (map (testutil.unindent prefix) (first :: others)), [])
        end
    end.
Proof.
  unfold testutil.dedent, testutil.nonblank_lines.
  rewrite dedent_loop_start.
  destruct (List.filter _ _) as [|first others]; [reflexivity|].
  cbv zeta. destruct (List.find _ _); reflexivity.
Qed.

(** [dedent]: with no line but blank ones the result is empty; if every
    line that is not blank starts with the white space the first such
    line starts with, the result is these lines without that prefix, each
    ended by a newline, and nothing is written to standard error; else
    the result is [cmd] itself, and the one warning names the first line
    that lacks the prefix. *)
Theorem dedent_spec (cmd : bytes) :
  testutil.dedent cmd =
    match testutil.nonblank_lines cmd with
    | [] => ([], [])
    | first :: others =>
        let prefix := testutil.indent first in
        match List.find (fun t => negb (HasPrefix t prefix)) others with
        | Some t => (cmd, [testutil.Warning t prefix])
        | None =>
            (concat (map (testutil.unindent prefix) (first :: others)), [])
        end
    end.
Proof. exact (dedent_cases cmd). Qed.

Section DedentRoundTrip.

Import unicode bufio testutil.

Lemma raw_lines_no_newline s : forall l,
  In l (raw_lines s) -> ~ In newline l.
Proof.
  induction s as [|c s IH]; intros l; cbn [raw_lines]; [intros []|].
  destruct (Byte.eqb c newline) eqn:Hc.
  - intros [<-|Hl]; [intros []|apply IH, Hl].
  - destruct (raw_lines s) as [|l0 ls] eqn:Hr.
    + intros [<-|[]]. intros [->|[]].
      rewrite (Byte.byte_dec_lb eq_refl) in Hc. discriminate.
    + intros [<-|Hl].
      * intros [->|Hin].
        -- rewrite (Byte.byte_dec_lb eq_refl) in Hc. discriminate.
        -- apply (IH l0); [left; reflexivity|exact Hin].
      * apply IH. right. exact Hl.
Qed.

Lemma raw_lines_line l : ~ In newline l -> forall s,
  raw_lines (l ++ newline :: s) = l :: raw_lines s.
Proof.
  induction l as [|c l IH]; intros Hl s.
  - cbn. reflexivity.
  - cbn [app raw_lines].
    destruct (Byte.eqb c newline) eqn:Hc.
    + apply Byte.byte_dec_bl in Hc. subst c. destruct Hl. left. reflexivity.
    + rewrite IH by (intros Hin; apply Hl; right; exact Hin). reflexivity.
Qed.

(** Scanning lines that were written out, each with its newline, gives
    the lines back. *)
Lemma raw_lines_join_app ls s :
  Forall (fun l => ~ In newline l) ls ->
  raw_lines (write_lines ls ++ s) = ls ++ raw_lines s.
Proof.
  unfold write_lines.
  induction 1 as [|l ls Hl _ IH]; [reflexivity|].
  cbn [map concat]. rewrite <- !app_assoc. cbn [app].
  rewrite raw_lines_line by exact Hl. rewrite IH. reflexivity.
Qed.

Lemma raw_lines_join ls :
  Forall (fun l => ~ In newline l) ls ->
  raw_lines (concat (map (fun l => l ++ [newline]) ls)) = ls.
Proof.
  intros Hls. pose proof (raw_lines_join_app ls [] Hls) as H.
  rewrite !app_nil_r in H. exact H.
Qed.

(** The line a text without newline starts is at least as long. *)
Lemma raw_lines_head long s :
  long <> [] -> ~ In newline long ->
  exists (l : bytes) (ls : list bytes),
    raw_lines (long ++ s) = l :: ls /\ (length long <= length l)%nat.
Proof.
  induction long as [|c long IH]; intros Hne Hnl; [congruence|].
  cbn [app raw_lines].
  destruct (Byte.eqb c newline) eqn:Hc.
  { apply Byte.byte_dec_bl in Hc. subst c. destruct Hnl. left. reflexivity. }
  destruct long as [|d long].
  - cbn [app]. destruct (raw_lines s) as [|l ls].
    + exists [c], []. split; [reflexivity|cbn; lia].
    + exists (c :: l), ls. split; [reflexivity|cbn; lia].
  - destruct IH as (l & ls & -> & Hlen); [discriminate| |].
    + intros Hin. apply Hnl. right. exact Hin.
    + exists (c :: l), ls. split; [reflexivity|].
      cbn [length] in *. lia.
Qed.

Lemma take_scannable_stop ls l rest :
  Forall (fun l => scannable l = true) ls -> scannable l = false ->
  take_scannable (ls ++ l :: rest) = ls.
Proof.
  intros Hls Hl. induction Hls as [|l0 ls H0 _ IH]; cbn.
  - rewrite Hl. reflexivity.
  - rewrite H0, IH. reflexivity.
Qed.

Lemma take_scannable_all ls :
  Forall (fun l => scannable l = true) ls -> take_scannable ls = ls.
Proof.
  induction 1 as [|l ls Hl _ IH]; [reflexivity|].
  cbn. rewrite Hl, IH. reflexivity.
Qed.

Lemma take_scannable_in ls l :
  In l (take_scannable ls) -> In l ls /\ scannable l = true.
Proof.
  induction ls as [|l0 ls IH]; cbn; [intros []|].
  destruct (scannable l0) eqn:Hs; [|intros []].
  intros [<-|Hin]; [auto|]. destruct (IH Hin). auto.
Qed.

Lemma dropCR_length l : (length (dropCR l) <= length l)%nat.
Proof.
  induction l as [|c [|d l] IH]; cbn [dropCR length] in *; [lia| |lia].
  destruct (Byte.eqb c carriage_return); cbn; lia.
Qed.

Lemma dropCR_in x l : In x (dropCR l) -> In x l.
Proof.
  induction l as [|c [|d l] IH]; cbn [dropCR]; [intros []| |].
  - destruct (Byte.eqb c carriage_return); [intros []|auto].
  - intros [<-|Hin]; [left; reflexivity|right; apply IH, Hin].
Qed.

Lemma dropCR_app p r : r <> [] -> dropCR (p ++ r) = p ++ dropCR r.
Proof.
  intros Hr. induction p as [|c p IH]; [reflexivity|].
  cbn [app]. destruct (p ++ r) as [|d q] eqn:Hq.
  - destruct p, r; cbn in Hq; congruence.
  - cbn [dropCR]. rewrite <- IH. reflexivity.
Qed.

(** What [Scan] hands out has no newline and fits the buffer. *)
Lemma Texts_in s t :
  In t (Texts s) ->
  ~ In newline t /\ Z.of_nat (length t) < MaxScanTokenSize.
Proof.
  unfold Texts. rewrite in_map_iff. intros (l & <- & Hl).
  apply take_scannable_in in Hl as [Hl Hs]. split.
  - intros Hin. apply dropCR_in in Hin.
    exact (raw_lines_no_newline _ _ Hl Hin).
  - unfold scannable in Hs. apply Z.ltb_lt in Hs.
    pose proof (dropCR_length l). lia.
Qed.

(** A line that is not blank, without a run of white space it starts
    with, is not blank. *)
Lemma unprefixed_not_blank p r :
  space_run p -> blank (p ++ r) = false ->
  blank r = false /\ r <> [] /\
  IndexFunc_notSpace (p ++ r)
    = Z.of_nat (length p) + IndexFunc_notSpace r.
Proof.
  intros Hrun. unfold blank. rewrite (IndexFunc_run p Hrun r).
  destruct (IndexFunc_notSpace r =? -1) eqn:Hr; [discriminate|].
  intros _. split; [reflexivity|]. split; [|reflexivity].
  intros ->. discriminate.
Qed.

Lemma find_never {A} (f : A -> bool) l :
  (forall x, f x = false) -> List.find f l = None.
Proof.
  intros Hf. induction l as [|x l IH]; [reflexivity|].
  cbn. rewrite Hf. exact IH.
Qed.

End DedentRoundTrip.

(** [dedent] applied to its own result changes nothing, provided no line
    of [cmd] that is not blank still ends with a carriage return once the
    scanner has dropped one. *)
Theorem dedent_idempotent (cmd : bytes) :
  Forall (fun t => bufio.dropCR t = t) (testutil.nonblank_lines cmd) ->
  fst (testutil.dedent (fst (testutil.dedent cmd)))
    = fst (testutil.dedent cmd).
Proof.
  intros Hcr.
  destruct (testutil.nonblank_lines cmd) as [|first others] eqn:Hnb.
  { rewrite (dedent_cases cmd), Hnb. reflexivity. }
  pose proof (dedent_cases cmd) as Hd. rewrite Hnb in Hd. cbv zeta in Hd.
  destruct (List.find _ others) as [bad|] eqn:Hfind.
  { rewrite Hd. cbn [fst]. rewrite Hd. reflexivity. }
  rewrite Hd. cbn [fst].
  set (p := testutil.indent first) in *.
  set (nb := first :: others) in *.
  (* the lines of [cmd] that count *)
  assert (Hin : forall t, In t nb ->
            In t (bufio.Texts cmd) /\ testutil.blank t = false).
  { intros t Ht. rewrite <- Hnb in Ht. unfold testutil.nonblank_lines in Ht.
    apply filter_In in Ht as [Ht Hb]. split; [exact Ht|].
    apply negb_true_iff in Hb. exact Hb. }
  (* the prefix is a run of white space, and every line starts with it *)
  assert (Hp : space_run p /\
               IndexFunc_notSpace first = Z.of_nat (length p) /\
               HasPrefix first p = true).
  { destruct (Hin first (or_introl eq_refl)) as [_ Hb].
    unfold testutil.blank in Hb.
    destruct (IndexFunc_cases first) as [[Hi _]|(i & Hi & Hlt & Hrun & _)].
    - rewrite Hi in Hb. discriminate.
    - assert (Hpi : p = firstn i first).
      { unfold p, testutil.indent, slice_to. rewrite Hi, Nat2Z.id.
        reflexivity. }
      rewrite Hpi. split; [exact Hrun|]. split.
      + rewrite Hi, length_firstn, Nat.min_l by lia. reflexivity.
      + apply HasPrefix_app. exists (skipn i first).
        symmetry. apply firstn_skipn. }
  destruct Hp as (Hrun & Hfirst & Hpre1).
  assert (Hpre : forall t, In t nb -> HasPrefix t p = true).
  { intros t [<-|Ht]; [exact Hpre1|].
    pose proof (find_none _ _ Hfind t Ht) as Hn.
    apply negb_false_iff in Hn. exact Hn. }
  (* each line is the prefix and a rest *)
  assert (Hsplit : forall t, In t nb -> t = p ++ skipn (length p) t).
  { intros t Ht. apply Hpre, HasPrefix_app in Ht as [r ->].
    rewrite skipn_app, skipn_all, Nat.sub_diag. reflexivity. }
  set (rests := map (skipn (length p)) nb).
  assert (Hout : concat (map (testutil.unindent p) nb)
                 = concat (map (fun l => l ++ [newline]) rests)).
  { unfold rests. rewrite map_map. f_equal. apply map_ext.
    intros t. unfold testutil.unindent, slice_from. rewrite Nat2Z.id.
    reflexivity. }
  assert (Hrests : forall r, In r rests ->
            ~ In newline r /\ bufio.scannable r = true /\
            bufio.dropCR r = r /\ testutil.blank r = false).
  { intros r Hr. unfold rests in Hr. apply in_map_iff in Hr as (t & <- & Ht).
    destruct (Hin t Ht) as [Htx Hb].
    destruct (Texts_in _ _ Htx) as [Hnl Hlen].
    pose proof (Hsplit t Ht) as Ht'.
    rewrite Ht' in Hb.
    destruct (unprefixed_not_blank _ _ Hrun Hb) as (Hb' & Hne & _).
    split; [|split; [|split]].
    - intros Hn. apply Hnl. rewrite Ht'. apply in_or_app. right. exact Hn.
    - unfold bufio.scannable. apply Z.ltb_lt.
      rewrite length_skipn. lia.
    - assert (Hcr' : bufio.dropCR t = t).
      { rewrite List.Forall_forall in Hcr. apply Hcr. exact Ht. }
      rewrite Ht' in Hcr' at 1. rewrite dropCR_app in Hcr' by exact Hne.
      rewrite Ht' in Hcr' at 2. apply app_inv_head in Hcr'. exact Hcr'.
    - exact Hb'. }
  (* the lines of the result are the rests *)
  assert (Hnb2 : testutil.nonblank_lines
                   (concat (map (testutil.unindent p) nb)) = rests).
  { unfold testutil.nonblank_lines, bufio.Texts. rewrite Hout.
    rewrite raw_lines_join
      by (apply List.Forall_forall; intros r Hr; apply (Hrests r Hr)).
    rewrite take_scannable_all
      by (apply List.Forall_forall; intros r Hr; apply (Hrests r Hr)).
    rewrite (map_ext_in _ (fun r => r))
      by (intros r Hr; apply (Hrests r Hr)).
    rewrite map_id. apply forallb_filter_id, forallb_forall.
    intros r Hr. apply negb_true_iff. apply (Hrests r Hr). }
  rewrite (dedent_cases (concat _)), Hnb2. unfold rests, nb. cbn [map].
  cbv zeta.
  (* the first rest starts with no white space *)
  assert (Hind : testutil.indent (skipn (length p) first) = []).
  { pose proof (Hsplit first (or_introl eq_refl)) as Hf.
    destruct (Hin first (or_introl eq_refl)) as [_ Hb].
    rewrite Hf in Hb.
    destruct (unprefixed_not_blank _ _ Hrun Hb) as (_ & _ & Hidx).
    rewrite <- Hf in Hidx. rewrite Hfirst in Hidx.
    unfold testutil.indent, slice_to.
    replace (IndexFunc_notSpace (skipn (length p) first)) with 0 by lia.
    reflexivity. }
  rewrite Hind.
  replace (List.find _ _) with (@None bytes).
  2:{ symmetry. apply find_never. intros t. reflexivity. }
  cbn [fst].
  change (concat (map (testutil.unindent [])
                    (map (skipn (length p)) nb))
          = concat (map (testutil.unindent p) nb)).
  rewrite map_map. f_equal. apply map_ext.
  intros t. unfold testutil.unindent, slice_from. rewrite !Nat2Z.id.
  reflexivity.
Qed.

Lemma dedent_idempotent_witness :
  Forall (fun t => bufio.dropCR t = t) (testutil.nonblank_lines sample_cmd) /\
  fst (testutil.dedent (fst (testutil.dedent sample_cmd)))
    = fst (testutil.dedent sample_cmd).
Proof.
  assert (H : Forall (fun t => bufio.dropCR t = t)
                (testutil.nonblank_lines sample_cmd))
    by (vm_compute; repeat constructor).
  split; [exact H | exact (dedent_idempotent sample_cmd H)].
Defined.

(** The hypothesis of idempotence is needed: of two carriage returns
    before a newline, each pass drops one. *)
Lemma dedent_twice_with_carriage_returns :
  let cmd := list_byte_of_string "a" ++ [carriage_return; carriage_return;
                                         newline] in
  fst (testutil.dedent (fst (testutil.dedent cmd)))
    <> fst (testutil.dedent cmd).
Proof. vm_compute. discriminate. Qed.

(** A line of [bufio.MaxScanTokenSize] bytes or more ends the scan, and
    [dedent] does not ask the scanner for its error: for a script whose
    first lines [before] fit and are followed by [long], which holds no
    newline and is that long, [dedent] answers as it does for [before]
    alone, the same warnings, and when there is none the same text,
    whatever follows [long]. *)
Theorem dedent_stops_at_long_line (before : list bytes) (long rest : bytes) :
  Forall (fun l => ~ In newline l /\ bufio.scannable l = true) before ->
  ~ In newline long ->
  bufio.MaxScanTokenSize <= Z.of_nat (length long) ->
  snd (testutil.dedent (write_lines before ++ long ++ rest))
    = snd (testutil.dedent (write_lines before)) /\
  (snd (testutil.dedent (write_lines before)) = [] ->
   fst (testutil.dedent (write_lines before ++ long ++ rest))
     = fst (testutil.dedent (write_lines before))).
Proof.
  intros Hbefore Hnl Hlong.
  assert (Hb1 : Forall (fun l => ~ In newline l) before)
    by (eapply List.Forall_impl; [|exact Hbefore]; intros l [H _]; exact H).
  assert (Hb2 : Forall (fun l => bufio.scannable l = true) before)
    by (eapply List.Forall_impl; [|exact Hbefore]; intros l [_ H]; exact H).
  assert (Hne : long <> []).
  { intros ->. cbn in Hlong. unfold bufio.MaxScanTokenSize in Hlong. lia. }
  assert (Htexts : bufio.Texts (write_lines before ++ long ++ rest)
                   = bufio.Texts (write_lines before)).
  { unfold bufio.Texts. rewrite raw_lines_join_app by exact Hb1.
    destruct (raw_lines_head long rest Hne Hnl) as (l & ls & -> & Hlen).
    rewrite take_scannable_stop; [| exact Hb2 |].
    - unfold write_lines. rewrite raw_lines_join by exact Hb1.
      rewrite take_scannable_all by exact Hb2. reflexivity.
    - unfold bufio.scannable. apply Z.ltb_ge. lia. }
  unfold testutil.dedent. rewrite Htexts.
  destruct (testutil.dedent_loop _ _ _); cbn [fst snd].
  - split; reflexivity.
  - split; [reflexivity|discriminate].
Qed.

Lemma dedent_stops_at_long_line_witness :
  let before := [list_byte_of_string "  echo a"] in
  let long := repeat "x"%byte (Z.to_nat 65536) in
  let rest := newline :: list_byte_of_string "  echo b" in
  snd (testutil.dedent (write_lines before ++ long ++ rest))
    = snd (testutil.dedent (write_lines before)) /\
  (snd (testutil.dedent (write_lines before)) = [] ->
   fst (testutil.dedent (write_lines before ++ long ++ rest))
     = fst (testutil.dedent (write_lines before))).
Proof.
  apply (dedent_stops_at_long_line [list_byte_of_string "  echo a"]
           (repeat "x"%byte (Z.to_nat 65536))
           (newline :: list_byte_of_string "  echo b")).
  - repeat constructor. cbn. intros H.
    repeat (destruct H as [H|H]; [discriminate|]). exact H.
  - intros H. apply repeat_spec in H. discriminate.
  - rewrite repeat_length. vm_compute. discriminate.
Defined.

(* ===================================================================== *)
(** ** Starting a login *)
(* ===================================================================== *)

(** [CryptoString(30)] with a working random source: 23 bytes, encoded
    in 31 characters of the URL-safe alphabet. *)
Lemma CryptoString_30 (r : RandSource) :
  rand_fails r = false ->
  exists s, CryptoString r 30 = Some (Ok s) /\
            string_url_safe s = true /\ strlen s = 31.
Proof.
  intros Hr. unfold CryptoString.
  replace (numBytes_loop _ 30 0) with (Some 23) by (vm_compute; reflexivity).
  unfold rand_Read. rewrite Hr.
  eexists. split; [reflexivity|].
  set (b := map (rand_byte r) (seq 0 (Z.to_nat 23))).
  destruct (Encode_spec (length b) b) as [Hsafe Hlen]; [lia|].
  assert (Hb : length b = 23%nat).
  { subst b. rewrite length_map, length_seq. reflexivity. }
  split.
  - unfold string_url_safe, Base64.EncodeToString.
    rewrite list_ascii_of_string_of_list_ascii. exact Hsafe.
  - unfold strlen, Base64.EncodeToString.
    rewrite length_string_of_list, Hlen, Hb. reflexivity.
Qed.

Lemma strlen_nonempty s : 0 < strlen s -> s <> ""%string.
Proof. intros H ->. unfold strlen in H. cbn in H. lia. Qed.

Section LoginFacts.

Variable NewProvider : OIDCClient + string.
Variable AuthCodeURL : OIDCClient -> string -> string -> string.

(** With a provider, two strings and a transaction that commits, the
    call writes the pending record and returns the URL and the state. *)
Lemma GetOIDCLoginURL_commits o p r1 r2 st state nonce :
  provider_of NewProvider o = Some p ->
  CryptoString r1 30 = Some (Ok state) ->
  CryptoString r2 30 = Some (Ok nonce) ->
  exists o',
    GetOIDCLoginURL NewProvider AuthCodeURL o r1 r2 NoFault st =
      Some (Ok {| login_url := AuthCodeURL p state nonce;
                  login_state := state; login_err := None;
                  login_store := <[state := pending_record nonce]> st;
                  login_receiver_after := o' |}) /\
    provider_of NewProvider o' = Some p.
Proof.
  intros Hp Hs Hn. unfold GetOIDCLoginURL.
  destruct o as [| |sp]; cbn in Hp.
  - discriminate.
  - destruct NewProvider as [q|err]; [|discriminate].
    injection Hp as ->. rewrite Hs, Hn. cbn.
    eexists. split; reflexivity.
  - injection Hp as <-. rewrite Hs, Hn. cbn.
    eexists. split; reflexivity.
Qed.

Lemma CryptoString_30_cases (r : RandSource) :
  (rand_fails r = true /\ exists m, CryptoString r 30 = Some (Panic m)) \/
  (rand_fails r = false /\
   exists s, CryptoString r 30 = Some (Ok s) /\
             string_url_safe s = true /\ strlen s = 31).
Proof.
  destruct (rand_fails r) eqn:Hr.
  - left. split; [reflexivity|]. unfold CryptoString.
    replace (numBytes_loop _ 30 0) with (Some 23)
      by (vm_compute; reflexivity).
    unfold rand_Read. rewrite Hr. eexists. reflexivity.
  - right. split; [reflexivity|]. apply CryptoString_30, Hr.
Qed.

Lemma NewSTM_PutTTL fault st key val ttl :
  col.NewSTM fault st tt (PutTTL key val ttl) =
    match fault with
    | NoFault => (<[key := val]> st, tt, None)
    | FailBegin e | FailCommit e => (st, tt, Some e)
    end.
Proof. destruct fault; reflexivity. Qed.

End LoginFacts.

(** A login that can be started is started: with a provider (the
    receiver's, or the one [oidc.NewProvider] finds for a receiver
    without one), a working random source and a transaction that
    commits, [GetOIDCLoginURL] returns no error; the state and the nonce
    are 31 characters of the URL-safe alphabet each, the URL is the
    provider's authorization URL for them, and the collection holds,
    under the state, a pending record with the nonce, and is otherwise
    as before. *)
Theorem login_creates_pending_session
    (NewProvider : OIDCClient + string)
    (AuthCodeURL : OIDCClient -> string -> string -> string)
    (o : login_receiver) (p : OIDCClient) (r_state r_nonce : RandSource)
    (st : Store) :
  provider_of NewProvider o = Some p ->
  rand_fails r_state = false -> rand_fails r_nonce = false ->
  exists state nonce o',
    GetOIDCLoginURL NewProvider AuthCodeURL o r_state r_nonce NoFault st =
      Some (Ok {| login_url := AuthCodeURL p state nonce;
                  login_state := state; login_err := None;
                  login_store :=
                    <[state := {| Nonce := nonce; AccessToken := "";
                                  ConversionErr := false |}]> st;
                  login_receiver_after := o' |}) /\
    provider_of NewProvider o' = Some p /\
    string_url_safe state = true /\ strlen state = 31 /\
    string_url_safe nonce = true /\ strlen nonce = 31.
Proof.
  intros Hp H1 H2.
  destruct (CryptoString_30 r_state H1) as (state & Hs & Hsafe1 & Hlen1).
  destruct (CryptoString_30 r_nonce H2) as (nonce & Hn & Hsafe2 & Hlen2).
  destruct (GetOIDCLoginURL_commits NewProvider AuthCodeURL o p r_state
              r_nonce st state nonce Hp Hs Hn) as (o' & Hcall & Hp').
  exists state, nonce, o'. auto 10.
Qed.

Lemma login_creates_pending_session_witness :
  exists state nonce o',
    GetOIDCLoginURL (inr "no such host"%string) sample_AuthCodeURL
      (ProviderSet (idp_ok "n0" "tok")) zero_rand zero_rand NoFault
      {[ "abc123"%string := pending_record "n0" ]} =
      Some (Ok {| login_url :=
                    sample_AuthCodeURL (Provider (idp_ok "n0" "tok"))
                      state nonce;
                  login_state := state; login_err := None;
                  login_store :=
                    <[state := {| Nonce := nonce; AccessToken := "";
                                  ConversionErr := false |}]>
                      {[ "abc123"%string := pending_record "n0" ]};
                  login_receiver_after := o' |}) /\
    provider_of (inr "no such host"%string) o'
      = Some (Provider (idp_ok "n0" "tok")) /\
    string_url_safe state = true /\ strlen state = 31 /\
    string_url_safe nonce = true /\ strlen nonce = 31.
Proof.
  apply (login_creates_pending_session (inr "no such host"%string)
           sample_AuthCodeURL (ProviderSet (idp_ok "n0" "tok"))
           (Provider (idp_ok "n0" "tok")) zero_rand zero_rand
           {[ "abc123"%string := pending_record "n0" ]});
    reflexivity.
Defined.

(** [GetOIDCLoginURL] always ends, and leaves a session or nothing. A
    panic is that of [CryptoString], with a provider at hand and a
    random source that fails. A call that returns no error has written
    one pending record, under the state it returns, which is not empty.
    A call that returns an error returns no URL and no state and leaves
    the collection as it was, whether the receiver is nil, no provider
    is found, or the transaction fails. *)
Theorem login_all_or_nothing
    (NewProvider : OIDCClient + string)
    (AuthCodeURL : OIDCClient -> string -> string -> string)
    (o : login_receiver) (r_state r_nonce : RandSource)
    (fault : stm_fault) (st : Store) :
  match GetOIDCLoginURL NewProvider AuthCodeURL o r_state r_nonce fault st
  with
  | None => False
  | Some (Panic _) =>
      provider_of NewProvider o <> None /\
      (rand_fails r_state = true \/ rand_fails r_nonce = true)
  | Some (Ok lo) =>
      match login_err lo with
      | None =>
          fault = NoFault /\ login_state lo <> ""%string /\
          exists nonce,
            login_store lo
              = <[login_state lo := {| Nonce := nonce; AccessToken := "";
                                       ConversionErr := false |}]> st
      | Some _ =>
          login_store lo = st /\ login_url lo = ""%string /\
          login_state lo = ""%string
      end
  end.
Proof.
  unfold GetOIDCLoginURL.
  assert (Hlogin : forall o' p,
    match
      match CryptoString r_state 30 with
      | None => None
      | Some (Panic m) => Some (Panic m)
      | Some (Ok state) =>
          match CryptoString r_nonce 30 with
          | None => None
          | Some (Panic m) => Some (Panic m)
          | Some (Ok nonce) =>
              let '(st', _, err) :=
                col.NewSTM fault st tt
                  (PutTTL state
                     {| Nonce := nonce; AccessToken := "";
                        ConversionErr := false |} threeMinutes) in
              match err with
              | Some err =>
                  Some (Ok {| login_url := ""; login_state := "";
                              login_err :=
                                Some (Wrapf err
                                  "could not create OIDC login session");
                              login_store := st';
                              login_receiver_after := o' |})
              | None =>
                  Some (Ok {| login_url := AuthCodeURL p state nonce;
                              login_state := state; login_err := None;
                              login_store := st';
                              login_receiver_after := o' |})
              end
          end
      end
    with
    | None => False
    | Some (Panic _) =>
        rand_fails r_state = true \/ rand_fails r_nonce = true
    | Some (Ok lo) =>
        match login_err lo with
        | None =>
            fault = NoFault /\ login_state lo <> ""%string /\
            exists nonce,
              login_store lo
                = <[login_state lo := {| Nonce := nonce; AccessToken := "";
                                         ConversionErr := false |}]> st
        | Some _ =>
            login_store lo = st /\ login_url lo = ""%string /\
            login_state lo = ""%string
        end
    end).
  { intros o' p.
    destruct (CryptoString_30_cases r_state)
      as [[H1 [m ->]]|[_ (state & -> & _ & Hlen)]]; [left; exact H1|].
    destruct (CryptoString_30_cases r_nonce)
      as [[H2 [m ->]]|[_ (nonce & -> & _ & _)]]; [right; exact H2|].
    rewrite NewSTM_PutTTL.
    destruct fault; cbn; [|auto|auto].
    split; [reflexivity|]. split; [apply strlen_nonempty; lia|].
    exists nonce. reflexivity. }
  destruct o as [| |sp].
  - cbn. auto.
  - destruct NewProvider as [q|err]; cbn [provider_of].
    + specialize (Hlogin (ProviderSet {| Provider := q |}) q).
      destruct (match CryptoString r_state 30 with
                | None => _ | Some _ => _ end)
        as [[lo|m]|]; [exact Hlogin | split; [discriminate|exact Hlogin]
                      | exact Hlogin].
    + cbn. auto.
  - specialize (Hlogin (ProviderSet sp) (Provider sp)). cbn [provider_of].
    destruct (match CryptoString r_state 30 with
                | None => _ | Some _ => _ end)
      as [[lo|m]|]; [exact Hlogin | split; [discriminate|exact Hlogin]
                    | exact Hlogin].
Qed.

(** The login as a whole. A session started by [GetOIDCLoginURL] is one
    the callback completes: for a callback with the returned state whose
    exchange succeeds with the nonce the login generated, the handler
    finds the record, the nonces agree, the access token is stored and
    the success page is written; and a waiter for the returned state
    whose watch delivers that record, after any number of updates of a
    record still pending, returns what the provider answers for the
    token. *)
Theorem login_round_trip
    (Unmarshal : list byte -> errorable SessionInfo)
    (NewProvider : OIDCClient + string)
    (AuthCodeURL : OIDCClient -> string -> string -> string)
    (o : login_receiver) (p : OIDCClient) (r_state r_nonce : RandSource)
    (st : Store) :
  provider_of NewProvider o = Some p ->
  rand_fails r_state = false -> rand_fails r_nonce = false ->
  exists lo nonce,
    GetOIDCLoginURL NewProvider AuthCodeURL o r_state r_nonce NoFault st
      = Some (Ok lo) /\
    login_err lo = None /\
    CryptoString r_nonce 30 = Some (Ok nonce) /\
    forall sp code tok,
      exchanged sp code (login_state lo) = (nonce, tok, None) ->
      code <> ""%string -> tok <> ""%string ->
      exists out,
        handleOIDCExchange (Some sp) NoFault (login_store lo)
          (callback_query code (login_state lo)) = Ok out /\
        out_writes out = [success_write] /\
        out_store out !! login_state lo
          = Some {| Nonce := nonce; AccessToken := tok;
                    ConversionErr := false |} /\
        forall w watches b es e rest,
          watches 0%nat = Watching (chan_app es (ChanRecv e rest)) ->
          forallb (pending_put Unmarshal) es = true ->
          Type_ e = EventPut ->
          Unmarshal (Value e)
            = inl {| Nonce := nonce; AccessToken := tok;
                     ConversionErr := false |} ->
          fst (OIDCStateToEmail Unmarshal w watches b (login_state lo)) =
            match UserInfo (Provider w) tok with
            | inl email => Returned (email, None)
            | inr err => Returned (""%string, Some err)
            end.
Proof.
  intros Hp H1 H2.
  destruct (CryptoString_30 r_state H1) as (state & Hs & _ & Hlen).
  destruct (CryptoString_30 r_nonce H2) as (nonce & Hn & _ & _).
  destruct (GetOIDCLoginURL_commits NewProvider AuthCodeURL o p r_state
              r_nonce st state nonce Hp Hs Hn) as (o' & Hcall & _).
  eexists. exists nonce. split; [exact Hcall|].
  cbn [login_err login_state login_store].
  split; [reflexivity|]. split; [exact Hn|].
  intros sp code tok Hex Hcode Htok.
  assert (Hstate : state <> ""%string) by (apply strlen_nonempty; lia).
  destruct (first_value_callback_query code state) as [Hc Hq].
  rewrite (handleOIDCExchange_stage _ _ _ _ _ _ Hc Hq Hcode Hstate).
  cbv zeta.
  rewrite (commit_NoFault_found _ _ _ _ _ _ _ Hex (pending_record nonce))
    by apply lookup_insert_eq.
  cbn [c_store c_conversionErr c_etcdErr c_logs].
  rewrite mutator_record, mutator_conversionErr.
  cbn [pending_record Nonce ConversionErr]. rewrite String.eqb_refl.
  eexists. split; [reflexivity|]. cbn [out_store out_writes].
  split; [reflexivity|]. split; [apply lookup_insert_eq|].
  intros w watches b es e rest Hw Hes He Hun.
  pose proof (operation_terminal_put Unmarshal state watches 0 es e _ rest ""
                Hw Hes He Hun) as Hop.
  unfold state_of in Hop. cbn [AccessToken ConversionErr] in Hop.
  apply String.eqb_neq in Htok. rewrite Htok in Hop. cbn [negb] in Hop.
  rewrite (OIDCStateToEmail_of_retry _ w _ _ _ _ _ _
             (RetryNotify_success _ (notify state) b _ _ _ _ Hop)).
  destruct (UserInfo (Provider w) tok); reflexivity.
Qed.

Lemma login_round_trip_witness :
  exists lo nonce,
    GetOIDCLoginURL (inl (Provider (idp_ok "n0" "tok"))) sample_AuthCodeURL
      ProviderUnset zero_rand zero_rand NoFault ∅ = Some (Ok lo) /\
    login_err lo = None /\
    CryptoString zero_rand 30 = Some (Ok nonce) /\
    exists out,
      handleOIDCExchange (Some (idp_ok nonce "tok")) NoFault (login_store lo)
        (callback_query "xyz" (login_state lo)) = Ok out /\
      out_writes out = [success_write] /\
      fst (OIDCStateToEmail
             (fun _ => inl {| Nonce := nonce; AccessToken := "tok";
                              ConversionErr := false |})
             (idp_ok nonce "tok")
             (fun _ => Watching (ChanRecv (put_event [x02%byte]) ChanBlocked))
             [500; 750] (login_state lo))
        = Returned ("user@example.com"%string, None).
Proof.
  destruct (login_round_trip
              (fun _ => inl {| Nonce := "AAAAAAAAAAAAAAAAAAAAAAAAAAAAAAA";
                               AccessToken := "tok";
                               ConversionErr := false |})
              (inl (Provider (idp_ok "n0" "tok"))) sample_AuthCodeURL
              ProviderUnset (Provider (idp_ok "n0" "tok"))
              zero_rand zero_rand ∅)
    as (lo & nonce & Hcall & Herr & Hn & Hflow);
    try reflexivity.
  exists lo, nonce. split; [exact Hcall|]. split; [exact Herr|].
  split; [exact Hn|].
  assert (Hnonce : nonce = "AAAAAAAAAAAAAAAAAAAAAAAAAAAAAAA"%string).
  { vm_compute in Hn. injection Hn as <-. reflexivity. }
  subst nonce.
  destruct (Hflow (idp_ok "AAAAAAAAAAAAAAAAAAAAAAAAAAAAAAA" "tok")
              "xyz"%string "tok"%string)
    as (out & Hout & Hw & _ & Hwait);
    try solve [ reflexivity | discriminate ].
  exists out. split; [exact Hout|]. split; [exact Hw|].
  apply (Hwait (idp_ok "AAAAAAAAAAAAAAAAAAAAAAAAAAAAAAA" "tok")
           (fun _ => Watching (ChanRecv (put_event [x02%byte]) ChanBlocked))
           [500; 750] [] (put_event [x02%byte]) ChanBlocked);
    reflexivity.
Defined.

(* ===================================================================== *)
(** ** Log formatting *)
(* ===================================================================== *)

Section StringsFacts.

Import strings.

Lemma append_cons c a b : String c a +:+ b = String c (a +:+ b).
Proof. reflexivity. Qed.

Lemma append_nil b : ""%string +:+ b = b.
Proof. reflexivity. Qed.

Lemma cut_space_None s : cut_space s = None <-> Count_space s = 0%nat.
Proof.
  induction s as [|c s IH]; cbn; [tauto|].
  destruct (Ascii.eqb c " "); [split; discriminate|].
  destruct (cut_space s) as [[a b]|].
  - split; [discriminate|]. intros H. apply IH in H. discriminate.
  - split; [intros _; apply IH; reflexivity | reflexivity].
Qed.

Lemma cut_space_Some s a b :
  cut_space s = Some (a, b) ->
  s = a +:+ " " +:+ b /\ Count_space a = 0%nat /\
  Count_space s = S (Count_space b).
Proof.
  revert a. induction s as [|c s IH]; intros a; cbn; [discriminate|].
  destruct (Ascii.eqb c " ") eqn:Hc.
  - apply Ascii.eqb_eq in Hc. subst c. intros [= <- <-].
    repeat split; reflexivity.
  - destruct (cut_space s) as [[a' b']|]; [|discriminate].
    intros [= <- <-]. destruct (IH a' eq_refl) as (-> & Ha & Hs).
    rewrite append_cons. cbn [Count_space]. rewrite Hc.
    repeat split; assumption.
Qed.

Lemma cut_space_app a b :
  Count_space a = 0%nat -> cut_space (a +:+ " " +:+ b) = Some (a, b).
Proof.
  induction a as [|c a IH].
  - intros _. rewrite append_nil, append_cons, append_nil. reflexivity.
  - rewrite append_cons. cbn [cut_space Count_space].
    destruct (Ascii.eqb c " "); [discriminate|].
    intros Ha. rewrite (IH Ha). reflexivity.
Qed.

(** [SplitN] gives one part more than there are separators, up to
    [n]. *)
Lemma SplitN_space_length n : forall s,
  length (SplitN_space s n) = Nat.min n (S (Count_space s)).
Proof.
  induction n as [|n IH]; intros s; [reflexivity|].
  cbn [SplitN_space]. destruct n as [|n]; [reflexivity|].
  destruct (cut_space s) as [[a b]|] eqn:Hcut.
  - apply cut_space_Some in Hcut as (_ & _ & ->).
    cbn [length]. rewrite IH. reflexivity.
  - apply cut_space_None in Hcut. rewrite Hcut. reflexivity.
Qed.

Lemma SplitN_space_4 level date time rest :
  Count_space level = 0%nat -> Count_space date = 0%nat ->
  Count_space time = 0%nat ->
  SplitN_space (level +:+ " " +:+ date +:+ " " +:+ time +:+ " " +:+ rest) 4
    = [level; date; time; rest].
Proof.
  intros Hl Hd Ht. cbn [SplitN_space].
  rewrite (cut_space_app level _ Hl), (cut_space_app date _ Hd),
    (cut_space_app time _ Ht). reflexivity.
Qed.

End StringsFacts.

Section FormatterFacts.

Import log.

Context {Time other : Type}.
Variable Format_RFC3339 : Time -> string.
Variable type_name : other -> string.
Variable Sprint : value other -> string.
Variable Marshal : gmap string (value other) -> errorable string.

Lemma index_size (data : gmap string (value other)) k :
  is_nil (index data k) = false -> (0 <? size data)%nat = true.
Proof.
  unfold index. destruct (data !! k) as [v|] eqn:Hk; [|discriminate].
  intros _. apply Nat.ltb_lt.
  destruct (size data) eqn:Hsz; [|lia].
  apply map_size_empty_iff in Hsz. subst data.
  rewrite lookup_empty in Hk. discriminate.
Qed.

(** The fields after the first [if] of [Pretty]: the field [duration] is
    as before, and [service] and [method] are not both there. *)
Lemma after_service_method (data : gmap string (value other)) :
  let data' :=
    if negb (is_nil (index data "service"))
       && negb (is_nil (index data "method"))
    then delete "method"%string (delete "service"%string data)
    else data in
  index data' "duration" = index data "duration" /\
  negb (is_nil (index data' "service"))
    && negb (is_nil (index data' "method")) = false.
Proof.
  cbv zeta.
  destruct (negb (is_nil (index data "service"))
            && negb (is_nil (index data "method"))) eqn:Hc.
  - split.
    + unfold index. rewrite !lookup_delete_ne by discriminate. reflexivity.
    + unfold index at 2. rewrite lookup_delete_eq. cbn.
      apply andb_false_r.
  - split; [reflexivity|exact Hc].
Qed.

(** [Pretty], by the field [duration]. *)
Lemma Pretty_by_duration (entry : Entry Time other) :
  exists serialized data,
    index data "duration" = index (Data entry) "duration" /\
    negb (is_nil (index data "service"))
      && negb (is_nil (index data "method")) = false /\
    Pretty Format_RFC3339 type_name Sprint Marshal entry =
      if (0 <? size data)%nat then
        match
          if negb (is_nil (index data "duration")) then
            match index data "duration" with
            | VDuration d => Ok (<["duration"%string := VSeconds d]> data)
            | v => Panic (conversion_panic type_name v)
            end
          else Ok data
        with
        | Panic m => Panic m
        | Ok data =>
            match Marshal data with
            | inr err =>
                Ok (data,
                    inr (Wrapf err "failed to marshal fields to JSON"))
            | inl json =>
                Ok (data,
                    inl (serialized +:+ json +:+ " " +:+ Message entry
                           +:+ nl))
            end
        end
      else Ok (data, inl (serialized +:+ Message entry +:+ nl)).
Proof.
  unfold Pretty.
  destruct (after_service_method (Data entry)) as [Hd Hsm].
  destruct (negb (is_nil (index (Data entry) "service"))
            && negb (is_nil (index (Data entry) "method")));
    eexists; eexists; (split; [exact Hd|]); (split; [exact Hsm|]);
    reflexivity.
Qed.

End FormatterFacts.

(** [Pretty] panics exactly when the entry has a field [duration] that
    is not nil and not a [time.Duration]; the panic is that of the type
    assertion and names the type of the value. *)
Theorem Pretty_panics_iff {Time other : Type}
    (Format_RFC3339 : Time -> string) (type_name : other -> string)
    (Sprint : log.value other -> string)
    (Marshal : gmap string (log.value other) -> errorable string)
    (entry : log.Entry Time other) (m : string) :
  log.Pretty Format_RFC3339 type_name Sprint Marshal entry = Panic m <->
  log.is_nil (log.index (log.Data entry) "duration") = false /\
  (forall d, log.index (log.Data entry) "duration" <> log.VDuration d) /\
  m = log.conversion_panic type_name
        (log.index (log.Data entry) "duration").
Proof.
  destruct (Pretty_by_duration Format_RFC3339 type_name Sprint Marshal entry)
    as (serialized & data & Hd & _ & ->).
  rewrite Hd.
  destruct (log.is_nil (log.index (log.Data entry) "duration")) eqn:Hnil.
  - cbn [negb].
    split; [|intros [H _]; discriminate].
    destruct (0 <? size data)%nat; [|discriminate].
    destruct (Marshal data); discriminate.
  - rewrite (index_size data "duration") by (rewrite Hd; exact Hnil).
    cbn [negb].
    destruct (log.index (log.Data entry) "duration") as [|d|d|s|o] eqn:Hv;
      try discriminate Hnil.
    + split.
      * destruct (Marshal _); discriminate.
      * intros (_ & H & _). destruct (H d). reflexivity.
    + split.
      * intros [= <-]. repeat split. discriminate.
      * intros (_ & _ & ->). reflexivity.
    + split.
      * intros [= <-]. repeat split. discriminate.
      * intros (_ & _ & ->). reflexivity.
    + split.
      * intros [= <-]. repeat split. discriminate.
      * intros (_ & _ & ->). reflexivity.
Qed.

(** [Pretty] changes the entry it formats: for an entry with a duration
    the call returns, and leaves the duration as a number of seconds in
    the entry's fields, so that formatting the same entry again panics
    at the type assertion. *)
Theorem Pretty_twice_panics {Time other : Type}
    (Format_RFC3339 : Time -> string) (type_name : other -> string)
    (Sprint : log.value other -> string)
    (Marshal : gmap string (log.value other) -> errorable string)
    (entry : log.Entry Time other) (d : Z) :
  log.index (log.Data entry) "duration" = log.VDuration d ->
  exists data r,
    log.Pretty Format_RFC3339 type_name Sprint Marshal entry = Ok (data, r) /\
    log.index data "duration" = log.VSeconds d /\
    log.Pretty Format_RFC3339 type_name Sprint Marshal
               (log.with_data entry data)
      = Panic "interface conversion: interface {} is float64, not time.Duration".
Proof.
  intros Hdur.
  destruct (Pretty_by_duration Format_RFC3339 type_name Sprint Marshal entry)
    as (serialized & data & Hd & _ & ->).
  rewrite Hdur in Hd.
  rewrite (index_size data "duration") by (rewrite Hd; reflexivity).
  rewrite Hd. cbn [negb log.is_nil].
  set (data2 := <["duration"%string := log.VSeconds d]> data).
  assert (Hd2 : log.index data2 "duration" = log.VSeconds d).
  { unfold log.index, data2. rewrite lookup_insert_eq. reflexivity. }
  assert (Hsecond :
    log.Pretty Format_RFC3339 type_name Sprint Marshal
               (log.with_data entry data2)
    = Panic "interface conversion: interface {} is float64, not time.Duration").
  { destruct (Pretty_by_duration Format_RFC3339 type_name Sprint Marshal
                (log.with_data entry data2))
      as (serialized3 & data3 & Hd3 & _ & ->).
    cbn [log.with_data log.Data] in Hd3. rewrite Hd2 in Hd3.
    rewrite (index_size data3 "duration") by (rewrite Hd3; reflexivity).
    rewrite Hd3. reflexivity. }
  destruct (Marshal data2) as [json|err];
    eexists; eexists; (split; [reflexivity|]); split; assumption.
Qed.

Lemma Pretty_twice_panics_witness :
  exists data r,
    log.Pretty (fun _ : Z => "2019-02-11T16:02:02Z"%string)
      (fun o : Empty_set => match o with end)
      (fun v => match v with log.VString s => s | _ => "?"%string end)
      (fun _ => inl "{}"%string) log.sample_entry = Ok (data, r) /\
    log.index data "duration" = log.VSeconds 1500000000 /\
    log.Pretty (fun _ : Z => "2019-02-11T16:02:02Z"%string)
      (fun o : Empty_set => match o with end)
      (fun v => match v with log.VString s => s | _ => "?"%string end)
      (fun _ => inl "{}"%string) (log.with_data log.sample_entry data)
      = Panic "interface conversion: interface {} is float64, not time.Duration".
Proof.
  apply (Pretty_twice_panics (fun _ : Z => "2019-02-11T16:02:02Z"%string)
           (fun o : Empty_set => match o with end)
           (fun v => match v with log.VString s => s | _ => "?"%string end)
           (fun _ => inl "{}"%string) log.sample_entry 1500000000).
  reflexivity.
Defined.

(** A line as gRPC writes it, a prefix, a date and a time without
    spaces and then the message, is logged without the date and the
    time: the message, which may hold spaces, is trimmed and logged at
    the level of the prefix, a [FATAL:] one at the error level; a prefix
    that is not known gives the message and a second call that reports
    the prefix, both at the error level. [Write] returns the length of
    the line and no error. *)
Theorem Write_grpc_line (TrimSpace : string -> string)
    (l : log.GRPCLogWriter) (level date time rest : string) :
  strings.Count_space level = 0%nat -> strings.Count_space date = 0%nat ->
  strings.Count_space time = 0%nat ->
  let line := level +:+ " " +:+ date +:+ " " +:+ time +:+ " " +:+ rest in
  log.Write TrimSpace l line =
    (match log.grpc_level level with
     | Some lv => [log.Logged lv (log.source l) (log.Text (TrimSpace rest))]
     | None =>
         [log.Logged logrus.ErrorLevel (log.source l)
            (log.Text (TrimSpace rest));
          log.unknown_prefix l level]
     end,
     (strlen line, None)).
Proof.
  intros Hl Hd Ht line. unfold log.Write, line.
  rewrite (SplitN_space_4 level date time rest Hl Hd Ht).
  unfold log.grpc_level.
  destruct (String.eqb level "INFO:"); [reflexivity|].
  destruct (String.eqb level "ERROR:"); [reflexivity|].
  destruct (String.eqb level "WARNING:"); [reflexivity|].
  destruct (String.eqb level "FATAL:"); reflexivity.
Qed.

Lemma Write_grpc_line_witness :
  log.Write (fun s => s) {| log.source := "etcd/grpc" |}
    "FATAL: 2019/02/18 12:21:54 transport is closing" =
    ([log.Logged logrus.ErrorLevel "etcd/grpc"
        (log.Text "transport is closing")], (47, None)).
Proof.
  apply (Write_grpc_line (fun s => s) {| log.source := "etcd/grpc" |}
           "FATAL:" "2019/02/18" "12:21:54" "transport is closing");
    reflexivity.
Defined.

(** [Write] reports a line it cannot cut exactly when the line holds
    fewer than three spaces: then, and only then, it logs the bytes of
    the line as they are and the notice of an unexpected format, both
    at the error level. *)
Theorem Write_unexpected_format_iff (TrimSpace : string -> string)
    (l : log.GRPCLogWriter) (p : string) :
  fst (log.Write TrimSpace l p) = log.unexpected_format l p <->
  (strings.Count_space p < 3)%nat.
Proof.
  unfold log.Write. cbn [fst].
  pose proof (SplitN_space_length 4 p) as Hlen.
  destruct (strings.SplitN_space p 4) as [|a [|b [|c [|d [|e parts]]]]];
    cbn [length] in Hlen.
  1-4: split; [intros _; lia | intros _; reflexivity].
  - split; [|lia]. intros H. exfalso. revert H.
    destruct (String.eqb a "INFO:"); [discriminate|].
    destruct (String.eqb a "ERROR:"); [discriminate|].
    destruct (String.eqb a "WARNING:"); [discriminate|].
    destruct (String.eqb a "FATAL:"); discriminate.
  - lia.
Qed.

(** Whatever it is given, [Write] returns the length of the input and
    no error, makes one or two calls on the logger, each with the
    writer's source, and none of them at the fatal or the panic level:
    the writer never ends the process. *)
Theorem Write_never_fatal (TrimSpace : string -> string)
    (l : log.GRPCLogWriter) (p : string) :
  snd (log.Write TrimSpace l p) = (strlen p, None) /\
  (1 <= length (fst (log.Write TrimSpace l p)) <= 2)%nat /\
  Forall (fun c =>
            log.logged_source c = log.source l /\
            (log.logged_level c = logrus.InfoLevel \/
             log.logged_level c = logrus.WarnLevel \/
             log.logged_level c = logrus.ErrorLevel))
         (fst (log.Write TrimSpace l p)).
Proof.
  unfold log.Write. cbn [fst snd]. split; [reflexivity|].
  assert (Hcall : forall w,
            log.logged_source (log.Logged logrus.ErrorLevel (log.source l) w)
              = log.source l /\
            (log.logged_level (log.Logged logrus.ErrorLevel (log.source l) w)
               = logrus.InfoLevel \/
             log.logged_level (log.Logged logrus.ErrorLevel (log.source l) w)
               = logrus.WarnLevel \/
             log.logged_level (log.Logged logrus.ErrorLevel (log.source l) w)
               = logrus.ErrorLevel))
    by (intros w; cbn; auto).
  destruct (strings.SplitN_space p 4) as [|a [|b [|c [|d [|e parts]]]]];
    try (split; [cbn; lia | repeat (apply List.Forall_cons; [apply Hcall|]);
                            apply List.Forall_nil]).
  destruct (String.eqb a "INFO:");
    [split; [cbn; lia | apply List.Forall_cons; [cbn; auto|constructor]]|].
  destruct (String.eqb a "ERROR:");
    [split; [cbn; lia | apply List.Forall_cons; [cbn; auto|constructor]]|].
  destruct (String.eqb a "WARNING:");
    [split; [cbn; lia | apply List.Forall_cons; [cbn; auto|constructor]]|].
  destruct (String.eqb a "FATAL:");
    (split; [cbn; lia | repeat (apply List.Forall_cons; [apply Hcall|]);
                        apply List.Forall_nil]).
Qed.

(* ===================================================================== *)
(** ** Self-signed certificates *)
(* ===================================================================== *)

Section CertFacts.

Import cert.

Variable L : Libraries.

(** The loop over the addresses succeeds when every text parses, and
    fails at the first one that does not. *)
Lemma parse_ips_spec (ips : list string) : forall parsed : list (IP L),
  match parse_ips ips parsed with
  | inl all =>
      exists more, all = parsed ++ more /\
                   map (ParseIP L) ips = map Some more
  | inr err =>
      exists good bad rest,
        ips = good ++ bad :: rest /\
        Forall (fun s => ParseIP L s <> None) good /\
        ParseIP L bad = None /\
        err = Errorf "invalid IP: %s" [bad]
  end.
Proof.
  induction ips as [|s ips IH]; intros parsed; cbn [parse_ips].
  - exists []. rewrite app_nil_r. split; reflexivity.
  - destruct (ParseIP L s) as [ip|] eqn:Hs.
    + specialize (IH (parsed ++ [ip])).
      destruct (parse_ips ips (parsed ++ [ip])) as [all|err].
      * destruct IH as (more & -> & Hmore). exists (ip :: more).
        rewrite <- app_assoc. cbn [map]. rewrite Hmore, Hs.
        split; reflexivity.
      * destruct IH as (good & bad & rest & -> & Hgood & Hbad & ->).
        exists (s :: good), bad, rest.
        repeat split; [|exact Hbad].
        apply List.Forall_cons; [rewrite Hs; discriminate|exact Hgood].
    + exists [], s, ips. repeat split; [constructor|exact Hs].
Qed.

(** A call signs a template or leaves [serialNumber] alone. *)
Lemma GenerateSelfSignedCert_serial (w : World L) serial address name ips :
  let out := GenerateSelfSignedCert w serial address name ips in
  match signed out with
  | Some t =>
      SerialNumber t = int_add serial 1 /\
      serial_after out = int_add serial 1
  | None => serial_after out = serial
  end.
Proof.
  cbv zeta. unfold GenerateSelfSignedCert.
  repeat match goal with
         | |- context [match check_name ?a ?b with _ => _ end] =>
             destruct (check_name a b)
         | |- context [match parse_ips ?a ?b with _ => _ end] =>
             destruct (parse_ips a b)
         | |- context [match GenerateKey ?w with _ => _ end] =>
             destruct (GenerateKey w)
         | |- context [match CreateCertificate ?w ?t ?k with _ => _ end] =>
             destruct (CreateCertificate w t k)
         | |- context [match ParseCertificate ?w ?d with _ => _ end] =>
             destruct (ParseCertificate w d)
         end; cbn; auto.
Qed.

Lemma serial_numbers_calls_from (calls : list (Call L)) : forall serial,
  - 2 ^ 63 <= serial -> serial + Z.of_nat (length calls) < 2 ^ 63 ->
  exists k, (k <= length calls)%nat /\
    serial_numbers (calls_from serial calls)
      = map (fun i => serial + Z.of_nat i) (seq 1 k).
Proof.
  induction calls as [|c calls IH]; intros serial Hlo Hhi.
  - exists 0%nat. split; [lia|reflexivity].
  - cbn [calls_from serial_numbers flat_map length] in *.
    pose proof (GenerateSelfSignedCert_serial (call_world c) serial
                  (call_address c) (call_name c) (call_ipAddresses c)) as Hs.
    cbv zeta in Hs.
    destruct (signed (GenerateSelfSignedCert _ _ _ _ _)) as [t|].
    + destruct Hs as [Ht Hafter]. rewrite Hafter.
      assert (Hadd : int_add serial 1 = serial + 1)
        by (unfold int_add; apply int_wrap_small; lia).
      rewrite Hadd in Ht |- *.
      destruct (IH (serial + 1)) as (k & Hk & Hnums); [lia|lia|].
      exists (S k). split; [lia|].
      fold (serial_numbers (calls_from (serial + 1) calls)).
      rewrite Hnums, Ht. cbn [seq map app]. f_equal.
      rewrite <- (seq_shift k 1), map_map. apply map_ext. intros i. lia.
    + rewrite Hs.
      destruct (IH serial) as (k & Hk & Hnums); [lia|lia|].
      exists k. split; [lia|]. exact Hnums.
Qed.

Lemma GenerateSelfSignedCert_signed_inv (w : World L) serial address name
    ips t :
  signed (GenerateSelfSignedCert w serial address name ips) = Some t ->
  exists name_ parsed key,
    check_name address (name_or_new name) = inl name_ /\
    parse_ips ips [] = inl parsed /\
    GenerateKey w = inl key /\
    t = unsigned w (int_add serial 1) address name_ parsed.
Proof.
  unfold GenerateSelfSignedCert.
  destruct (check_name address (name_or_new name)) as [name_|err];
    [|discriminate].
  destruct (parse_ips ips []) as [parsed|err]; [|discriminate].
  destruct (GenerateKey w) as [key|err]; [|discriminate].
  cbv zeta. intros Ht. exists name_, parsed, key.
  repeat split.
  destruct (CreateCertificate w _ key) as [der|err];
    [destruct (ParseCertificate w der)|];
    cbn in Ht; injection Ht as <-; reflexivity.
Qed.

(** What the [switch] lets through. *)
Lemma check_name_ok address (n n' : Name L) :
  check_name address n = inl n' ->
  CommonName n' <> ""%string /\
  (address <> ""%string -> CommonName n' = address) /\
  (CommonName n <> ""%string -> n' = n) /\
  (CommonName n = ""%string ->
   n' = {| CommonName := address; Attributes := Attributes n |}).
Proof.
  unfold check_name.
  destruct (String.eqb_spec address "") as [Ha|Ha];
    destruct (String.eqb_spec (CommonName n) "") as [Hn|Hn];
    cbn [andb negb].
  - discriminate.
  - intros [= <-]. repeat split; try congruence.
  - intros [= <-]. cbn. repeat split; try congruence.
  - destruct (String.eqb_spec (CommonName n) address) as [Hna|Hna];
      cbn [negb]; [|discriminate].
    intros [= <-]. repeat split; try congruence.
Qed.

(** What the [switch] refuses. *)
Lemma check_name_refuses address (n : Name L) :
  (address = ""%string /\ CommonName n = ""%string) \/
  (address <> ""%string /\ CommonName n <> ""%string /\
   CommonName n <> address) ->
  exists err, check_name address n = inr err.
Proof.
  unfold check_name.
  destruct (String.eqb_spec address "") as [Ha|Ha];
    destruct (String.eqb_spec (CommonName n) "") as [Hn|Hn];
    cbn [andb negb]; intros [[H1 H2]|(H1 & H2 & H3)]; try congruence;
    try (eexists; reflexivity).
  destruct (String.eqb_spec (CommonName n) address) as [Hna|Hna];
    [congruence|]. eexists. reflexivity.
Qed.

End CertFacts.

(** A certificate that [GenerateSelfSignedCert] returns can be written
    out: its chain is the one DER encoding [x509.CreateCertificate] made
    of the signed template, so that [PublicCertToPEM] does not panic and
    encodes it, and its key is the RSA key that was generated, so that
    [KeyToPEM] is not nil. *)
Theorem generated_certificate_encodes (L : cert.Libraries)
    (w : cert.World L) (serial : Z) (address : string)
    (name : option (cert.Name L)) (ips : list string)
    (c : cert.tls_Certificate L) :
  cert.cert_ret (cert.GenerateSelfSignedCert w serial address name ips)
    = inl c ->
  exists t key der,
    cert.signed (cert.GenerateSelfSignedCert w serial address name ips)
      = Some t /\
    cert.GenerateKey w = inl key /\
    cert.CreateCertificate w t key = inl der /\
    cert.PublicCertToPEM c = Ok (cert.EncodeToMemory L "CERTIFICATE" der) /\
    cert.KeyToPEM c
      = Some (cert.EncodeToMemory L "RSA PRIVATE KEY"
                (cert.MarshalPKCS1PrivateKey L key)).
Proof.
  unfold cert.GenerateSelfSignedCert.
  destruct (cert.check_name address (cert.name_or_new name)) as [name_|err];
    [|discriminate].
  destruct (cert.parse_ips ips []) as [parsed|err]; [|discriminate].
  destruct (cert.GenerateKey w) as [key|err]; [|discriminate].
  cbv zeta.
  destruct (cert.CreateCertificate w _ key) as [der|err] eqn:Hder;
    [|discriminate].
  destruct (cert.ParseCertificate w der) as [leaf|err]; [|discriminate].
  cbn [cert.cert_ret cert.signed]. intros [= <-].
  eexists. exists key, der.
  split; [reflexivity|]. split; [reflexivity|]. split; [exact Hder|].
  split; reflexivity.
Qed.

Lemma generated_certificate_encodes_witness :
  exists t key der,
    cert.signed (cert.GenerateSelfSignedCert cert.sample_world 0
                   "pachd.example.com" None ["127.0.0.1"%string])
      = Some t /\
    cert.GenerateKey cert.sample_world = inl key /\
    cert.CreateCertificate cert.sample_world t key = inl der /\
    cert.PublicCertToPEM
      (cert.Build_tls_Certificate cert.sample_libraries
         ["der signed by key"%string] (Some "der signed by key"%string)
         (@cert.RSAPrivateKey cert.sample_libraries "key"%string))
      = Ok (cert.EncodeToMemory cert.sample_libraries "CERTIFICATE" der) /\
    cert.KeyToPEM
      (cert.Build_tls_Certificate cert.sample_libraries
         ["der signed by key"%string] (Some "der signed by key"%string)
         (@cert.RSAPrivateKey cert.sample_libraries "key"%string))
      = Some (cert.EncodeToMemory cert.sample_libraries "RSA PRIVATE KEY"
                (cert.MarshalPKCS1PrivateKey cert.sample_libraries key)).
Proof.
  apply (generated_certificate_encodes cert.sample_libraries
           cert.sample_world 0 "pachd.example.com" None
           ["127.0.0.1"%string]).
  reflexivity.
Defined.

(** The serial numbers of the package count up: over calls one after
    the other, the certificates that are signed carry the numbers that
    follow [serialNumber] as the first call found it, one by one, so
    that no two of them carry the same; a call that ends before the key
    is generated uses no number, one that fails at signing or parsing
    does. *)
Theorem serial_numbers_count_up (L : cert.Libraries)
    (calls : list (cert.Call L)) (serial : Z) :
  - 2 ^ 63 <= serial -> serial + Z.of_nat (length calls) < 2 ^ 63 ->
  NoDup (cert.serial_numbers (cert.calls_from serial calls)) /\
  exists k, (k <= length calls)%nat /\
    cert.serial_numbers (cert.calls_from serial calls)
      = map (fun i => serial + Z.of_nat i) (seq 1 k).
Proof.
  intros Hlo Hhi.
  destruct (serial_numbers_calls_from L calls serial Hlo Hhi)
    as (k & Hk & Hnums).
  split; [|exists k; split; assumption].
  rewrite Hnums. apply NoDup_fmap_2; [|apply NoDup_seq].
  intros i j Hij. lia.
Qed.

Lemma serial_numbers_count_up_witness :
  let ok := cert.Build_Call cert.sample_libraries cert.sample_world
              "pachd.example.com" None [] in
  let bad_ip := cert.Build_Call cert.sample_libraries cert.sample_world
                  "pachd.example.com" None ["localhost"%string] in
  NoDup (cert.serial_numbers (cert.calls_from 0 [ok; bad_ip; ok])) /\
  exists k, (k <= 3)%nat /\
    cert.serial_numbers (cert.calls_from 0 [ok; bad_ip; ok])
      = map (fun i => 0 + Z.of_nat i) (seq 1 k).
Proof.
  intros ok bad_ip.
  apply (serial_numbers_count_up cert.sample_libraries [ok; bad_ip; ok] 0);
    cbn; lia.
Defined.

(** The subject of every certificate that is signed has a common name:
    the address when one is given, and then the DNS name is the address
    too; without an address, the name is the caller's, as it was passed.
    The IP addresses are the given texts, all of them parsed, and the
    certificate is marked as one of an authority that may sign. *)
Theorem signed_subject_has_common_name (L : cert.Libraries)
    (w : cert.World L) (serial : Z) (address : string)
    (name : option (cert.Name L)) (ips : list string)
    (t : cert.Template L) :
  cert.signed (cert.GenerateSelfSignedCert w serial address name ips)
    = Some t ->
  cert.CommonName (cert.Subject t) <> ""%string /\
  (address <> ""%string -> cert.CommonName (cert.Subject t) = address) /\
  (address = ""%string -> name = Some (cert.Subject t)) /\
  cert.DNSNames t = [address] /\
  map (cert.ParseIP L) ips = map Some (cert.IPAddresses t) /\
  cert.IsCA t = true /\ Z.testbit (cert.KeyUsage t) 5 = true.
Proof.
  intros Ht.
  apply GenerateSelfSignedCert_signed_inv in Ht
    as (name_ & parsed & key & Hname & Hips & _ & ->).
  cbn [cert.unsigned cert.Subject cert.DNSNames cert.IPAddresses cert.IsCA
       cert.KeyUsage].
  destruct (check_name_ok L address _ name_ Hname) as (Hcn & Haddr & Hkeep & _).
  split; [exact Hcn|]. split; [exact Haddr|].
  split.
  { intros ->. destruct name as [n|]; cbn [cert.name_or_new] in *.
    - f_equal. symmetry. apply Hkeep. intros Hn.
      unfold cert.check_name in Hname. rewrite Hn in Hname. discriminate.
    - discriminate. }
  split; [reflexivity|]. split; [|split; reflexivity].
  pose proof (parse_ips_spec L ips []) as Hspec. rewrite Hips in Hspec.
  destruct Hspec as (more & -> & Hmore). exact Hmore.
Qed.

Lemma signed_subject_has_common_name_witness :
  exists t,
    cert.signed (cert.GenerateSelfSignedCert cert.sample_world 0
                   "pachd.example.com" None ["127.0.0.1"%string; "::1"%string])
      = Some t /\
    cert.CommonName (cert.Subject t) = "pachd.example.com"%string /\
    cert.DNSNames t = ["pachd.example.com"%string].
Proof.
  eexists. split; [reflexivity|].
  destruct (signed_subject_has_common_name cert.sample_libraries
              cert.sample_world 0 "pachd.example.com" None
              ["127.0.0.1"%string; "::1"%string] _ eq_refl)
    as (_ & Hcn & _ & Hdns & _).
  split; [apply Hcn; discriminate|exact Hdns].
Defined.

(** Arguments that are refused cost nothing: when neither an address nor
    a common name is given, when they differ, or when one of the texts
    is no IP address, the call returns an error, and it does so before a
    key is generated: nothing is signed, [serialNumber] stays, and the
    results do not depend on the key generator, the clock or the
    signing. Of several texts that are no address, the first is the one
    reported. *)
Theorem refused_arguments_cost_nothing (L : cert.Libraries)
    (w : cert.World L) (serial : Z) (address : string)
    (name : option (cert.Name L)) (ips : list string) :
  (address = ""%string /\
   cert.CommonName (cert.name_or_new name) = ""%string) \/
  (address <> ""%string /\
   cert.CommonName (cert.name_or_new name) <> ""%string /\
   cert.CommonName (cert.name_or_new name) <> address) \/
  (exists s, In s ips /\ cert.ParseIP L s = None) ->
  exists err,
    cert.cert_ret (cert.GenerateSelfSignedCert w serial address name ips)
      = inr err /\
    cert.signed (cert.GenerateSelfSignedCert w serial address name ips)
      = None /\
    cert.serial_after (cert.GenerateSelfSignedCert w serial address name ips)
      = serial /\
    (forall w',
       cert.GenerateSelfSignedCert w' serial address name ips
       = cert.GenerateSelfSignedCert w serial address name ips) /\
    (forall n, cert.check_name address (cert.name_or_new name) = inl n ->
       exists good bad rest,
         ips = good ++ bad :: rest /\
         Forall (fun s => cert.ParseIP L s <> None) good /\
         cert.ParseIP L bad = None /\
         err = Errorf "invalid IP: %s" [bad]).
Proof.
  intros Hbad. unfold cert.GenerateSelfSignedCert.
  destruct (cert.check_name address (cert.name_or_new name))
    as [name_|err] eqn:Hname.
  - pose proof (parse_ips_spec L ips []) as Hspec.
    destruct (cert.parse_ips ips []) as [parsed|err].
    + exfalso. destruct Hspec as (more & _ & Hmore).
      destruct Hbad as [H|[H|(s & Hin & Hs)]].
      * destruct (check_name_refuses L address _ (or_introl H)) as [e He].
        congruence.
      * destruct (check_name_refuses L address _ (or_intror H)) as [e He].
        congruence.
      * apply (in_map (cert.ParseIP L)) in Hin. rewrite Hmore, Hs in Hin.
        apply in_map_iff in Hin as (x & Hx & _). discriminate.
    + exists err. repeat split. intros n _. exact Hspec.
  - exists err. repeat split. intros n Hn. discriminate.
Qed.

Lemma refused_arguments_cost_nothing_witness :
  exists err,
    cert.cert_ret (cert.GenerateSelfSignedCert cert.sample_world 7
                     "pachd.example.com" None
                     ["127.0.0.1"%string; "localhost"%string; "nowhere"%string])
      = inr err /\
    err = Errorf "invalid IP: %s" ["localhost"%string] /\
    cert.serial_after (cert.GenerateSelfSignedCert cert.sample_world 7
                         "pachd.example.com" None
                         ["127.0.0.1"%string; "localhost"%string;
                          "nowhere"%string])
      = 7.
Proof.
  destruct (refused_arguments_cost_nothing cert.sample_libraries
              cert.sample_world 7 "pachd.example.com" None
              ["127.0.0.1"%string; "localhost"%string; "nowhere"%string])
    as (err & Hret & _ & Hserial & _ & _).
  { right. right. exists "localhost"%string.
    split; [right; left; reflexivity | reflexivity]. }
  exists err. split; [exact Hret|]. split; [|exact Hserial].
  vm_compute in Hret. injection Hret as <-. reflexivity.
Defined.

(** The caller's [pkix.Name] is written to: a call with an address and a
    name without a common name sets the common name of the caller's
    name to the address, and leaves it so whether the call then
    succeeds or fails; in every other case the caller's name is left as
    it was. *)
Theorem caller_name_gets_address (L : cert.Libraries)
    (w : cert.World L) (serial : Z) (address : string)
    (n : cert.Name L) (ips : list string) :
  cert.name_after
    (cert.GenerateSelfSignedCert w serial address (Some n) ips) =
    if negb (String.eqb address "") && String.eqb (cert.CommonName n) ""
    then Some {| cert.CommonName := address;
                 cert.Attributes := cert.Attributes n |}
    else Some n.
Proof.
  unfold cert.GenerateSelfSignedCert. cbn [cert.name_or_new].
  destruct (cert.check_name address n) as [name_|err] eqn:Hname.
  - destruct (check_name_ok L address n name_ Hname)
      as (_ & _ & Hkeep & Hset).
    assert (Hafter : Some name_ =
              if negb (String.eqb address "")
                 && String.eqb (cert.CommonName n) ""
              then Some {| cert.CommonName := address;
                           cert.Attributes := cert.Attributes n |}
              else Some n).
    { destruct (String.eqb_spec (cert.CommonName n) "") as [Hn|Hn].
      - rewrite (Hset Hn).
        destruct (String.eqb_spec address "") as [Ha|Ha]; cbn [negb andb];
          [|reflexivity].
        unfold cert.check_name in Hname. rewrite Ha, Hn in Hname.
        discriminate.
      - rewrite (Hkeep Hn), andb_false_r. reflexivity. }
    destruct (cert.parse_ips ips []); [|exact Hafter].
    destruct (cert.GenerateKey w) as [key|]; [|exact Hafter].
    cbv zeta. destruct (cert.CreateCertificate w _ key) as [der|];
      [|exact Hafter].
    destruct (cert.ParseCertificate w der); exact Hafter.
  - cbn [cert.name_after]. unfold cert.check_name in Hname.
    destruct (String.eqb address ""), (String.eqb (cert.CommonName n) "");
      cbn [andb negb] in *; try reflexivity; discriminate.
Qed.

(* ===================================================================== *)
(** ** The callback and the waiter, whatever they are given *)
(* ===================================================================== *)

Lemma exchange_and_commit_store sp fault st code state :
  c_store (exchange_and_commit sp fault st code state) = st \/
  exists si si',
    st !! state = Some si /\
    c_store (exchange_and_commit sp fault st code state)
      = <[state := si']> st.
Proof.
  rewrite exchange_and_commit_unfold.
  destruct (exchanged sp code state) as [[n a] ce].
  unfold col.NewSTM, col.Update.
  destruct fault as [|e|e].
  - destruct (st !! state) as [si|] eqn:Hsi; [|left; reflexivity].
    destruct (mutator n a si ce) as [[si' ce'] [err|]] eqn:Hm.
    + left. reflexivity.
    + right. exists si, si'. split; reflexivity.
  - left. reflexivity.
  - destruct (st !! state) as [si|] eqn:Hsi.
    + destruct (mutator n a si ce) as [[si' ce'] [err|]]; left; reflexivity.
    + left. reflexivity.
Qed.

(** A callback writes to no session but its own, and makes none: a
    record is in the collection after the call exactly when it was
    there before, and every record under a key other than the [state]
    parameter is as it was, whatever the provider answers and however
    the store behaves. *)
Theorem callback_touches_only_its_session
    (sp : option InternalOIDCProvider) (fault : stm_fault) (st : Store)
    (query : gmap string (list string)) (out : HandlerOut) :
  handleOIDCExchange sp fault st query = Ok out ->
  (forall k, is_Some (out_store out !! k) <-> is_Some (st !! k)) /\
  (forall k, first_value query "state" <> Ok k ->
             out_store out !! k = st !! k).
Proof.
  unfold handleOIDCExchange.
  destruct sp as [sp|]; [|intros [= <-]; cbn; split; intros; tauto].
  destruct (first_value query "code") as [code|m]; [|discriminate].
  destruct (first_value query "state") as [state|m]; [|discriminate].
  destruct (String.eqb state "" || String.eqb code "");
    [intros [= <-]; cbn; split; intros; tauto|].
  cbv zeta. intros [= <-]. cbn [out_store].
  destruct (exchange_and_commit_store sp fault st code state)
    as [->|(si & si' & Hsi & ->)]; [split; intros; tauto|].
  split.
  - intros k. destruct (decide (k = state)) as [->|Hk].
    + rewrite lookup_insert_eq, Hsi. split; intros _; eexists; reflexivity.
    + rewrite lookup_insert_ne by congruence. tauto.
  - intros k Hk. rewrite lookup_insert_ne; [reflexivity|].
    intros ->. apply Hk. reflexivity.
Qed.

Lemma callback_touches_only_its_session_witness :
  exists out,
    handleOIDCExchange (Some (idp_ok "n0" "tok")) NoFault
      {[ "abc123"%string := pending_record "n0";
         "other"%string := pending_record "n1" ]}
      (callback_query "xyz" "abc123") = Ok out /\
    out_store out !! "other"%string = Some (pending_record "n1") /\
    (is_Some (out_store out !! "fresh"%string) <->
     is_Some (({[ "abc123"%string := pending_record "n0";
                  "other"%string := pending_record "n1" ]} : Store)
                !! "fresh"%string)).
Proof.
  eexists. split; [reflexivity|].
  destruct (callback_touches_only_its_session (Some (idp_ok "n0" "tok"))
              NoFault
              {[ "abc123"%string := pending_record "n0";
                 "other"%string := pending_record "n1" ]}
              (callback_query "xyz" "abc123") _ eq_refl) as [Hdom Hother].
  split.
  - rewrite (Hother "other"%string).
    + reflexivity.
    + vm_compute. discriminate.
  - apply Hdom.
Defined.

Section WaiterCounts.

Variable Unmarshal : list byte -> errorable SessionInfo.
Variable state : string.
Variable watches : nat -> watch_attempt.

Lemma close_count_app t1 t2 :
  close_count (t1 ++ t2) = (close_count t1 + close_count t2)%nat.
Proof. unfold close_count. rewrite List.filter_app, length_app. reflexivity. Qed.

Lemma sleep_count_app t1 t2 :
  sleep_count (t1 ++ t2) = (sleep_count t1 + sleep_count t2)%nat.
Proof. unfold sleep_count. rewrite List.filter_app, length_app. reflexivity. Qed.

Lemma userinfo_count_app t1 t2 :
  userinfo_count (t1 ++ t2) = (userinfo_count t1 + userinfo_count t2)%nat.
Proof.
  unfold userinfo_count. rewrite List.filter_app, length_app. reflexivity.
Qed.

Lemma established_S k n :
  established watches k (S n) =
    ((match watches k with Watching _ => 1 | WatchErr _ => 0 end)
     + established watches (S k) n)%nat.
Proof.
  unfold established. cbn [seq List.filter].
  destruct (watches k); reflexivity.
Qed.

(** The loop over the events only logs. *)
Lemma watch_loop_only_logs c : forall tok,
  let t := snd (watch_loop Unmarshal c tok) in
  close_count t = 0%nat /\ sleep_count t = 0%nat /\
  userinfo_count t = 0%nat.
Proof.
  induction c as [| |e rest IH]; intros tok; cbn [watch_loop];
    try (cbn; auto).
  destruct (Type_ e); try (cbn; auto).
  destruct (Unmarshal (Value e)) as [si|err]; [|cbn; auto].
  destruct (negb (String.eqb (AccessToken si) "")); [cbn; auto|].
  destruct (ConversionErr si); [cbn; auto|].
  specialize (IH tok).
  destruct (watch_loop Unmarshal rest tok) as [[r t'] tr]. exact IH.
Qed.

(** One call of the operation: one [WatchOne], no sleep, no question to
    the provider, and the watch it got is closed when it returns. *)
Lemma operation_counts k tok :
  let '(r, _, t) := operation Unmarshal state watches k tok in
  watch_count t = 1%nat /\ sleep_count t = 0%nat /\
  userinfo_count t = 0%nat /\
  (close_count t + pending_call r)%nat = established watches k 1.
Proof.
  pose proof (operation_watch_count Unmarshal state watches k tok) as Hw.
  unfold operation in *. rewrite (established_S k 0).
  destruct (watches k) as [e|c]; [cbn; auto|].
  pose proof (watch_loop_only_logs c tok) as (Hc & Hs & Hu).
  destruct (watch_loop Unmarshal c tok) as [[r tok'] t]. cbn [snd] in *.
  destruct r as [e|]; cbn [snd] in Hw.
  - split; [exact Hw|].
    change (EWatchOne state :: t ++ [EClose])
      with ([EWatchOne state] ++ t ++ [EClose]).
    rewrite !sleep_count_app, !userinfo_count_app, !close_count_app,
      Hc, Hs, Hu. cbn. auto.
  - split; [exact Hw|].
    change (EWatchOne state :: t) with ([EWatchOne state] ++ t).
    rewrite !sleep_count_app, !userinfo_count_app, !close_count_app,
      Hc, Hs, Hu. cbn. auto.
Qed.

Lemma established_add k n m :
  established watches k (n + m)
    = (established watches k n + established watches (k + n) m)%nat.
Proof.
  unfold established. rewrite seq_app, List.filter_app, length_app.
  reflexivity.
Qed.

(** The retry loop: at most one [WatchOne] more than the policy has
    intervals, a sleep between two of them, and every watch closed but
    the one a call that hangs is still reading. *)
Lemma RetryNotify_counts b : forall k tok,
  let '(r, _, t) :=
    backoff.RetryNotify (operation Unmarshal state watches) b
                        (notify state) k tok in
  (1 <= watch_count t <= S (length b))%nat /\
  S (sleep_count t) = watch_count t /\
  userinfo_count t = 0%nat /\
  (close_count t + pending_call r)%nat
    = established watches k (watch_count t).
Proof.
  induction b as [|next b IH]; intros k tok;
    cbn [backoff.RetryNotify];
    pose proof (operation_counts k tok) as Hop;
    destruct (operation Unmarshal state watches k tok) as [[r tok'] t];
    destruct Hop as (Hw & Hs & Hu & Hc).
  - destruct r as [[err|]|]; cbv beta iota; rewrite Hw, Hs; cbn [length];
      (split; [lia|]); (split; [reflexivity|]); (split; [exact Hu|]);
      exact Hc.
  - destruct r as [[err|]|]; cbv beta iota;
      try (rewrite Hw, Hs; cbn [length];
           (split; [lia|]); (split; [reflexivity|]); (split; [exact Hu|]);
           exact Hc).
    unfold notify at 1.
    destruct (is_watchFailed err || is_tokenDeleted err || is_authFailed err);
      cbv beta iota.
    + rewrite watch_count_app, sleep_count_app, userinfo_count_app,
        close_count_app, Hw, Hs, Hu. cbn [length].
      change (watch_count [ELog _]) with 0%nat.
      change (sleep_count [ELog _]) with 0%nat.
      change (userinfo_count [ELog _]) with 0%nat.
      change (close_count [ELog _]) with 0%nat.
      rewrite !Nat.add_0_r.
      (split; [lia|]); (split; [reflexivity|]); (split; [reflexivity|]).
      cbn [pending_call] in *. lia.
    + specialize (IH (S k) tok').
      destruct (backoff.RetryNotify _ b _ (S k) tok') as [[r2 tok2] t2].
      destruct IH as (Hw2 & Hs2 & Hu2 & Hc2).
      rewrite !watch_count_app, !sleep_count_app, !userinfo_count_app,
        !close_count_app, Hw, Hs, Hu, Hu2.
      change (watch_count [ELog _]) with 0%nat.
      change (sleep_count [ELog _]) with 0%nat.
      change (userinfo_count [ELog _]) with 0%nat.
      change (close_count [ELog _]) with 0%nat.
      change (watch_count [ESleep next]) with 0%nat.
      change (sleep_count [ESleep next]) with 1%nat.
      change (close_count [ESleep next]) with 0%nat.
      cbn [length Nat.add].
      (split; [lia|]); (split; [lia|]); (split; [reflexivity|]).
      change (S (watch_count t2)) with (1 + watch_count t2)%nat.
      rewrite (established_add k 1 (watch_count t2)).
      replace (k + 1)%nat with (S k) by lia.
      cbn [pending_call] in Hc. lia.
Qed.

End WaiterCounts.

(** What a waiter does, whatever the watches deliver: it calls
    [WatchOne] at least once and at most once more than the policy has
    intervals, and sleeps between two calls; every watch it was given is
    closed, on every way out, but the one that a waiter that does not
    return is still reading; and the provider is asked for the user at
    most once, not at all by a waiter that does not return, and once by
    one that returns no error. *)
Theorem waiter_closes_its_watches
    (Unmarshal : list byte -> errorable SessionInfo)
    (o : InternalOIDCProvider) (watches : nat -> watch_attempt)
    (b : list Duration) (state : string) :
  let r := fst (OIDCStateToEmail Unmarshal o watches b state) in
  let t := snd (OIDCStateToEmail Unmarshal o watches b state) in
  (1 <= watch_count t <= S (length b))%nat /\
  S (sleep_count t) = watch_count t /\
  (close_count t + pending_call r)%nat
    = established watches 0 (watch_count t) /\
  (userinfo_count t <= 1)%nat /\
  (r = Hang -> userinfo_count t = 0%nat) /\
  (forall email, r = Returned (email, None) -> userinfo_count t = 1%nat).
Proof.
  pose proof (RetryNotify_counts Unmarshal state watches b 0 "") as Hloop.
  destruct (backoff.RetryNotify (operation Unmarshal state watches) b
              (notify state) 0%nat ""%string) as [[r tok] t] eqn:Hrun.
  destruct Hloop as (Hw & Hs & Hu & Hc).
  rewrite (OIDCStateToEmail_of_retry Unmarshal o watches b state r tok t Hrun).
  destruct r as [[err|]|]; [| |].
  - cbn [fst snd].
    rewrite watch_count_app, sleep_count_app, close_count_app,
      userinfo_count_app, Hu.
    change (watch_count [converted_log _ _ _]) with 0%nat.
    change (sleep_count [converted_log _ _ _]) with 0%nat.
    change (close_count [converted_log _ _ _]) with 0%nat.
    change (userinfo_count [converted_log _ _ _]) with 0%nat.
    rewrite !Nat.add_0_r. cbn [pending_call] in *.
    repeat split; try lia; intros; discriminate.
  - destruct (UserInfo (Provider o) tok) as [email|err]; cbn [fst snd];
      rewrite watch_count_app, sleep_count_app, close_count_app,
        userinfo_count_app, Hu;
      match goal with
      | |- context [watch_count ?l] =>
          match l with
          | _ :: _ => change (watch_count l) with 0%nat
          end
      end;
      match goal with
      | |- context [sleep_count ?l] =>
          match l with
          | _ :: _ => change (sleep_count l) with 0%nat
          end
      end;
      match goal with
      | |- context [close_count ?l] =>
          match l with
          | _ :: _ => change (close_count l) with 0%nat
          end
      end;
      match goal with
      | |- context [userinfo_count ?l] =>
          match l with
          | _ :: _ => change (userinfo_count l) with 1%nat
          end
      end;
      rewrite !Nat.add_0_r; cbn [pending_call] in *;
      repeat split; try lia; intros; discriminate.
  - cbn [fst snd pending_call] in *.
    repeat split; try lia; intros; discriminate.
Qed.
